(** * Context management and turn control of the agent harness

    A shallow embedding of [src/core/compaction.py] and of
    [src/core/loop.py], and the properties of the token estimator, the
    tool-output pruner, the image evictor, the cache-breakpoint selector,
    the AI compactor, the context manager and the turn-control loop.

    Conventions of the embedding:
    - a Python [int] is a [Z] and a position in a list is a [nat];
    - a string is a [string] and [len] is [String.length];
    - a dict with a fixed set of keys is a record, [{**d, "k": v}] is the
      record with one field replaced, and equality of dicts is equality of
      records;
    - a [set] of positions is a [gset nat];
    - a [float] is a rational number: the thresholds and the cost of a
      call;
    - a [for] loop with [break] is a recursive function on what remains to
      be visited;
    - calls to [_log] are left out. *)

From stdpp Require Import base numbers list strings gmap.
From Stdlib Require Import QArith Qround.

#[local] Open Scope Z_scope.

(** ** Data model *)

(** One element of a multipart [content] list.  The code reads the keys
    [type], [text] and [cache_control] of a part that is a dict; what else
    the dict holds (an image reference) is [payload].  A [text] that is
    absent or [None] is [None] here: both count as the empty text. *)
Record PartDict := {
  ptype : option string;
  ptext : option string;
  cache_control : option string;
  payload : string;
}.

(** A part is tested with [isinstance(part, dict)] wherever it is read. *)
Inductive Part :=
| PDict (d : PartDict)
| PRaw (raw : string).

(** [msg.get("content")]: missing or [None], a string, or a list of parts. *)
Inductive Content :=
| CAbsent
| CStr (s : string)
| CParts (parts : list Part).

(** An entry of [tool_calls]:
    [{"id": .., "type": "function", "function": {"name": .., "arguments": ..}}]. *)
Record ToolCall := {
  tc_id : string;
  tc_name : string;
  tc_arguments : string;
}.

(** A message dict.  [tool_calls] is the empty list when the key is absent
    ([msg.get("tool_calls", [])]; the loop sets the key only to a non-empty
    list), [tool_call_id] is [None] when the key is absent. *)
Record Message := {
  role : string;
  content : Content;
  tool_calls : list ToolCall;
  tool_call_id : option string;
}.

#[global] Instance PartDict_eq_dec : EqDecision PartDict.
Proof. solve_decision. Defined.
#[global] Instance Part_eq_dec : EqDecision Part.
Proof. solve_decision. Defined.
#[global] Instance Content_eq_dec : EqDecision Content.
Proof. solve_decision. Defined.
#[global] Instance ToolCall_eq_dec : EqDecision ToolCall.
Proof. solve_decision. Defined.
#[global] Instance Message_eq_dec : EqDecision Message.
Proof. solve_decision. Defined.

(** [{**msg, "content": c}] *)
Definition with_content (msg : Message) (c : Content) : Message :=
  {| role := role msg; content := c;
     tool_calls := tool_calls msg; tool_call_id := tool_call_id msg |}.

(** [{**part, "cache_control": cc}] *)
Definition with_cache_control (d : PartDict) (cc : string) : PartDict :=
  {| ptype := ptype d; ptext := ptext d;
     cache_control := Some cc; payload := payload d |}.

Definition text_part (t : string) : PartDict :=
  {| ptype := Some "text"; ptext := Some t;
     cache_control := None; payload := "" |}.

(** ** Constants *)

Definition APPROX_CHARS_PER_TOKEN : Z := 4.
Definition MODEL_CONTEXT_LIMIT : Z := 200000.
Definition OUTPUT_TOKEN_MAX : Z := 32000.
Definition AUTO_COMPACT_THRESHOLD : Q := 6 # 10.
Definition SUMMARY_TOKEN_ESTIMATE : Z := 4096.
Definition PRUNE_PROTECT : Z := 40000.
Definition PRUNE_MINIMUM : Z := 20000.
Definition PRUNE_MARKER : string := "[Old tool result content cleared]".
Definition MAX_IMAGES_PER_REQUEST : Z := 100.
Definition IMAGE_PRUNE_TARGET : Z := 10.
Definition IMAGE_PRUNE_MARKER : string := "[Old image content cleared]".
Definition PROTECTED_MESSAGE_COUNT : nat := 2.

(** ** Token estimation *)

(** [max(0, len(text or "") // APPROX_CHARS_PER_TOKEN)] *)
Definition estimate_tokens (text : string) : Z :=
  Z.max 0 (Z.of_nat (String.length text) / APPROX_CHARS_PER_TOKEN).

Definition or_empty (t : option string) : string := default "" t.

(** The loop over [content] when it is a list: the [text] of every dict
    part, and 1000 for a part whose [type] is ["image_url"]. *)
Definition estimate_part_tokens (part : Part) : Z :=
  match part with
  | PDict d =>
      estimate_tokens (or_empty (ptext d))
      + (if decide (ptype d = Some "image_url") then 1000 else 0)
  | PRaw _ => 0
  end.

Definition sum_list_Z (l : list Z) : Z := foldr Z.add 0 l.

Definition estimate_content_tokens (c : Content) : Z :=
  match c with
  | CStr s => estimate_tokens s
  | CParts parts => sum_list_Z (estimate_part_tokens <$> parts)
  | CAbsent => 0
  end.

Definition estimate_tool_call_tokens (tc : ToolCall) : Z :=
  estimate_tokens (tc_name tc) + estimate_tokens (tc_arguments tc).

Definition estimate_message_tokens (msg : Message) : Z :=
  estimate_content_tokens (content msg)
  + sum_list_Z (estimate_tool_call_tokens <$> tool_calls msg)
  + 4.

Definition estimate_total_tokens (messages : list Message) : Z :=
  sum_list_Z (estimate_message_tokens <$> messages).

(** ** Overflow detection *)

Definition get_usable_context : Z := MODEL_CONTEXT_LIMIT - OUTPUT_TOKEN_MAX.

(** [total_tokens > usable * threshold].  The product is a float in the
    source; it is the exact rational here.  At the default threshold the
    double product [168000 * 0.6] is exactly [100800.0]. *)
Definition is_overflow (total_tokens : Z) (threshold : Q) : bool :=
  negb (Qle_bool (inject_Z total_tokens) (inject_Z get_usable_context * threshold)).

Definition needs_compaction (messages : list Message) : bool :=
  is_overflow (estimate_total_tokens messages) AUTO_COMPACT_THRESHOLD.

(** ** Tool-output pruning *)

(** [estimate_tokens(content)] for the [content] of a tool message, which
    the code passes on whatever it is: [len] of a list is its number of
    parts. *)
Definition estimate_content_len (c : Content) : Z :=
  match c with
  | CStr s => estimate_tokens s
  | CParts parts => Z.max 0 (Z.of_nat (length parts) / APPROX_CHARS_PER_TOKEN)
  | CAbsent => estimate_tokens ""
  end.

(** The four locals of the backward scan. *)
Record ScanState := {
  total : Z;
  pruned : Z;
  to_prune : list nat;
  turns : Z;
}.

Definition scan_init : ScanState :=
  {| total := 0; pruned := 0; to_prune := []; turns := 0 |}.

(** [for msg_index in range(len(messages) - 1, -1, -1)], started with
    [n = len(messages)]: the body runs at [msg_index = n - 1] and the loop
    goes on with [n - 1], or stops at [break]. *)
Fixpoint prune_scan (messages : list Message) (protect_last_turns : Z)
    (n : nat) (st : ScanState) : ScanState :=
  match n with
  | O => st
  | S msg_index =>
      match messages !! msg_index with
      | None => st
      | Some msg =>
          let turns' :=
            if decide (role msg = "user") then turns st + 1 else turns st in
          let st := {| total := total st; pruned := pruned st;
                       to_prune := to_prune st; turns := turns' |} in
          if decide (turns' < protect_last_turns) then
            prune_scan messages protect_last_turns msg_index st
          else if decide (role msg = "tool") then
            if decide (content msg = CStr PRUNE_MARKER) then st
            else
              let estimate := estimate_content_len (content msg) in
              let total' := total st + estimate in
              let st :=
                if decide (total' > PRUNE_PROTECT) then
                  {| total := total'; pruned := pruned st + estimate;
                     to_prune := to_prune st ++ [msg_index]; turns := turns' |}
                else
                  {| total := total'; pruned := pruned st;
                     to_prune := to_prune st; turns := turns' |} in
              prune_scan messages protect_last_turns msg_index st
          else prune_scan messages protect_last_turns msg_index st
      end
  end.

Definition prune_old_tool_outputs (messages : list Message)
    (protect_last_turns : Z) : list Message :=
  match messages with
  | [] => messages
  | _ =>
      let st := prune_scan messages protect_last_turns (length messages) scan_init in
      if decide (pruned st <= PRUNE_MINIMUM) then messages
      else
        let indices_to_prune : gset nat := list_to_set (to_prune st) in
        imap (λ i msg,
                if decide (i ∈ indices_to_prune)
                then with_content msg (CStr PRUNE_MARKER)
                else msg) messages
  end.

(** The recoverable total of one call: the [pruned] counter after the scan. *)
Definition recoverable_tokens (messages : list Message)
    (protect_last_turns : Z) : Z :=
  pruned (prune_scan messages protect_last_turns (length messages) scan_init).

(** ** Image pruning *)

Definition is_image_part (part : Part) : bool :=
  match part with
  | PDict d =>
      bool_decide (ptype d = Some "image_url") || bool_decide (ptype d = Some "image")
  | PRaw _ => false
  end.

Definition count_images_in_parts (parts : list Part) : Z :=
  sum_list_Z ((λ part, if is_image_part part then 1 else 0) <$> parts).

Definition count_images_in_message (msg : Message) : Z :=
  match content msg with
  | CParts parts => count_images_in_parts parts
  | _ => 0
  end.

Definition count_total_images (messages : list Message) : Z :=
  sum_list_Z (count_images_in_message <$> messages).

(** [for i in range(image_msg_index + 1, len(messages))]: is there an
    assistant message strictly after position [image_msg_index]. *)
Definition is_image_analyzed (messages : list Message)
    (image_msg_index : nat) : bool :=
  existsb (λ msg, bool_decide (role msg = "assistant"))
          (drop (S image_msg_index) messages).

(** An entry [(i, analyzed, img_count)] of [image_msg_indices]. *)
Definition ImageEntry : Type := nat * bool * Z.

(** [for i, msg in enumerate(messages)] that collects the entries of the
    messages with images; [start] is the position of the head. *)
Fixpoint image_entries_from (analyzed : nat → bool) (start : nat)
    (messages : list Message) : list ImageEntry :=
  match messages with
  | [] => []
  | msg :: rest =>
      let img_count := count_images_in_message msg in
      (if decide (img_count > 0) then [(start, analyzed start, img_count)] else [])
      ++ image_entries_from analyzed (S start) rest
  end.

Definition image_msg_indices (messages : list Message) : list ImageEntry :=
  image_entries_from (is_image_analyzed messages) 0 messages.

(** The two locals the removal passes update. *)
Record RemovalState := {
  indices_to_prune : gset nat;
  removed : Z;
}.

(** Pass 1: analyzed images, oldest first. *)
Fixpoint remove_analyzed (entries : list ImageEntry) (images_to_remove : Z)
    (st : RemovalState) : RemovalState :=
  match entries with
  | [] => st
  | (msg_idx, analyzed, img_count) :: rest =>
      if decide (removed st >= images_to_remove) then st
      else if analyzed then
        remove_analyzed rest images_to_remove
          {| indices_to_prune := {[msg_idx]} ∪ indices_to_prune st;
             removed := removed st + img_count |}
      else remove_analyzed rest images_to_remove st
  end.

(** Pass 2: unanalyzed images that pass 1 left. *)
Fixpoint remove_unanalyzed (entries : list ImageEntry) (images_to_remove : Z)
    (st : RemovalState) : RemovalState :=
  match entries with
  | [] => st
  | (msg_idx, analyzed, img_count) :: rest =>
      if decide (removed st >= images_to_remove) then st
      else if negb analyzed && bool_decide (msg_idx ∉ indices_to_prune st) then
        remove_unanalyzed rest images_to_remove
          {| indices_to_prune := {[msg_idx]} ∪ indices_to_prune st;
             removed := removed st + img_count |}
      else remove_unanalyzed rest images_to_remove st
  end.

(** The removal list of [prune_old_images], for a transcript over
    [max_images]. *)
Definition select_images_to_prune (messages : list Message)
    (max_images : Z) : RemovalState :=
  let total_images := count_total_images messages in
  let entries := image_msg_indices messages in
  let images_to_remove := total_images - max_images in
  let over_hard_limit := bool_decide (total_images > MAX_IMAGES_PER_REQUEST) in
  let images_to_remove :=
    if over_hard_limit then
      let hard_limit_target := MAX_IMAGES_PER_REQUEST - 5 in
      Z.max images_to_remove (total_images - hard_limit_target)
    else images_to_remove in
  let st := remove_analyzed entries images_to_remove
              {| indices_to_prune := ∅; removed := 0 |} in
  if bool_decide (removed st < images_to_remove) && over_hard_limit then
    remove_unanalyzed entries images_to_remove st
  else st.

(** The placeholder that takes the place of an image part. *)
Definition clear_image_part (part : Part) : Part :=
  if is_image_part part then PDict (text_part IMAGE_PRUNE_MARKER) else part.

Definition clear_images (msg : Message) : Message :=
  match content msg with
  | CParts parts => with_content msg (CParts (clear_image_part <$> parts))
  | _ => msg
  end.

Definition prune_old_images (messages : list Message)
    (max_images : Z) : list Message :=
  let total_images := count_total_images messages in
  if decide (total_images <= max_images) then messages
  else
    let st := select_images_to_prune messages max_images in
    if decide (indices_to_prune st = ∅) then messages
    else
      imap (λ i msg,
              if decide (i ∈ indices_to_prune st) then clear_images msg else msg)
           messages.

(** ** Cache breakpoints *)

Definition part_has_cache (part : Part) : bool :=
  match part with
  | PDict d => bool_decide (is_Some (cache_control d))
  | PRaw _ => false
  end.

(** [isinstance(part, dict) and part.get("type") == "text" and part.get("text")] *)
Definition is_nonempty_text_part (part : Part) : bool :=
  match part with
  | PDict d =>
      bool_decide (ptype d = Some "text")
      && bool_decide (ptext d ≠ None ∧ ptext d ≠ Some "")
  | PRaw _ => false
  end.

(** [for i in range(len(new_content) - 1, -1, -1)] with its [break], started
    with [n = len(new_content)]. *)
Fixpoint mark_last_text_part (new_content : list Part) (cc : string)
    (n : nat) : list Part :=
  match n with
  | O => new_content
  | S i =>
      match new_content !! i with
      | Some (PDict d as part) =>
          if is_nonempty_text_part part
          then <[i := PDict (with_cache_control d cc)]> new_content
          else mark_last_text_part new_content cc i
      | _ => mark_last_text_part new_content cc i
      end
  end.

Definition _add_cache_control_to_message (msg : Message) (cc : string) : Message :=
  match content msg with
  | CParts parts =>
      if existsb part_has_cache parts then msg
      else with_content msg (CParts (mark_last_text_part parts cc (length parts)))
  | CStr s =>
      if decide (s = "") then msg
      else with_content msg (CParts [PDict (with_cache_control (text_part s) cc)])
  | CAbsent => msg
  end.

(** [for i, msg in enumerate(messages)] that collects the positions of the
    messages that satisfy [p]; [start] is the position of the head. *)
Fixpoint indices_where_from (p : Message → bool) (start : nat)
    (messages : list Message) : list nat :=
  match messages with
  | [] => []
  | msg :: rest =>
      (if p msg then [start] else []) ++ indices_where_from p (S start) rest
  end.

Definition indices_where (p : Message → bool) (messages : list Message) : list nat :=
  indices_where_from p 0 messages.

Definition is_system (msg : Message) : bool := bool_decide (role msg = "system").

Definition system_indices (messages : list Message) : list nat :=
  indices_where is_system messages.

Definition non_system_indices (messages : list Message) : list nat :=
  indices_where (λ msg, negb (is_system msg)) messages.

(** [l[-2:]] *)
Definition last_two {A} (l : list A) : list A := drop (length l - 2)%nat l.

Definition indices_to_cache (messages : list Message) : gset nat :=
  list_to_set (take 2 (system_indices messages))
  ∪ list_to_set (last_two (non_system_indices messages)).

(** [{"type": "ephemeral"}] *)
Definition ephemeral : string := "ephemeral".

Definition _apply_caching (messages : list Message) (enabled : bool) : list Message :=
  if negb enabled || bool_decide (messages = []) then messages
  else
    imap (λ i msg,
            if decide (i ∈ indices_to_cache messages)
            then _add_cache_control_to_message msg ephemeral
            else msg) messages.

(** ** Collaborators

    The LLM transport, the tool registry and the agent context are outside
    the two modules.  They are functions on a state of the outside world
    [W], so that the same request can be answered differently from one call
    to the next. *)

(** [FunctionCall]: [arguments] is the JSON text of the argument dict. *)
Record FunctionCall := {
  fc_id : string;
  fc_name : string;
  fc_arguments : string;
}.

(** [LLMResponse], the fields the loop reads.  [tokens] is
    [(input, output, cached)]. *)
Record LLMResponse := {
  text : string;
  function_calls : list FunctionCall;
  tokens : option (Z * Z * Z);
  cost : Q;
}.

(** What [llm.chat] can raise: the two exception classes of
    [src/llm/client.py] and any other [Exception]. *)
Inductive ChatError :=
| CostLimitExceeded (message : string)
| LLMError (code message : string)
| OtherException (message : string).

Inductive ChatOutcome :=
| Returned (response : LLMResponse)
| Raised (e : ChatError).

(** [ToolResult] of the registry, the fields the loop reads; [to_message]
    is the value of [result.to_message()]. *)
Record ToolResult := {
  success : bool;
  to_message : string;
  invalid_param : bool;
  error : option string;
  inject_content : option Part;
}.

Record Env (W : Type) := {
  (** [llm.chat(messages, ...)]; the tool schema and the token limit of
      the request do not enter any decision of the two modules. *)
  chat : list Message → W → ChatOutcome * W;
  (** [tools.execute(ctx, tool_name, tool_args)] *)
  execute : string → string → W → ToolResult * W;
  (** [ctx.shell(cmd).output] *)
  shell : string → W → string * W;
  (** [ctx.instruction] *)
  instruction : string;
  (** [get_system_prompt(cwd=cwd)] *)
  get_system_prompt : string;
  (** [middle_out_truncate(text, max_tokens=n)] of [src/utils/truncate] *)
  middle_out_truncate : string → Z → string;
  (** the four [str.format] templates of [src/prompts/templates.py] *)
  verification_prompt : string → string;
  verification_confirmation : string → string → string;
  tool_invalid_guidance : string → string → string;
  tool_failure_guidance : string → string;
  (** [str(content)] of a [content] that is a list of parts *)
  str_parts : list Part → string;
}.

Arguments chat {W}.
Arguments execute {W}.
Arguments shell {W}.
Arguments instruction {W}.
Arguments get_system_prompt {W}.
Arguments middle_out_truncate {W}.
Arguments verification_prompt {W}.
Arguments verification_confirmation {W}.
Arguments tool_invalid_guidance {W}.
Arguments tool_failure_guidance {W}.
Arguments str_parts {W}.

(** ** AI compaction *)

Definition COMPACTION_PROMPT : string :=
"You are performing a CONTEXT CHECKPOINT COMPACTION. Create a handoff summary for another LLM that will resume the task.

Include:
- Current progress and key decisions made
- Important context, constraints, or user preferences
- What remains to be done (clear next steps)
- Any critical data, examples, or references needed to continue
- Which files were modified and how
- Any errors encountered and how they were resolved

Be concise, structured, and focused on helping the next LLM seamlessly continue the work. Use bullet points and clear sections.".

Definition SUMMARY_PREFIX : string :=
"Another language model started to solve this problem and produced a summary of its thinking process. You also have access to the state of the tools that were used. Use this to build on the work that has already been done and avoid duplicating work.

Here is the summary from the previous context:

".

Definition user_message (c : Content) : Message :=
  {| role := "user"; content := c; tool_calls := []; tool_call_id := None |}.

Definition is_assistant (msg : Message) : bool :=
  bool_decide (role msg = "assistant").

(** The loop [for k in range(len(assistant_indices) - 1)] over the
    candidate starts, with its early [return]. *)
Fixpoint find_keep_start (messages : list Message) (max_kept_tokens : Z)
    (candidates : list nat) : option nat :=
  match candidates with
  | [] => None
  | start :: rest =>
      let keep_messages := drop start messages in
      let keep_tokens := estimate_total_tokens keep_messages in
      if decide (keep_tokens <= max_kept_tokens) then Some start
      else find_keep_start messages max_kept_tokens rest
  end.

(** [list(range(PROTECTED_MESSAGE_COUNT, start))] *)
Definition range_from_protected (start : nat) : list nat :=
  seq PROTECTED_MESSAGE_COUNT (start - PROTECTED_MESSAGE_COUNT).

Definition _find_messages_to_compact (messages : list Message)
    (target_tokens : Z) : list nat :=
  let protected_messages := take PROTECTED_MESSAGE_COUNT messages in
  let compactable := drop PROTECTED_MESSAGE_COUNT messages in
  let protected_tokens := estimate_total_tokens protected_messages in
  let compactable_tokens := estimate_total_tokens compactable in
  let total_tokens := protected_tokens + compactable_tokens in
  if decide (total_tokens <= target_tokens) then []
  else
    let max_kept_tokens := target_tokens - protected_tokens - SUMMARY_TOKEN_ESTIMATE in
    let assistant_indices :=
      (λ i, PROTECTED_MESSAGE_COUNT + i)%nat <$> indices_where is_assistant compactable in
    if decide (length assistant_indices < 2)%nat then []
    else
      match find_keep_start messages max_kept_tokens
              (take (length assistant_indices - 1) assistant_indices) with
      | Some start => range_from_protected start
      | None =>
          match assistant_indices !! (length assistant_indices - 2)%nat with
          | Some last_valid_start => range_from_protected last_valid_start
          | None => []
          end
      end.

(** The ids of all tool calls of assistant messages; an empty id is left
    out ([if tc_id]). *)
Definition valid_tool_call_ids (messages : list Message) : gset string :=
  list_to_set
    (messages ≫= λ msg,
       if decide (role msg = "assistant")
       then filter (λ tc_id, tc_id ≠ "") (tc_id <$> tool_calls msg)
       else []).

(** Truth value of a [content]: a non-empty string or a non-empty list. *)
Definition content_truthy (c : Content) : bool :=
  match c with
  | CAbsent => false
  | CStr s => bool_decide (s ≠ "")
  | CParts parts => bool_decide (parts ≠ [])
  end.

Definition newline : string := String (Ascii.ascii_of_nat 10) EmptyString.

Section Compaction.
Context {W : Type} (env : Env W).

(** [f"{content}"] for a content that is truthy. *)
Definition str_content (c : Content) : string :=
  match c with
  | CAbsent => "None"
  | CStr s => s
  | CParts parts => str_parts env parts
  end.

(** What one message becomes in the filtering pass of
    [_remove_orphaned_tool_messages]: itself, a user message or nothing. *)
Definition repair_message (valid_ids : gset string) (msg : Message) : list Message :=
  if decide (role msg = "tool") then
    match tool_call_id msg with
    | Some tool_call_id =>
        if decide (tool_call_id ≠ "" ∧ tool_call_id ∉ valid_ids) then
          if content_truthy (content msg)
             && bool_decide (content msg ≠ CStr PRUNE_MARKER)
          then [user_message
                  (CStr ("[Previous tool output]" +:+ newline +:+ str_content (content msg)))]
          else []
        else [msg]
    | None => [msg]
    end
  else [msg].

Definition _remove_orphaned_tool_messages (messages : list Message) : list Message :=
  messages ≫= repair_message (valid_tool_call_ids messages).

(** The synthetic user message that wraps the summary. *)
Definition summary_message (summary : string) : Message :=
  user_message (CStr (SUMMARY_PREFIX +:+ summary)).

(** [int(usable * 0.45)], which is 75600 in double arithmetic as well. *)
Definition default_target_tokens : Z :=
  Qfloor (inject_Z get_usable_context * (45 # 100)).

(** The request [run_compaction] sends for a non-empty [compact_ids]. *)
Definition compaction_request (messages : list Message) (compact_ids : list nat)
    : list Message :=
  let messages_to_compact := omap (λ i, messages !! i) compact_ids in
  let messages_to_compact := _remove_orphaned_tool_messages messages_to_compact in
  messages_to_compact ++ [user_message (CStr COMPACTION_PROMPT)].

(** [try: ... except Exception: return messages] around the nested call:
    every [ChatError] is an [Exception]. *)
Definition run_compaction (messages : list Message) (system_prompt : string)
    (target_tokens : option Z) (w : W) : list Message * W :=
  let target_tokens := default default_target_tokens target_tokens in
  let compact_ids := _find_messages_to_compact messages target_tokens in
  match compact_ids with
  | [] => (messages, w)
  | _ =>
      let compacted_set : gset nat := list_to_set compact_ids in
      let protected_messages := take PROTECTED_MESSAGE_COUNT messages in
      let messages_to_keep :=
        omap (λ i, messages !! i)
             (filter (λ i, i ∉ compacted_set)
                     (seq PROTECTED_MESSAGE_COUNT
                          (length messages - PROTECTED_MESSAGE_COUNT))) in
      let compaction_messages := compaction_request messages compact_ids in
      match chat env compaction_messages w with
      | (Returned response, w) =>
          let summary := text response in
          if decide (summary = "") then (messages, w)
          else
            let compacted :=
              protected_messages ++ [summary_message summary] ++ messages_to_keep in
            (_remove_orphaned_tool_messages compacted, w)
      | (Raised e, w) => (messages, w)
      end
  end.

(** ** Context manager *)

Definition manage_context (messages : list Message) (system_prompt : string)
    (force_compaction : bool) (w : W) : list Message * W :=
  let total_images := count_total_images messages in
  let messages :=
    if decide (total_images > IMAGE_PRUNE_TARGET)
    then prune_old_images messages IMAGE_PRUNE_TARGET
    else messages in
  let total_tokens := estimate_total_tokens messages in
  if negb force_compaction && negb (is_overflow total_tokens AUTO_COMPACT_THRESHOLD)
  then (messages, w)
  else
    let pruned := prune_old_tool_outputs messages 2 in
    let pruned_tokens := estimate_total_tokens pruned in
    if negb (is_overflow pruned_tokens AUTO_COMPACT_THRESHOLD) && negb force_compaction
    then (pruned, w)
    else run_compaction pruned system_prompt None w.

End Compaction.

(** ** Turn-control loop *)

(** [verification_phase]: [None], ["first"] or ["confirmation"]. *)
Inductive VerificationPhase :=
| PhaseNone
| PhaseFirst
| PhaseConfirmation.

(** The items and events of [src/output/jsonl] that the loop emits.  An
    item id is the value of the session's item counter. *)
Inductive Item :=
| agent_message_item (item_id : nat) (message : string)
| command_execution_item (item_id : nat) (command status : string)
    (aggregated_output : option string) (exit_code : option Z).

Inductive Event :=
| ThreadStartedEvent
| TurnStartedEvent
| TurnCompletedEvent (input_tokens cached_input_tokens output_tokens : Z)
| TurnFailedEvent (message : string)
| ItemStartedEvent (item : Item)
| ItemCompletedEvent (item : Item).

(** What a run does to the outside, in order, besides its calls to the
    transport and to the tools. *)
Inductive Effect :=
| Emit (e : Event)
| Sleep (seconds : Z)
| Done.

Record Config := {
  max_iterations : Z;
  cache_enabled : bool;
  cost_limit : Q;
  max_output_tokens : Z;
}.

(** The locals of [run_agent_loop] that are read again after they are
    written.  ([last_agent_message], [pending_completion] and
    [verification_result] are never read in a later iteration, and
    [concequtive_failed_attempts] is only logged.) *)
Record LoopState := {
  messages : list Message;
  prev_messages : list Message;
  iteration : Z;
  total_cost : Q;
  total_input_tokens : Z;
  total_output_tokens : Z;
  total_cached_tokens : Z;
  verification_phase : VerificationPhase;
  item_counter : nat;
  trace : list Effect;
}.

Definition set_messages (st : LoopState) (ms : list Message) : LoopState :=
  {| messages := ms; prev_messages := prev_messages st;
     iteration := iteration st; total_cost := total_cost st;
     total_input_tokens := total_input_tokens st;
     total_output_tokens := total_output_tokens st;
     total_cached_tokens := total_cached_tokens st;
     verification_phase := verification_phase st;
     item_counter := item_counter st; trace := trace st |}.

Definition set_phase (st : LoopState) (phase : VerificationPhase) : LoopState :=
  {| messages := messages st; prev_messages := prev_messages st;
     iteration := iteration st; total_cost := total_cost st;
     total_input_tokens := total_input_tokens st;
     total_output_tokens := total_output_tokens st;
     total_cached_tokens := total_cached_tokens st;
     verification_phase := phase;
     item_counter := item_counter st; trace := trace st |}.

Definition next_iteration (st : LoopState) : LoopState :=
  {| messages := messages st; prev_messages := prev_messages st;
     iteration := iteration st + 1; total_cost := total_cost st;
     total_input_tokens := total_input_tokens st;
     total_output_tokens := total_output_tokens st;
     total_cached_tokens := total_cached_tokens st;
     verification_phase := verification_phase st;
     item_counter := item_counter st; trace := trace st |}.

(** [effects] happen, in this order. *)
Definition record (st : LoopState) (effects : list Effect) : LoopState :=
  {| messages := messages st; prev_messages := prev_messages st;
     iteration := iteration st; total_cost := total_cost st;
     total_input_tokens := total_input_tokens st;
     total_output_tokens := total_output_tokens st;
     total_cached_tokens := total_cached_tokens st;
     verification_phase := verification_phase st;
     item_counter := item_counter st; trace := trace st ++ effects |}.

(** [next_item_id()] *)
Definition next_item_id (st : LoopState) : nat * LoopState :=
  (S (item_counter st),
   {| messages := messages st; prev_messages := prev_messages st;
      iteration := iteration st; total_cost := total_cost st;
      total_input_tokens := total_input_tokens st;
      total_output_tokens := total_output_tokens st;
      total_cached_tokens := total_cached_tokens st;
      verification_phase := verification_phase st;
      item_counter := S (item_counter st); trace := trace st |}).

(** The bookkeeping after a call that returned: the snapshot, the cost and
    the token counters. *)
Definition account (st : LoopState) (response : LLMResponse) : LoopState :=
  let '(input, output, cached) := default (0, 0, 0) (tokens response) in
  {| messages := messages st; prev_messages := messages st;
     iteration := iteration st;
     total_cost := (total_cost st + cost response)%Q;
     total_input_tokens := total_input_tokens st + input;
     total_output_tokens := total_output_tokens st + output;
     total_cached_tokens := total_cached_tokens st + cached;
     verification_phase := verification_phase st;
     item_counter := item_counter st; trace := trace st |}.

(** [sub in s] *)
Definition contains (sub s : string) : bool :=
  bool_decide (is_Some (String.index 0 sub s)).

(** [s.lower()], on the ASCII letters. *)
Definition lower_ascii (c : Ascii.ascii) : Ascii.ascii :=
  let n := Ascii.nat_of_ascii c in
  if decide (65 ≤ n ≤ 90)%nat then Ascii.ascii_of_nat (n + 32) else c.

Fixpoint lower (s : string) : string :=
  match s with
  | EmptyString => EmptyString
  | String c rest => String (lower_ascii c) (lower rest)
  end.

(** An entry of [tool_results]. *)
Record ToolResultEntry := {
  tr_role : string;
  tr_tool_call_id : string;
  tr_content : string;
  tr_tool_name : string;
  tr_invalid : bool;
}.

(** An entry of [pending_images]. *)
Record PendingImage := {
  pi_tool_name : string;
  pi_content : Part;
}.

Definition tool_message (tool_result : ToolResultEntry) : Message :=
  {| role := tr_role tool_result;
     tool_call_id := Some (tr_tool_call_id tool_result);
     content := CStr (tr_content tool_result);
     tool_calls := [] |}.

Definition invalid_parameters_message (tool_result : ToolResultEntry) : Message :=
  user_message
    (CStr ("The tool '" +:+ tr_tool_name tool_result
           +:+ "' was called with invalid parameters. Please review the error above and return a corrected tool call with all required parameters properly specified.")).

(** The loop [for tool_result in tool_results] that appends to [messages]. *)
Definition append_tool_results (messages : list Message)
    (tool_results : list ToolResultEntry) : list Message :=
  foldl (λ messages tool_result,
           let messages := messages ++ [tool_message tool_result] in
           if tr_invalid tool_result
           then messages ++ [invalid_parameters_message tool_result]
           else messages)
        messages tool_results.

Definition tool_call_of (call : FunctionCall) : ToolCall :=
  {| tc_id := fc_id call; tc_name := fc_name call;
     tc_arguments := fc_arguments call |}.

Definition assistant_message (response_text : string)
    (calls : list FunctionCall) : Message :=
  {| role := "assistant"; content := CStr response_text;
     tool_calls := tool_call_of <$> calls; tool_call_id := None |}.

Definition MAX_IMAGES_PER_TURN : nat := 5.

(** The parts of the trailing user message that carries the images. *)
Definition image_content (images_to_add : list PendingImage) : list Part :=
  images_to_add ≫= λ img,
    [PDict (text_part ("Image from " +:+ pi_tool_name img +:+ ":")); pi_content img].

(** How an iteration of the [while] loop ends. *)
Inductive Control :=
| Continue
| Break
| Return.

(** How the retry loop ends: with a response, or with the exception that
    leaves the [try] block. *)
Inductive Attempted :=
| Responded (response : LLMResponse)
| Failed (e : ChatError).

Definition max_retries : Z := 5.

Section Loop.
Context {W : Type} (env : Env W) (config : Config).

(** [for attempt in range(1, max_retries + 1)], called with the number of
    attempts that remain after this one: [attempt < max_retries] exactly
    when some remain. *)
Fixpoint call_with_retry (remaining : nat) (cached_messages : list Message)
    (st : LoopState) (w : W) : Attempted * LoopState * W :=
  let attempt := max_retries - Z.of_nat remaining in
  let '(outcome, w) := chat env cached_messages w in
  match outcome with
  | Returned response => (Responded response, account st response, w)
  | Raised (CostLimitExceeded message as e) => (Failed e, st, w)
  | Raised (LLMError code error_msg as e) =>
      if bool_decide (code = "authentication_error")
         || bool_decide (code = "invalid_api_key")
      then (Failed e, st, w)
      else
        let '(st, cached_messages) :=
          if contains "BadRequestError" error_msg then
            let st := set_messages st (prev_messages st) in
            (st, _apply_caching (messages st) (cache_enabled config))
          else (st, cached_messages) in
        match remaining with
        | S remaining =>
            let wait_time := 2 * attempt in
            call_with_retry remaining cached_messages (record st [Sleep wait_time]) w
        | O => (Failed e, st, w)
        end
  | Raised (OtherException error_msg as e) =>
      match remaining with
      | S remaining =>
          let wait_time := 2 * attempt in
          call_with_retry remaining cached_messages (record st [Sleep wait_time]) w
      | O => (Failed e, st, w)
      end
  end.

(** One pass of [for call in response.function_calls] that executes the
    tools and collects [tool_results] and [pending_images]. *)
Fixpoint execute_calls (calls : list FunctionCall)
    (tool_results : list ToolResultEntry) (pending_images : list PendingImage)
    (st : LoopState) (w : W)
    : list ToolResultEntry * list PendingImage * LoopState * W :=
  match calls with
  | [] => (tool_results, pending_images, st, w)
  | call :: calls =>
      let tool_name := fc_name call in
      let tool_args := fc_arguments call in
      let '(item_id, st) := next_item_id st in
      let st := record st
        [Emit (ItemStartedEvent
                 (command_execution_item item_id
                    (tool_name +:+ "(" +:+ tool_args +:+ ")") "in_progress" None None))] in
      let '(result, w) := execute env tool_name tool_args w in
      let raw_output := to_message result in
      let raw_output :=
        if invalid_param result then
          let error_details := default "Invalid parameters provided"
                                 (match error result with
                                  | Some "" => None
                                  | e => e
                                  end) in
          raw_output +:+ tool_invalid_guidance env tool_name error_details
        else if negb (success result) then
          raw_output +:+ tool_failure_guidance env tool_name
        else raw_output in
      let output :=
        middle_out_truncate env
          (if decide (raw_output = "") then "no output" else raw_output)
          (max_output_tokens config) in
      let st := record st
        [Emit (ItemCompletedEvent
                 (command_execution_item item_id tool_name
                    (if success result then "completed" else "failed")
                    (Some output)
                    (Some (if success result then 0 else 1))))] in
      let tool_results := tool_results ++
        [{| tr_role := "tool"; tr_tool_call_id := fc_id call;
            tr_content := output; tr_tool_name := tool_name;
            tr_invalid := invalid_param result |}] in
      let pending_images :=
        match inject_content result with
        | Some part => pending_images ++
            [{| pi_tool_name := tool_name; pi_content := part |}]
        | None => pending_images
        end in
      execute_calls calls tool_results pending_images st w
  end.

Definition cost_limit_reached (st : LoopState) : bool :=
  Qle_bool (cost_limit config) (total_cost st).

(** The branch of a response without tool calls: the verification
    workflow. *)
Definition no_tool_calls (response_text : string) (st : LoopState)
    : Control * LoopState :=
  if cost_limit_reached st then (Break, st)
  else
    match verification_phase st with
    | PhaseConfirmation =>
        if contains "task incomplete" (lower response_text) then
          let st := set_phase st PhaseNone in
          (Continue,
           set_messages st
             (messages st ++
              [assistant_message response_text [];
               user_message (CStr "The task is incomplete. Please use the appropriate tools to complete the task. Address any missing verifications, unmet requirements, or unresolved issues you identified, then continue working until the task is done.")]))
        else (Break, st)
    | PhaseFirst =>
        let verification_result := response_text in
        let st := set_phase st PhaseConfirmation in
        (Continue,
         set_messages st
           (messages st ++
            [assistant_message response_text [];
             user_message
               (CStr (verification_confirmation env (instruction env) verification_result))]))
    | PhaseNone =>
        let st := set_phase st PhaseFirst in
        (Continue,
         set_messages st
           (messages st ++
            [assistant_message response_text [];
             user_message (CStr (verification_prompt env (instruction env)))]))
    end.

(** The branch of a response with tool calls. *)
Definition with_tool_calls (response_text : string) (calls : list FunctionCall)
    (st : LoopState) (w : W) : Control * LoopState * W :=
  let assistant_msg := assistant_message response_text calls in
  let st := set_messages st (messages st ++ [assistant_msg]) in
  let '(tool_results, pending_images, st, w) := execute_calls calls [] [] st w in
  let st := set_messages st (append_tool_results (messages st) tool_results) in
  if cost_limit_reached st then (Break, st, w)
  else
    match pending_images with
    | [] => (Continue, st, w)
    | _ =>
        let images_to_add := take MAX_IMAGES_PER_TURN pending_images in
        let st := set_messages st
          (messages st ++ [user_message (CParts (image_content images_to_add))]) in
        let total_imgs := count_total_images (messages st) in
        if decide (total_imgs > MAX_IMAGES_PER_REQUEST - 10)
        then (Continue, set_messages st (prune_old_images (messages st) IMAGE_PRUNE_TARGET), w)
        else (Continue, st, w)
    end.

(** The body of [while iteration < max_iterations]. *)
Definition loop_body (st : LoopState) (w : W) : Control * LoopState * W :=
  let st := next_iteration st in
  let '(context_messages, w) :=
    manage_context env (messages st) (get_system_prompt env) false w in
  let st :=
    if decide (length context_messages < length (messages st))%nat
    then set_messages st context_messages
    else st in
  let cached_messages := _apply_caching context_messages (cache_enabled config) in
  let '(attempted, st, w) :=
    call_with_retry (Z.to_nat max_retries - 1) cached_messages st w in
  match attempted with
  | Failed (CostLimitExceeded message) =>
      (Return,
       record st [Emit (TurnFailedEvent ("Cost limit exceeded: " +:+ message)); Done],
       w)
  | Failed (LLMError code message) =>
      (Continue, record st [Emit (TurnFailedEvent message)], w)
  | Failed (OtherException message) =>
      (Continue, record st [Emit (TurnFailedEvent message)], w)
  | Responded response =>
      let response_text := text response in
      let st :=
        if decide (response_text = "") then st
        else
          let '(item_id, st) := next_item_id st in
          record st [Emit (ItemCompletedEvent (agent_message_item item_id response_text))] in
      match function_calls response with
      | [] =>
          let '(control, st) := no_tool_calls response_text st in
          (control, st, w)
      | calls => with_tool_calls response_text calls st w
      end
  end.

(** [while iteration < max_iterations], called with
    [max_iterations - iteration] as [remaining].  The result says whether
    the function returned from inside the loop. *)
Fixpoint iterate (remaining : nat) (st : LoopState) (w : W)
    : bool * LoopState * W :=
  match remaining with
  | O => (false, st, w)
  | S remaining =>
      match loop_body st w with
      | (Continue, st, w) => iterate remaining st w
      | (Break, st, w) => (false, st, w)
      | (Return, st, w) => (true, st, w)
      end
  end.

Definition initial_state (w : W) : LoopState * W :=
  let system_prompt := get_system_prompt env in
  let '(initial_output, w) := shell env "pwd && ls -la" w in
  let initial_state := middle_out_truncate env initial_output (max_output_tokens config) in
  let messages :=
    [ {| role := "system"; content := CStr system_prompt;
         tool_calls := []; tool_call_id := None |};
      user_message (CStr (instruction env));
      user_message
        (CStr ("Current directory and files:" +:+ newline +:+ "```" +:+ newline
               +:+ initial_state +:+ newline +:+ "```")) ] in
  ({| messages := messages; prev_messages := messages;
      iteration := 0; total_cost := 0%Q;
      total_input_tokens := 0; total_output_tokens := 0; total_cached_tokens := 0;
      verification_phase := PhaseNone;
      item_counter := O;
      trace := [Emit ThreadStartedEvent; Emit TurnStartedEvent] |}, w).

Definition run_agent_loop (w : W) : LoopState * W :=
  let '(st, w) := initial_state w in
  let '(returned, st, w) := iterate (Z.to_nat (max_iterations config)) st w in
  if returned then (st, w)
  else
    (record st
       [Emit (TurnCompletedEvent (total_input_tokens st) (total_cached_tokens st)
                (total_output_tokens st));
        Done], w).

End Loop.

(** ** Notions used in the statements *)

(** The nested summarization call failed: it raised, or it returned an
    empty text. *)
Definition summarization_failed (outcome : ChatOutcome) : Prop :=
  match outcome with
  | Raised _ => True
  | Returned response => text response = ""
  end.

(** The transport raises the same [LLMError] whatever it is sent. *)
Definition always_raises {W} (env : Env W) (code message : string) : Prop :=
  ∀ messages w, (chat env messages w).1 = Raised (LLMError code message).

(** The images of the entries whose message is in [selected]: what the
    counter [removed] stands for. *)
Definition selected_images (selected : gset nat) (entries : list ImageEntry) : Z :=
  sum_list_Z ((λ '(msg_idx, _, img_count),
                 if decide (msg_idx ∈ selected) then img_count else 0) <$> entries).

(** [removed] counts the images of the selected messages of [all]. *)
Definition removal_consistent (all : list ImageEntry) (st : RemovalState) : Prop :=
  removed st = selected_images (indices_to_prune st) all.

(** A message carries a cache annotation: its [content] is a list with a
    dict part that has the key [cache_control] (the test [has_cache] of
    [_add_cache_control_to_message]). *)
Definition has_cache_annotation (msg : Message) : bool :=
  match content msg with
  | CParts parts => existsb part_has_cache parts
  | _ => false
  end.

(** A message an annotation can be attached to: its [content] is a
    non-empty string, or a list with a non-empty text part. *)
Definition can_annotate (msg : Message) : bool :=
  match content msg with
  | CStr s => bool_decide (s ≠ "")
  | CParts parts => existsb is_nonempty_text_part parts
  | CAbsent => false
  end.

(** The position [i] of [msg] is a cache breakpoint of the transcript:
    [msg] is one of the first two system messages, or one of the last two
    messages of another role. *)
Definition breakpoint_position (messages : list Message) (i : nat)
    (msg : Message) : Prop :=
  (role msg = "system"
   ∧ (length (filter (λ m, role m = "system") (take i messages)) < 2)%nat)
  ∨ (role msg ≠ "system"
     ∧ (length (filter (λ m, role m ≠ "system") (drop (S i) messages)) < 2)%nat).

(** The parts of a message that carry a cache annotation. *)
Definition annotated_parts (msg : Message) : list Part :=
  match content msg with
  | CParts parts => filter (λ part, part_has_cache part = true) parts
  | _ => []
  end.

(** ** Concrete collaborators

    The state of the outside world is the number of calls made to the
    transport so far. *)

Definition ok_result : ToolResult :=
  {| success := true; to_message := "ok"; invalid_param := false;
     error := None; inject_content := None |}.

Definition invalid_result : ToolResult :=
  {| success := false; to_message := "bad call"; invalid_param := true;
     error := Some "missing path"; inject_content := None |}.

(** A transport given by [answer] and a registry given by [run_tool]; an
    empty working directory, truncation that keeps everything, and short
    texts for the templates. *)
Definition counting_env (answer : list Message → ChatOutcome)
    (run_tool : string → ToolResult) : Env nat :=
  {| chat := λ messages calls, (answer messages, S calls);
     execute := λ tool_name _ calls, (run_tool tool_name, calls);
     shell := λ _ calls, ("", calls);
     instruction := "task";
     get_system_prompt := "system prompt";
     middle_out_truncate := λ s _, s;
     verification_prompt := λ _, "verify";
     verification_confirmation := λ _ _, "confirm";
     tool_invalid_guidance := λ _ _, "";
     tool_failure_guidance := λ _, "";
     str_parts := λ _, "" |}.

(** A transport that raises [e] at every call. *)
Definition failing_env (e : ChatError) : Env nat :=
  counting_env (λ _, Raised e) (λ _, ok_result).

(** A transport that answers every call with [response], and a registry
    that rejects the parameters of the tool named [bad_tool]. *)
Definition scripted_env (response : LLMResponse) (bad_tool : string) : Env nat :=
  counting_env (λ _, Returned response)
    (λ tool_name, if decide (tool_name = bad_tool) then invalid_result else ok_result).

Definition rate_limited_env : Env nat :=
  failing_env (LLMError "rate_limit" "Too many requests").

Definition summary_response : LLMResponse :=
  {| text := "Progress so far: the test was fixed.";
     function_calls := []; tokens := None; cost := 0%Q |}.

Definition summarizing_env : Env nat := scripted_env summary_response "".

(** A response that asks for two tools; the registry rejects the
    parameters of the first. *)
Definition two_calls_response : LLMResponse :=
  {| text := "Reading the file, then listing.";
     function_calls :=
       [ {| fc_id := "call_1"; fc_name := "read_file"; fc_arguments := "{}" |};
         {| fc_id := "call_2"; fc_name := "shell"; fc_arguments := "{}" |} ];
     tokens := Some (120, 30, 0);
     cost := 1 # 100 |}.

Definition two_calls_env : Env nat := scripted_env two_calls_response "read_file".

Definition small_config (iterations : Z) : Config :=
  {| max_iterations := iterations; cache_enabled := true;
     cost_limit := 100 # 1; max_output_tokens := 2500 |}.

(** ** Concrete transcripts *)

Definition system_message (s : string) : Message :=
  {| role := "system"; content := CStr s; tool_calls := []; tool_call_id := None |}.

Definition image_part (type : string) : Part :=
  PDict {| ptype := Some type; ptext := None;
           cache_control := None; payload := "data" |}.

(** One image in the provider's own format, [{"type": "image", ...}]. *)
Definition anthropic_image_message : Message :=
  user_message (CParts [image_part "image"]).

Definition empty_message : Message :=
  {| role := "user"; content := CAbsent; tool_calls := []; tool_call_id := None |}.

(** 25200 messages of 4 estimated tokens each: 100800 tokens, no image. *)
Definition threshold_transcript : list Message :=
  replicate (Z.to_nat 25200) empty_message.

(** Five messages whose first assistant message is at position 3. *)
Definition short_transcript : list Message :=
  [ system_message "You are an agent.";
    user_message (CStr "Fix the failing test.");
    user_message (CStr "Current directory and files: src tests");
    assistant_message "I will look at the tests." [];
    assistant_message "The test passes now." [] ].

Fixpoint repeat_char (c : Ascii.ascii) (n : nat) : string :=
  match n with
  | O => EmptyString
  | S n => String c (repeat_char c n)
  end.

(** A tool output of 160004 characters: 40001 estimated tokens. *)
Definition long_output : string :=
  repeat_char (Ascii.ascii_of_nat 120) (Z.to_nat 160004).

(** A tool output behind the two most recent user turns. *)
Definition tool_heavy_transcript : list Message :=
  [ system_message "You are an agent.";
    user_message (CStr "List the build log.");
    assistant_message ""
      [{| fc_id := "call_1"; fc_name := "shell"; fc_arguments := "{}" |}];
    {| role := "tool"; content := CStr long_output;
       tool_calls := []; tool_call_id := Some "call_1" |};
    user_message (CStr "Now fix the first error.");
    user_message (CStr "And run the tests.") ].

(** 111 images: 60 before the only assistant message, 51 after it. *)
Definition image_heavy_transcript : list Message :=
  [ user_message (CParts (replicate 60 (image_part "image_url")));
    assistant_message "I have looked at the screenshots." [];
    user_message (CParts (replicate 50 (image_part "image")));
    user_message (CParts [image_part "image_url"]) ].

(** One system message, and two last messages whose content is empty. *)
Definition cached_transcript : list Message :=
  [ system_message "You are an agent.";
    user_message (CStr "Fix the failing test.");
    assistant_message "" [];
    user_message (CStr "") ].

(** ** Further notions and models

    The notions of the further statements, and the embedding of the
    result cache and of the execution statistics of the tool registry
    ([src/tools/registry.py]). *)

(** ** The two image tallies of [prune_old_images] *)

(** [sum(count for _, analyzed, count in image_msg_indices if analyzed)] *)
Definition analyzed_count (messages : list Message) : Z :=
  sum_list_Z ((λ '(_, analyzed, count), if analyzed : bool then count else 0)
                <$> image_msg_indices messages).

(** [sum(count for _, analyzed, count in image_msg_indices if not analyzed)] *)
Definition unanalyzed_count (messages : list Message) : Z :=
  sum_list_Z ((λ '(_, analyzed, count), if analyzed : bool then 0 else count)
                <$> image_msg_indices messages).

(** 16 images, 8 before the only assistant message and 8 after it. *)
Definition image_light_transcript : list Message :=
  [ user_message (CParts (replicate 8 (image_part "image_url")));
    assistant_message "I have looked at the screenshots." [];
    user_message (CParts (replicate 8 (image_part "image_url"))) ].

(** ** Notions used in the statements on orphan repair *)

(** The ids that [valid_tool_call_ids] collects from one message. *)
Definition tool_call_ids_of (msg : Message) : list string :=
  if decide (role msg = "assistant")
  then filter (λ tc_id, tc_id ≠ "") (tc_id <$> tool_calls msg)
  else [].

(** A transcript with three tool messages: one answers a call of the
    assistant message, two refer to calls that are gone, the second of them
    already cleared. *)
Definition orphan_transcript : list Message :=
  [ system_message "You are an agent.";
    user_message (CStr "Fix the failing test.");
    assistant_message ""
      [{| fc_id := "call_1"; fc_name := "shell"; fc_arguments := "{}" |}];
    {| role := "tool"; content := CStr "2 passed";
       tool_calls := []; tool_call_id := Some "call_1" |};
    {| role := "tool"; content := CStr "lost output";
       tool_calls := []; tool_call_id := Some "call_9" |};
    {| role := "tool"; content := CStr PRUNE_MARKER;
       tool_calls := []; tool_call_id := Some "call_8" |} ].

(** The transcript after the image step of [manage_context] (step 0). *)
Definition after_image_step (messages : list Message) : list Message :=
  if decide (count_total_images messages > IMAGE_PRUNE_TARGET)
  then prune_old_images messages IMAGE_PRUNE_TARGET
  else messages.



(** The [tool_call_id] of the tool messages of a transcript, in order. *)
Definition answered_ids (messages : list Message) : list (option string) :=
  tool_call_id <$> filter (λ msg, role msg = "tool") messages.

(** The keys of a message that neither the pruner nor the evictor
    touches. *)
Definition frame (msg : Message) : string * list ToolCall * option string :=
  (role msg, tool_calls msg, tool_call_id msg).

(** The waits of the retry loop, in seconds. *)
Definition backoff_schedule : list Effect := [Sleep 2; Sleep 4; Sleep 6; Sleep 8].

(** ** Tool registry: result cache and execution statistics

    [ToolRegistry.execute] of [src/tools/registry.py], which the loop calls
    for every tool call, with its cache and its counters.  The handlers
    behind the dispatch and the clock are outside. *)

Record ExecutorConfig := {
  ec_cache_enabled : bool;
  cache_ttl : Q;
}.

Record CachedResult := {
  cr_result : ToolResult;
  cached_at : Q;
}.

Record ToolStats := {
  executions : Z;
  successes : Z;
  total_ms : Z;
}.

Record ExecutorStats := {
  total_executions : Z;
  successful_executions : Z;
  failed_executions : Z;
  cache_hits : Z;
  total_duration_ms : Z;
  by_tool : gmap string ToolStats;
}.

(** The attributes of a [ToolRegistry] that [execute] reads and writes.
    [_cache] is a dict: its keys are distinct and kept in insertion order. *)
Record Registry := {
  _config : ExecutorConfig;
  _cache : list (string * CachedResult);
  _stats : ExecutorStats;
}.

Record Host (W : Type) := {
  (** [time.time()] *)
  time : W → Q * W;
  (** the [try] block of [execute] with its [except]: the handler of the
      tool, [ToolResult.fail] for an unknown tool or a raised exception *)
  dispatch : string → string → W → ToolResult * W;
  (** [_cache_key(name, arguments)], a truncated SHA-256 digest *)
  _cache_key : string → string → string;
}.

Arguments time {W}.
Arguments dispatch {W}.
Arguments _cache_key {W}.

(** [ExecutorStats()] *)
Definition ExecutorStats_init : ExecutorStats :=
  {| total_executions := 0; successful_executions := 0; failed_executions := 0;
     cache_hits := 0; total_duration_ms := 0; by_tool := ∅ |}.

(** [ToolRegistry(config=config)] *)
Definition ToolRegistry_init (config : ExecutorConfig) : Registry :=
  {| _config := config; _cache := []; _stats := ExecutorStats_init |}.

(** [ExecutorConfig()] *)
Definition ExecutorConfig_default : ExecutorConfig :=
  {| ec_cache_enabled := true; cache_ttl := 300 # 1 |}.

(** [int(x)]: truncation towards zero. *)
Definition int_of_Q (q : Q) : Z := Z.quot (Qnum q) (Z.pos (Qden q)).

(** [self._cache.get(key)] *)
Fixpoint cache_get (cache : list (string * CachedResult)) (key : string)
    : option CachedResult :=
  match cache with
  | [] => None
  | (k, cached) :: rest =>
      if decide (k = key) then Some cached else cache_get rest key
  end.

(** [self._cache[key] = cached]: the value of a key that is present is
    replaced where it is, a new key is added at the end. *)
Fixpoint cache_set (cache : list (string * CachedResult)) (key : string)
    (cached : CachedResult) : list (string * CachedResult) :=
  match cache with
  | [] => [(key, cached)]
  | (k, c) :: rest =>
      if decide (k = key) then (k, cached) :: rest
      else (k, c) :: cache_set rest key cached
  end.

(** [ToolStats.success_rate], [ExecutorStats.success_rate] and
    [ExecutorStats.cache_hit_rate]. *)
Definition rate (part whole : Z) : Q :=
  if decide (whole = 0) then 0%Q else (inject_Z part / inject_Z whole)%Q.

Definition tool_success_rate (ts : ToolStats) : Q :=
  rate (successes ts) (executions ts).

Definition success_rate (s : ExecutorStats) : Q :=
  rate (successful_executions s) (total_executions s).

Definition cache_hit_rate (s : ExecutorStats) : Q :=
  rate (cache_hits s) (total_executions s).

(** [_record_execution] *)
Definition _record_execution (s : ExecutorStats) (tool_name : string)
    (duration_ms : Z) (success cached : bool) : ExecutorStats :=
  let tool_stats :=
    default {| executions := 0; successes := 0; total_ms := 0 |}
            (by_tool s !! tool_name) in
  {| total_executions := total_executions s + 1;
     total_duration_ms := total_duration_ms s + duration_ms;
     successful_executions :=
       if success then successful_executions s + 1 else successful_executions s;
     failed_executions :=
       if success then failed_executions s else failed_executions s + 1;
     cache_hits := if cached then cache_hits s + 1 else cache_hits s;
     by_tool :=
       <[tool_name :=
           {| executions := executions tool_stats + 1;
              total_ms := total_ms tool_stats + duration_ms;
              successes :=
                if success then successes tool_stats + 1
                else successes tool_stats |}]> (by_tool s) |}.

Section ToolRegistry.
Context {W : Type} (host : Host W).

(** [CachedResult.is_valid]: [(time.time() - self.cached_at) < ttl] *)
Definition is_valid (cached : CachedResult) (ttl : Q) (w : W) : bool * W :=
  let '(now, w) := time host w in
  (negb (Qle_bool ttl (now - cached_at cached)), w).

(** [_get_cached]: the clock is read only for a key that is present. *)
Definition _get_cached (r : Registry) (key : string) (w : W)
    : option ToolResult * W :=
  match cache_get (_cache r) key with
  | Some cached =>
      let '(valid, w) := is_valid cached (cache_ttl (_config r)) w in
      if valid then (Some (cr_result cached), w) else (None, w)
  | None => (None, w)
  end.

(** The comprehension of [_evict_expired_cache]: the keys of the entries
    that are no longer valid, each tested with a reading of the clock of
    its own, in the order of the dict. *)
Fixpoint expired_keys (entries : list (string * CachedResult)) (ttl : Q)
    (w : W) : list string * W :=
  match entries with
  | [] => ([], w)
  | (key, cached) :: rest =>
      let '(valid, w) := is_valid cached ttl w in
      let '(keys, w) := expired_keys rest ttl w in
      ((if valid then [] else [key]) ++ keys, w)
  end.

(** [_evict_expired_cache]; its local [now] is read and not used. *)
Definition _evict_expired_cache (config : ExecutorConfig)
    (cache : list (string * CachedResult)) (w : W)
    : list (string * CachedResult) * W :=
  let '(now, w) := time host w in
  let '(keys, w) := expired_keys cache (cache_ttl config) w in
  (filter (λ entry, entry.1 ∉ keys) cache, w).

(** [_cache_result] *)
Definition _cache_result (config : ExecutorConfig)
    (cache : list (string * CachedResult)) (key : string) (result : ToolResult)
    (w : W) : list (string * CachedResult) * W :=
  let '(now, w) := time host w in
  let cache := cache_set cache key {| cr_result := result; cached_at := now |} in
  if decide (1000 < length cache)%nat then _evict_expired_cache config cache w
  else (cache, w).

(** [int((time.time() - start_time) * 1000)] *)
Definition elapsed_ms (start_time : Q) (w : W) : Z * W :=
  let '(now, w) := time host w in
  (int_of_Q ((now - start_time) * (1000 # 1)), w).

(** [ToolRegistry.execute] *)
Definition ToolRegistry_execute (r : Registry) (name arguments : string) (w : W)
    : ToolResult * Registry * W :=
  let '(start_time, w) := time host w in
  let '(cached, w) :=
    if ec_cache_enabled (_config r)
    then _get_cached r (_cache_key host name arguments) w
    else (None, w) in
  match cached with
  | Some cached =>
      let '(duration_ms, w) := elapsed_ms start_time w in
      (cached,
       {| _config := _config r; _cache := _cache r;
          _stats := _record_execution (_stats r) name duration_ms true true |},
       w)
  | None =>
      let '(result, w) := dispatch host name arguments w in
      let '(duration_ms, w) := elapsed_ms start_time w in
      let stats :=
        _record_execution (_stats r) name duration_ms (success result) false in
      if ec_cache_enabled (_config r) && success result then
        let '(cache, w) :=
          _cache_result (_config r) (_cache r) (_cache_key host name arguments)
            result w in
        (result, {| _config := _config r; _cache := cache; _stats := stats |}, w)
      else
        (result, {| _config := _config r; _cache := _cache r; _stats := stats |}, w)
  end.

End ToolRegistry.

(** The sum of a counter over the per-tool statistics. *)
Definition sum_by_tool (f : ToolStats → Z) (m : gmap string ToolStats) : Z :=
  map_fold (λ _ ts acc, f ts + acc) 0 m.

(** The counters agree with one another. *)
Definition stats_consistent (s : ExecutorStats) : Prop :=
  total_executions s = successful_executions s + failed_executions s
  ∧ 0 <= failed_executions s
  ∧ 0 <= cache_hits s <= successful_executions s
  ∧ sum_by_tool executions (by_tool s) = total_executions s
  ∧ sum_by_tool successes (by_tool s) = successful_executions s
  ∧ sum_by_tool total_ms (by_tool s) = total_duration_ms s
  ∧ map_Forall (λ _ ts, 0 <= successes ts <= executions ts) (by_tool s).

(** A host over a world that is the clock: every reading takes a second;
    [tool] tells the result of a tool from its name. *)
Definition ticking_host (tool : string → ToolResult) : Host Z :=
  {| time := λ w, (inject_Z w, w + 1);
     dispatch := λ name _ w, (tool name, w + 1000);
     _cache_key := λ name arguments, name +:+ ":" +:+ arguments |}.

Definition failed_result : ToolResult :=
  {| success := false; to_message := "Error: no such file"; invalid_param := false;
     error := Some "no such file"; inject_content := None |}.

(** The estimate of the tool outputs of a stretch of the transcript, as
    the backward scan of the pruner counts them. *)
Definition tool_output_tokens (messages : list Message) : Z :=
  sum_list_Z ((λ msg, if decide (role msg = "tool")
                      then estimate_content_len (content msg) else 0) <$> messages).

(** Two large tool outputs, then a small one, all behind the two most
    recent user turns: the small one is within the protected budget, the
    large ones are beyond it. *)
Definition budget_transcript : list Message :=
  [ system_message "You are an agent.";
    user_message (CStr "List the build logs.");
    assistant_message ""
      [{| fc_id := "call_1"; fc_name := "shell"; fc_arguments := "{}" |}];
    {| role := "tool"; content := CStr long_output;
       tool_calls := []; tool_call_id := Some "call_1" |};
    assistant_message ""
      [{| fc_id := "call_2"; fc_name := "shell"; fc_arguments := "{}" |}];
    {| role := "tool"; content := CStr long_output;
       tool_calls := []; tool_call_id := Some "call_2" |};
    assistant_message ""
      [{| fc_id := "call_3"; fc_name := "shell"; fc_arguments := "{}" |}];
    {| role := "tool"; content := CStr "3 errors, 12 warnings";
       tool_calls := []; tool_call_id := Some "call_3" |};
    user_message (CStr "Now fix the first error.");
    user_message (CStr "And run the tests.") ].

(** A transport that never raises [CostLimitExceeded]. *)
Definition never_cost_limit {W} (env : Env W) : Prop :=
  ∀ messages w message, (chat env messages w).1 ≠ Raised (CostLimitExceeded message).

(** * Token estimator *)

Lemma estimate_tokens_nonneg text : 0 <= estimate_tokens text.
Proof. unfold estimate_tokens. lia. Qed.

Lemma estimate_content_len_nonneg c : 0 <= estimate_content_len c.
Proof. destruct c; simpl; try apply estimate_tokens_nonneg; lia. Qed.

(** The breakdown of the estimate that the code computes: the content, the
    tool calls and the overhead of 4. *)
Lemma estimate_message_tokens_unfold msg :
  estimate_message_tokens msg =
    estimate_content_tokens (content msg)
    + sum_list_Z ((λ tc, estimate_tokens (tc_name tc)
                         + estimate_tokens (tc_arguments tc)) <$> tool_calls msg)
    + 4.
Proof. reflexivity. Qed.

(** A part of type [image_url] is charged its text and 1000 tokens. *)
Lemma estimate_image_url_part d :
  ptype d = Some "image_url" →
  estimate_part_tokens (PDict d) = estimate_tokens (or_empty (ptext d)) + 1000.
Proof. intros Ht. simpl. rewrite decide_True by done. done. Qed.

(** A part of any other type is charged its text only. *)
Lemma estimate_other_part d :
  ptype d ≠ Some "image_url" →
  estimate_part_tokens (PDict d) = estimate_tokens (or_empty (ptext d)).
Proof. intros Ht. simpl. rewrite decide_False by done. lia. Qed.

(** When no part is of type [image], every part that the image counters
    count is charged: the estimate of the content is the estimate of the
    texts plus 1000 for each counted image. *)
Lemma estimate_content_tokens_counted_images parts :
  Forall (λ part, ∀ d, part = PDict d → ptype d ≠ Some "image") parts →
  estimate_content_tokens (CParts parts)
  = sum_list_Z ((λ part, match part with
                         | PDict d => estimate_tokens (or_empty (ptext d))
                         | PRaw _ => 0
                         end) <$> parts)
    + 1000 * count_images_in_parts parts.
Proof.
  unfold count_images_in_parts, sum_list_Z. simpl.
  induction 1 as [|part parts Hpart _ IH]; csimpl; [done|].
  rewrite IH. destruct part as [d|raw]; simpl; [|lia].
  specialize (Hpart d eq_refl).
  destruct (decide (ptype d = Some "image_url")) as [Hurl|Hurl].
  - rewrite (bool_decide_eq_true_2 _ Hurl). simpl. lia.
  - rewrite (bool_decide_eq_false_2 _ Hurl), (bool_decide_eq_false_2 _ Hpart).
    simpl. lia.
Qed.

(** C8, at the input where the code departs from it: a part of type
    [image] is counted as an image by [count_images_in_message] (and by
    [count_total_images]), and the estimate of its message is the role
    overhead of 4 alone, without the charge of 1000. *)
Theorem estimate_skips_image_type_part :
  count_images_in_message anthropic_image_message = 1
  ∧ count_total_images [anthropic_image_message] = 1
  ∧ estimate_message_tokens anthropic_image_message = 4.
Proof. repeat split; vm_compute; reflexivity. Qed.

(** * Context manager at the threshold *)

Lemma is_overflow_at_threshold total_tokens threshold :
  (inject_Z total_tokens == inject_Z get_usable_context * threshold)%Q →
  is_overflow total_tokens threshold = false.
Proof.
  intros Heq. unfold is_overflow.
  apply negb_false_iff, Qle_bool_iff. rewrite Heq. apply Qle_refl.
Qed.

(** C10: a transcript whose estimate is exactly [usable * threshold] and
    that holds at most [IMAGE_PRUNE_TARGET] images comes back from
    [manage_context] unchanged when compaction is not forced, and no call
    is made to the transport. *)
Theorem manage_context_at_threshold {W} (env : Env W)
    (messages : list Message) (system_prompt : string) (w : W) :
  (inject_Z (estimate_total_tokens messages)
     == inject_Z get_usable_context * AUTO_COMPACT_THRESHOLD)%Q →
  count_total_images messages <= IMAGE_PRUNE_TARGET →
  manage_context env messages system_prompt false w = (messages, w).
Proof.
  intros Htok Himg. unfold manage_context.
  rewrite decide_False by lia.
  by rewrite (is_overflow_at_threshold _ _ Htok).
Qed.

Lemma manage_context_at_threshold_witness :
  manage_context (failing_env (OtherException "down")) threshold_transcript
    "system prompt" false O = (threshold_transcript, O).
Proof.
  apply (manage_context_at_threshold (failing_env (OtherException "down"))).
  - vm_compute. reflexivity.
  - vm_compute. discriminate.
Defined.

(** The strictness of the comparison: one token more overflows. *)
Lemma is_overflow_above_threshold :
  is_overflow 100800 AUTO_COMPACT_THRESHOLD = false
  ∧ is_overflow 100801 AUTO_COMPACT_THRESHOLD = true.
Proof. split; vm_compute; reflexivity. Qed.

(** * Tool-output pruner *)

Section PruneScan.
Context (messages : list Message) (protect_last_turns : Z).

#[local] Abbreviation scan := (prune_scan messages protect_last_turns).

(** The scan only ever adds positions below its start, of tool messages. *)
Lemma prune_scan_to_prune n st i :
  i ∈ to_prune (scan n st) →
  i ∈ to_prune st
  ∨ ((i < n)%nat ∧ ∃ msg, messages !! i = Some msg ∧ role msg = "tool").
Proof.
  revert st. induction n as [|n IH]; intros st; [by left|].
  simpl. destruct (messages !! n) as [msg|] eqn:Hmsg; [|by left].
  assert (∀ st', (i ∈ to_prune st' →
                    i ∈ to_prune st ∨ (i = n ∧ role msg = "tool")) →
                 i ∈ to_prune (scan n st') →
                 i ∈ to_prune st
                 ∨ ((i < S n)%nat ∧ ∃ msg, messages !! i = Some msg ∧ role msg = "tool"))
    as Hstep.
  { intros st' Hst' [Hi|(? & ?)]%IH.
    - destruct (Hst' Hi) as [?|[-> ?]]; [by left|].
      right. split; [lia|]. by exists msg.
    - right. split; [lia|done]. }
  repeat case_decide; simpl; try (by left); apply Hstep; simpl; try (by left).
  all: intros [?|Hi]%elem_of_app; [by left|].
  all: apply list_elem_of_singleton in Hi as ->; by right.
Qed.

End PruneScan.

Lemma prune_old_tool_outputs_length messages protect_last_turns :
  length (prune_old_tool_outputs messages protect_last_turns) = length messages.
Proof.
  unfold prune_old_tool_outputs. destruct messages as [|m ms]; [done|].
  case_decide; [done|]. by rewrite length_imap.
Qed.

Lemma prune_old_tool_outputs_lookup messages protect_last_turns i msg :
  messages !! i = Some msg →
  prune_old_tool_outputs messages protect_last_turns !! i = Some msg
  ∨ (role msg = "tool"
     ∧ prune_old_tool_outputs messages protect_last_turns !! i
       = Some (with_content msg (CStr PRUNE_MARKER))).
Proof.
  intros Hmsg. unfold prune_old_tool_outputs.
  destruct messages as [|m ms] eqn:Hms; [done|]. rewrite <- Hms in *.
  case_decide; [by left|].
  rewrite list_lookup_imap, Hmsg. simpl.
  case_decide as Hin; [|by left]. right. split; [|done].
  apply elem_of_list_to_set, prune_scan_to_prune in Hin
    as [Hin|(_ & msg' & Hmsg' & Hrole)].
  - by apply elem_of_nil in Hin.
  - congruence.
Qed.

Lemma prune_old_tool_outputs_below_minimum messages protect_last_turns :
  recoverable_tokens messages protect_last_turns <= PRUNE_MINIMUM →
  prune_old_tool_outputs messages protect_last_turns = messages.
Proof.
  unfold recoverable_tokens, prune_old_tool_outputs. intros Hle.
  destruct messages as [|m ms]; [done|]. by rewrite decide_True.
Qed.

(** C5: the pruner keeps the length of the transcript; every message of
    the output is the input message at its position, or that message, of
    role [tool], with its content replaced by [PRUNE_MARKER] and its role,
    tool-call id and tool calls kept; and the output is the input unless
    the recoverable total exceeds [PRUNE_MINIMUM]. *)
Theorem prune_old_tool_outputs_shape (messages : list Message)
    (protect_last_turns : Z) :
  let out := prune_old_tool_outputs messages protect_last_turns in
  length out = length messages
  ∧ (∀ i msg, messages !! i = Some msg →
       out !! i = Some msg
       ∨ ∃ msg', out !! i = Some msg'
           ∧ role msg = "tool" ∧ role msg' = "tool"
           ∧ content msg' = CStr PRUNE_MARKER
           ∧ tool_call_id msg' = tool_call_id msg
           ∧ tool_calls msg' = tool_calls msg)
  ∧ (¬ recoverable_tokens messages protect_last_turns > PRUNE_MINIMUM →
       out = messages).
Proof.
  intros out. split; [apply prune_old_tool_outputs_length|]. split.
  - intros i msg Hmsg.
    destruct (prune_old_tool_outputs_lookup _ protect_last_turns _ _ Hmsg)
      as [?|[Hrole Hout]]; [by left|].
    right. exists (with_content msg (CStr PRUNE_MARKER)). by repeat split.
  - intros Hle. apply prune_old_tool_outputs_below_minimum. lia.
Qed.

Lemma prune_old_tool_outputs_shape_witness :
  length (prune_old_tool_outputs tool_heavy_transcript 2)
  = length tool_heavy_transcript.
Proof.
  exact (proj1 (prune_old_tool_outputs_shape tool_heavy_transcript 2)).
Defined.

(** On that transcript the tool output lies past the two protected user
    turns and over the protected budget: it is replaced by the marker. *)
Lemma prune_old_tool_outputs_tool_heavy_transcript :
  recoverable_tokens tool_heavy_transcript 2 = 40001
  ∧ content <$> prune_old_tool_outputs tool_heavy_transcript 2
    = [ CStr "You are an agent."; CStr "List the build log."; CStr "";
        CStr PRUNE_MARKER;
        CStr "Now fix the first error."; CStr "And run the tests." ].
Proof. split; vm_compute; reflexivity. Qed.

(** ** Idempotence *)

Section SecondScan.
Context (messages : list Message) (protect_last_turns : Z).

#[local] Abbreviation scan := (prune_scan messages protect_last_turns).

Lemma prune_scan_to_prune_mono n st i :
  i ∈ to_prune st → i ∈ to_prune (scan n st).
Proof.
  revert st. induction n as [|n IH]; intros st Hi; [done|].
  simpl. destruct (messages !! n) as [msg|]; [|done].
  repeat case_decide; simpl; try done; apply IH; simpl; try done.
  all: apply elem_of_app; by left.
Qed.

(** The transcript in which the positions of [marked] carry the marker. *)
Context (marked : gset nat) (out : list Message).
Hypothesis out_lookup : ∀ i,
  out !! i =
    (λ msg, if decide (i ∈ marked)
            then with_content msg (CStr PRUNE_MARKER) else msg) <$> messages !! i.

(** A scan of [out] that starts where a scan of [messages] stood, with the
    same counters, selects nothing, provided [marked] is what the scan of
    [messages] selects from there on. *)
Lemma second_scan_selects_nothing n st1 st2 :
  (∀ i, (i < n)%nat → i ∈ marked ↔ i ∈ to_prune (scan n st1)) →
  (∀ i, i ∈ to_prune st1 → (n ≤ i)%nat) →
  turns st2 = turns st1 →
  total st2 = total st1 →
  pruned (prune_scan out protect_last_turns n st2) = pruned st2.
Proof.
  revert st1 st2. induction n as [|n IH]; intros st1 st2 Hmarked Hold Hturns Htotal;
    [done|].
  assert (∀ st', to_prune st' = to_prune st1 → n ∉ to_prune (scan n st')) as Hfresh.
  { intros st' Hst' [Hn|[? _]]%prune_scan_to_prune; [|lia].
    rewrite Hst' in Hn. apply Hold in Hn. lia. }
  assert (∀ st', to_prune st' = to_prune st1 →
                 ∀ i, i ∈ to_prune st' → (n ≤ i)%nat) as Hold'.
  { intros st' -> i Hi. apply Hold in Hi. lia. }
  pose proof (Hmarked n (Nat.lt_succ_diag_r n)) as Hn.
  assert (∀ i, (i < n)%nat → i ∈ marked ↔ i ∈ to_prune (scan (S n) st1)) as Hbelow.
  { intros i Hi. apply Hmarked. lia. }
  clear Hmarked.
  cbn [prune_scan] in *. rewrite out_lookup.
  destruct (messages !! n) as [msg|] eqn:Hmsg; [|done].
  cbn [fmap option_fmap option_map].
  rewrite Hturns, Htotal. cbn [total pruned to_prune turns] in *.
  destruct (decide (n ∈ marked)) as [Hin|Hnotin].
  - (* the first pass replaced this message: the scan stops at it *)
    assert (role (with_content msg (CStr PRUNE_MARKER)) = role msg) as -> by done.
    assert (content (with_content msg (CStr PRUNE_MARKER)) = CStr PRUNE_MARKER)
      as -> by done.
    set (turns' := if decide (role msg = "user") then turns st1 + 1 else turns st1) in *.
    destruct (decide (turns' < protect_last_turns)) as [Hprot|Hprot].
    { exfalso. apply Hn in Hin. eapply Hfresh; [|exact Hin]. done. }
    destruct (decide (role msg = "tool")) as [Htool|Htool].
    2:{ exfalso. apply Hn in Hin. eapply Hfresh; [|exact Hin]. done. }
    by rewrite decide_True.
  - set (turns' := if decide (role msg = "user") then turns st1 + 1 else turns st1) in *.
    destruct (decide (turns' < protect_last_turns)) as [Hprot|Hprot].
    { by rewrite (IH _ _ Hbelow) by (done || by apply Hold'). }
    destruct (decide (role msg = "tool")) as [Htool|Htool].
    2:{ by rewrite (IH _ _ Hbelow) by (done || by apply Hold'). }
    destruct (decide (content msg = CStr PRUNE_MARKER)) as [Hmark|Hmark]; [done|].
    destruct (decide (total st1 + estimate_content_len (content msg) > PRUNE_PROTECT))
      as [Hover|Hover].
    { exfalso. apply Hnotin, Hn, prune_scan_to_prune_mono. simpl.
      apply elem_of_app. right. by apply list_elem_of_singleton. }
    by rewrite (IH _ _ Hbelow) by (done || by apply Hold').
Qed.

End SecondScan.

(** C6: pruning the output of the pruner again returns it unchanged: the
    second scan stops at the first marker it meets, and what it has
    selected by then is nothing. *)
Theorem prune_old_tool_outputs_idempotent (messages : list Message)
    (protect_last_turns : Z) :
  prune_old_tool_outputs (prune_old_tool_outputs messages protect_last_turns)
    protect_last_turns
  = prune_old_tool_outputs messages protect_last_turns.
Proof.
  pose proof (prune_old_tool_outputs_length messages protect_last_turns) as Hlen.
  unfold prune_old_tool_outputs at 2 3. unfold prune_old_tool_outputs in Hlen.
  destruct messages as [|m ms] eqn:Hms; [done|]. rewrite <- Hms in *.
  set (st := prune_scan messages protect_last_turns (length messages) scan_init) in *.
  destruct (decide (pruned st <= PRUNE_MINIMUM)) as [Hle|Hgt].
  { unfold prune_old_tool_outputs. rewrite Hms, <- Hms. fold st.
    by rewrite decide_True. }
  set (marked := list_to_set (to_prune st) : gset nat) in *.
  set (out := imap _ messages) in *.
  unfold prune_old_tool_outputs.
  destruct out as [|o os] eqn:Hout; [done|]. rewrite <- Hout in *.
  rewrite decide_True; [done|].
  rewrite Hlen.
  rewrite (second_scan_selects_nothing messages protect_last_turns marked out)
    with (st1 := scan_init); try done.
  - intros i. unfold out. by rewrite list_lookup_imap.
  - intros i _. unfold marked. by rewrite elem_of_list_to_set.
  - intros i Hi. by apply elem_of_nil in Hi.
Qed.

(** * Image evictor *)

Lemma sum_list_Z_app l1 l2 : sum_list_Z (l1 ++ l2) = sum_list_Z l1 + sum_list_Z l2.
Proof. induction l1 as [|x l1 IH]; simpl; lia. Qed.

Lemma count_images_in_parts_nonneg parts : 0 <= count_images_in_parts parts.
Proof.
  unfold count_images_in_parts, sum_list_Z.
  induction parts as [|part parts IH]; csimpl; [done|]. case_match; lia.
Qed.

Lemma count_images_in_message_nonneg msg : 0 <= count_images_in_message msg.
Proof.
  unfold count_images_in_message.
  destruct (content msg); try done. apply count_images_in_parts_nonneg.
Qed.

Lemma clear_image_part_not_image part : is_image_part (clear_image_part part) = false.
Proof. unfold clear_image_part. by destruct (is_image_part part) eqn:Hp. Qed.

Lemma count_images_in_parts_cleared parts :
  count_images_in_parts (clear_image_part <$> parts) = 0.
Proof.
  unfold count_images_in_parts, sum_list_Z.
  induction parts as [|part parts IH]; csimpl; [done|].
  rewrite clear_image_part_not_image. lia.
Qed.

(** A message whose images were cleared holds no image. *)
Lemma count_images_clear_images msg :
  count_images_in_message (clear_images msg) = 0.
Proof.
  unfold clear_images, count_images_in_message.
  destruct (content msg) as [|s|parts] eqn:Hc; rewrite ?Hc; try done. simpl.
  apply count_images_in_parts_cleared.
Qed.

Section Entries.
Context (analyzed : nat → bool).

#[local] Abbreviation entries_from := (image_entries_from analyzed).

Lemma image_entries_from_elem start messages msg_idx a img_count :
  (msg_idx, a, img_count) ∈ entries_from start messages →
  (start ≤ msg_idx)%nat ∧ a = analyzed msg_idx ∧ img_count > 0
  ∧ ∃ msg, messages !! (msg_idx - start)%nat = Some msg
           ∧ img_count = count_images_in_message msg.
Proof.
  revert start. induction messages as [|msg rest IH]; intros start; simpl.
  - by intros ?%elem_of_nil.
  - intros [He|He]%elem_of_app.
    + case_decide; [|by apply elem_of_nil in He].
      apply list_elem_of_singleton in He. simplify_eq.
      repeat split; [lia|done|]. exists msg. by rewrite Nat.sub_diag.
    + destruct (IH _ He) as (? & ? & ? & msg' & Hmsg' & ?).
      repeat split; [lia|done..|]. exists msg'. split; [|done].
      by replace (msg_idx - start)%nat with (S (msg_idx - S start)) by lia.
Qed.

Lemma image_entries_from_intro start messages i msg :
  messages !! i = Some msg → count_images_in_message msg > 0 →
  ((start + i)%nat, analyzed (start + i)%nat, count_images_in_message msg)
    ∈ entries_from start messages.
Proof.
  revert start i. induction messages as [|m rest IH]; intros start i Hmsg Hpos;
    [done|].
  simpl. apply elem_of_app. destruct i as [|i]; simplify_eq/=.
  - left. rewrite decide_True by done. rewrite Nat.add_0_r.
    by apply list_elem_of_singleton.
  - right. replace (start + S i)%nat with (S start + i)%nat by lia. by apply IH.
Qed.

Lemma image_entries_from_NoDup start messages :
  NoDup ((λ e : ImageEntry, e.1.1) <$> entries_from start messages).
Proof.
  revert start. induction messages as [|msg rest IH]; intros start; simpl;
    [constructor|].
  rewrite fmap_app. case_decide; simpl; [|done]. constructor; [|done].
  intros ([[i a] c] & Hi & He%image_entries_from_elem)%list_elem_of_fmap.
  simpl in Hi. lia.
Qed.

(** Clearing the messages of [selected] takes their images off the total. *)
Lemma count_total_images_cleared (selected : gset nat) start messages :
  count_total_images
    (imap (λ i msg, if decide ((start + i)%nat ∈ selected)
                    then clear_images msg else msg) messages)
  = count_total_images messages
    - selected_images selected (entries_from start messages).
Proof.
  unfold count_total_images, selected_images.
  revert start. induction messages as [|msg rest IH]; intros start; [done|].
  csimpl. rewrite fmap_app, sum_list_Z_app.
  rewrite (imap_ext _ (λ i msg, if decide ((S start + i)%nat ∈ selected)
                                then clear_images msg else msg)).
  2:{ intros i x _. simpl. by replace (start + S i)%nat with (S (start + i)) by lia. }
  rewrite IH, Nat.add_0_r.
  pose proof (count_images_in_message_nonneg msg).
  destruct (decide (count_images_in_message msg > 0)); csimpl;
    destruct (decide (start ∈ selected)); csimpl;
    rewrite ?count_images_clear_images; lia.
Qed.

(** When every entry is selected, all images are. *)
Lemma selected_images_all (selected : gset nat) start messages :
  (∀ e, e ∈ entries_from start messages → e.1.1 ∈ selected) →
  selected_images selected (entries_from start messages)
  = count_total_images messages.
Proof.
  unfold count_total_images, selected_images.
  revert start. induction messages as [|msg rest IH]; intros start Hall; [done|].
  csimpl in *. rewrite fmap_app, sum_list_Z_app, IH.
  2:{ intros e He. apply Hall, elem_of_app. by right. }
  pose proof (count_images_in_message_nonneg msg).
  destruct (decide (count_images_in_message msg > 0)) as [Hpos|Hpos]; csimpl; [|lia].
  rewrite decide_True; [lia|].
  apply (Hall (start, analyzed start, count_images_in_message msg)).
  apply elem_of_app. left. by apply list_elem_of_singleton.
Qed.

End Entries.

Lemma selected_images_cons (selected : gset nat) msg_idx a img_count entries :
  selected_images selected ((msg_idx, a, img_count) :: entries)
  = (if decide (msg_idx ∈ selected) then img_count else 0)
    + selected_images selected entries.
Proof. done. Qed.

(** Selecting a message that has no entry changes nothing. *)
Lemma selected_images_fresh (selected : gset nat) entries msg_idx :
  msg_idx ∉ (λ e : ImageEntry, e.1.1) <$> entries →
  selected_images ({[msg_idx]} ∪ selected) entries
  = selected_images selected entries.
Proof.
  induction entries as [|[[i b] c] entries IH]; intros Hnew; [done|].
  rewrite !selected_images_cons. csimpl in Hnew.
  apply not_elem_of_cons in Hnew as [Hne Hnew]. rewrite IH by done.
  destruct (decide (i ∈ selected)).
  - rewrite decide_True; [done|]. apply elem_of_union. by right.
  - rewrite decide_False; [done|].
    intros [Hi%elem_of_singleton|Hi]%elem_of_union; done.
Qed.

Lemma selected_images_empty entries : selected_images ∅ entries = 0.
Proof.
  induction entries as [|[[i a] c] entries IH]; [done|].
  rewrite selected_images_cons, IH. by rewrite decide_False.
Qed.

(** Selecting one more entry adds its images. *)
Lemma selected_images_add (selected : gset nat) entries msg_idx a img_count :
  NoDup ((λ e : ImageEntry, e.1.1) <$> entries) →
  (msg_idx, a, img_count) ∈ entries →
  msg_idx ∉ selected →
  selected_images ({[msg_idx]} ∪ selected) entries
  = selected_images selected entries + img_count.
Proof.
  induction entries as [|[[i b] c] entries IH]; intros Hnd He Hnew.
  - by apply elem_of_nil in He.
  - rewrite !selected_images_cons. csimpl in Hnd.
    apply NoDup_cons in Hnd as [Hi Hnd].
    apply elem_of_cons in He as [He|He].
    + simplify_eq. rewrite selected_images_fresh by done.
      rewrite decide_True by (apply elem_of_union; left; by apply elem_of_singleton).
      rewrite decide_False by done. lia.
    + rewrite IH by done.
      assert (i ≠ msg_idx) as Hne.
      { intros ->. apply Hi, list_elem_of_fmap. by exists (msg_idx, a, img_count). }
      destruct (decide (i ∈ selected)).
      * rewrite decide_True; [lia|]. apply elem_of_union. by right.
      * rewrite decide_False; [lia|].
        intros [Hi'%elem_of_singleton|Hi']%elem_of_union; done.
Qed.

(** ** The two removal passes *)

Section Passes.
Context (all : list ImageEntry) (images_to_remove : Z).
Hypothesis all_NoDup : NoDup ((λ e : ImageEntry, e.1.1) <$> all).

Lemma remove_analyzed_spec entries st :
  (∀ e, e ∈ entries → e ∈ all) →
  NoDup ((λ e : ImageEntry, e.1.1) <$> entries) →
  (∀ e, e ∈ entries → e.1.1 ∉ indices_to_prune st) →
  removal_consistent all st →
  removal_consistent all (remove_analyzed entries images_to_remove st)
  ∧ indices_to_prune st ⊆ indices_to_prune (remove_analyzed entries images_to_remove st)
  ∧ (∀ i, i ∈ indices_to_prune (remove_analyzed entries images_to_remove st) →
       i ∈ indices_to_prune st ∨ ∃ c, (i, true, c) ∈ entries)
  ∧ (removed (remove_analyzed entries images_to_remove st) < images_to_remove →
       ∀ i c, (i, true, c) ∈ entries →
         i ∈ indices_to_prune (remove_analyzed entries images_to_remove st)).
Proof.
  revert st. induction entries as [|[[i a] c] entries IH]; intros st Hall Hnd Hfresh Hst.
  { simpl. split; [done|]. split; [done|]. split; [by left|].
    by intros _ i c ?%elem_of_nil. }
  csimpl in Hnd. apply NoDup_cons in Hnd as [Hi Hnd]. simpl.
  destruct (decide (removed st >= images_to_remove)) as [Hstop|Hgo].
  { split; [done|]. split; [done|]. split; [by left|]. intros ?. lia. }
  assert (∀ e, e ∈ entries → e ∈ all) as Hall'.
  { intros e He. apply Hall. by right. }
  destruct a.
  - set (st1 := {| indices_to_prune := {[i]} ∪ indices_to_prune st;
                   removed := removed st + c |}).
    destruct (IH st1) as (Hinv & Hsub & Honly & Hdone); [done..| | |].
    { intros e He. simpl.
      intros [Heq%elem_of_singleton|Hin]%elem_of_union.
      - apply Hi, list_elem_of_fmap. by exists e.
      - eapply Hfresh; [|done]. by right. }
    { unfold removal_consistent, st1. simpl.
      rewrite (selected_images_add _ _ i true c); [by rewrite Hst|done|..].
      - apply Hall. by left.
      - apply (Hfresh (i, true, c)). by left. }
    split; [done|]. split; [|split].
    + intros j Hj. apply Hsub. simpl. apply elem_of_union. by right.
    + intros j [[->%elem_of_singleton|Hj]%elem_of_union|(c' & Hc')]%Honly.
      * right. exists c. by left.
      * by left.
      * right. exists c'. by right.
    + intros Hlt j c' [Hj|Hj]%elem_of_cons.
      * simplify_eq. apply Hsub. simpl. apply elem_of_union. left.
        by apply elem_of_singleton.
      * by eapply Hdone.
  - destruct (IH st) as (Hinv & Hsub & Honly & Hdone); [done..| |done|].
    { intros e He. apply Hfresh. by right. }
    split; [done|]. split; [done|]. split.
    + intros j [Hj|(c' & Hc')]%Honly; [by left|]. right. exists c'. by right.
    + intros Hlt j c' [Hj|Hj]%elem_of_cons; [done|]. by eapply Hdone.
Qed.

Lemma remove_unanalyzed_spec entries st :
  (∀ e, e ∈ entries → e ∈ all) →
  removal_consistent all st →
  removal_consistent all (remove_unanalyzed entries images_to_remove st)
  ∧ indices_to_prune st ⊆ indices_to_prune (remove_unanalyzed entries images_to_remove st)
  ∧ (removed (remove_unanalyzed entries images_to_remove st) < images_to_remove →
       ∀ i c, (i, false, c) ∈ entries →
         i ∈ indices_to_prune (remove_unanalyzed entries images_to_remove st)).
Proof.
  revert st. induction entries as [|[[i a] c] entries IH]; intros st Hall Hst.
  { simpl. split; [done|]. split; [done|]. by intros _ i c ?%elem_of_nil. }
  simpl.
  destruct (decide (removed st >= images_to_remove)) as [Hstop|Hgo].
  { split; [done|]. split; [done|]. intros ?. lia. }
  assert (∀ e, e ∈ entries → e ∈ all) as Hall'.
  { intros e He. apply Hall. by right. }
  destruct a; simpl.
  - destruct (IH st) as (Hinv & Hsub & Hdone); [done..|].
    split; [done|]. split; [done|].
    intros Hlt j c' [Hj|Hj]%elem_of_cons; [done|]. by eapply Hdone.
  - case_bool_decide as Hnew.
    + set (st1 := {| indices_to_prune := {[i]} ∪ indices_to_prune st;
                     removed := removed st + c |}).
      destruct (IH st1) as (Hinv & Hsub & Hdone); [done| |].
      { unfold removal_consistent, st1. simpl.
        rewrite (selected_images_add _ _ i false c); [by rewrite Hst|done| |done].
        apply Hall. by left. }
      split; [done|]. split.
      * intros j Hj. apply Hsub. simpl. apply elem_of_union. by right.
      * intros Hlt j c' [Hj|Hj]%elem_of_cons.
        -- simplify_eq. apply Hsub. simpl. apply elem_of_union. left.
           by apply elem_of_singleton.
        -- by eapply Hdone.
    + destruct (IH st) as (Hinv & Hsub & Hdone); [done..|].
      split; [done|]. split; [done|].
      intros Hlt j c' [Hj|Hj]%elem_of_cons.
      * injection Hj as -> ->. by apply Hsub.
      * by eapply Hdone.
Qed.

End Passes.

(** ** The selection of [prune_old_images] *)

Section Selection.
Context (messages : list Message) (max_images : Z).

#[local] Abbreviation entries := (image_msg_indices messages).
#[local] Abbreviation selection := (select_images_to_prune messages max_images).

Lemma image_msg_indices_NoDup :
  NoDup ((λ e : ImageEntry, e.1.1) <$> entries).
Proof. apply image_entries_from_NoDup. Qed.

Lemma select_images_to_prune_consistent : removal_consistent entries selection.
Proof.
  unfold select_images_to_prune.
  set (R := if bool_decide _ then _ else _).
  destruct (remove_analyzed_spec entries R image_msg_indices_NoDup entries
              {| indices_to_prune := ∅; removed := 0 |})
    as (Hinv & _); [done|apply image_msg_indices_NoDup|done| |].
  { unfold removal_consistent. simpl. by rewrite selected_images_empty. }
  case_match; [|done].
  by apply (remove_unanalyzed_spec entries R image_msg_indices_NoDup entries).
Qed.

(** Over the hard limit, enough images are selected or all of them are. *)
Lemma select_images_to_prune_enough :
  count_total_images messages > MAX_IMAGES_PER_REQUEST →
  removed selection >= count_total_images messages - (MAX_IMAGES_PER_REQUEST - 5)
  ∨ ∀ e, e ∈ entries → e.1.1 ∈ indices_to_prune selection.
Proof.
  intros Hover. unfold select_images_to_prune.
  rewrite !(bool_decide_eq_true_2 _ Hover).
  set (R := Z.max _ _). rewrite andb_true_r.
  destruct (remove_analyzed_spec entries R image_msg_indices_NoDup entries
              {| indices_to_prune := ∅; removed := 0 |})
    as (Hinv & _ & _ & Hdone1); [done|apply image_msg_indices_NoDup|done| |].
  { unfold removal_consistent. simpl. by rewrite selected_images_empty. }
  set (st1 := remove_analyzed entries R _) in *.
  case_bool_decide as Hless; [|left; lia].
  destruct (remove_unanalyzed_spec entries R image_msg_indices_NoDup entries st1)
    as (_ & Hsub & Hdone2); [done..|].
  set (st2 := remove_unanalyzed entries R st1) in *.
  destruct (decide (removed st2 < R)) as [Hless2|]; [|left; lia].
  right. intros [[i [|]] c] He; simpl.
  - apply Hsub. by eapply Hdone1.
  - by eapply Hdone2.
Qed.

(** A selected message without a later assistant message was selected by
    the second pass, which runs only when the first has selected every
    message with a later assistant message. *)
Lemma select_images_to_prune_order i j c :
  j ∈ indices_to_prune selection →
  is_image_analyzed messages j = false →
  (i, true, c) ∈ entries →
  i ∈ indices_to_prune selection.
Proof.
  intros Hj Hunanalyzed Hi. unfold select_images_to_prune in *.
  set (R := if bool_decide _ then _ else _) in *.
  destruct (remove_analyzed_spec entries R image_msg_indices_NoDup entries
              {| indices_to_prune := ∅; removed := 0 |})
    as (Hinv & _ & Honly & Hdone1); [done|apply image_msg_indices_NoDup|done| |].
  { unfold removal_consistent. simpl. by rewrite selected_images_empty. }
  set (st1 := remove_analyzed entries R _) in *.
  assert (j ∉ indices_to_prune st1) as Hj1.
  { intros [Hj1|(c' & Hc')]%Honly; [done|].
    apply image_entries_from_elem in Hc' as (_ & Ha & _). congruence. }
  destruct (bool_decide (removed st1 < R) && _) eqn:Hpass2; [|done].
  apply andb_true_iff in Hpass2 as [Hless%bool_decide_eq_true _].
  destruct (remove_unanalyzed_spec entries R image_msg_indices_NoDup entries st1)
    as (_ & Hsub & _); [done..|].
  apply Hsub. by eapply Hdone1.
Qed.

End Selection.

Lemma prune_old_images_lookup messages max_images i :
  prune_old_images messages max_images !! i = messages !! i
  ∨ (i ∈ indices_to_prune (select_images_to_prune messages max_images)
     ∧ prune_old_images messages max_images !! i = clear_images <$> messages !! i).
Proof.
  unfold prune_old_images. case_decide; [by left|]. case_decide; [by left|].
  rewrite list_lookup_imap.
  destruct (decide (i ∈ indices_to_prune (select_images_to_prune messages max_images)))
    as [Hin|Hout].
  - right. split; [done|]. by destruct (messages !! i).
  - left. by destruct (messages !! i).
Qed.

Lemma prune_old_images_count messages max_images :
  count_total_images messages > max_images →
  count_total_images (prune_old_images messages max_images)
  = count_total_images messages
    - removed (select_images_to_prune messages max_images).
Proof.
  intros Hover. unfold prune_old_images. rewrite decide_False by lia.
  rewrite (select_images_to_prune_consistent messages max_images).
  case_decide as Hempty.
  - rewrite Hempty, selected_images_empty. lia.
  - apply (count_total_images_cleared _ _ 0).
Qed.

(** C4: over the hard ceiling of 100 images the output of
    [prune_old_images] holds at most 95, and whenever a message with images
    and no later assistant message is changed, every message with images
    and a later assistant message has lost all its images. *)
Theorem prune_old_images_over_hard_limit (messages : list Message) (max_images : Z) :
  max_images <= MAX_IMAGES_PER_REQUEST →
  count_total_images messages > MAX_IMAGES_PER_REQUEST →
  let out := prune_old_images messages max_images in
  count_total_images out <= MAX_IMAGES_PER_REQUEST - 5
  ∧ ∀ i j msg_i msg_j,
      messages !! i = Some msg_i → count_images_in_message msg_i > 0 →
      is_image_analyzed messages i = true →
      messages !! j = Some msg_j →
      is_image_analyzed messages j = false →
      out !! j ≠ Some msg_j →
      ∃ msg_i', out !! i = Some msg_i' ∧ count_images_in_message msg_i' = 0.
Proof.
  intros Hmax Hover out. split.
  - unfold out. rewrite prune_old_images_count by lia.
    destruct (select_images_to_prune_enough messages max_images Hover)
      as [Henough|Hall]; [lia|].
    rewrite (select_images_to_prune_consistent messages max_images).
    unfold image_msg_indices in *.
    rewrite (selected_images_all _ _ 0) by done.
    unfold MAX_IMAGES_PER_REQUEST. lia.
  - intros i j msg_i msg_j Hi Hcount Hanalyzed Hj Hunanalyzed Hchanged.
    destruct (prune_old_images_lookup messages max_images j) as [Hsame|[Hsel _]];
      [by rewrite <- Hj in Hchanged|].
    assert (i ∈ indices_to_prune (select_images_to_prune messages max_images)) as Hisel.
    { eapply (select_images_to_prune_order _ _ i j); [done..|].
      rewrite <- Hanalyzed.
      apply (image_entries_from_intro _ 0 messages i msg_i Hi Hcount). }
    exists (clear_images msg_i). split; [|apply count_images_clear_images].
    unfold out, prune_old_images. rewrite decide_False by lia.
    rewrite decide_False by (intros Hempty; by rewrite Hempty in Hisel).
    rewrite list_lookup_imap, Hi. simpl. by rewrite decide_True.
Qed.

Lemma prune_old_images_over_hard_limit_witness :
  count_total_images (prune_old_images image_heavy_transcript IMAGE_PRUNE_TARGET)
  <= MAX_IMAGES_PER_REQUEST - 5.
Proof.
  refine (proj1 (prune_old_images_over_hard_limit image_heavy_transcript
                   IMAGE_PRUNE_TARGET _ _)).
  - vm_compute. discriminate.
  - vm_compute. reflexivity.
Defined.

(** On that transcript the 60 analyzed images do not suffice, so the
    evictor goes on to the oldest unanalyzed message; one image is left. *)
Lemma prune_old_images_image_heavy_transcript :
  count_total_images image_heavy_transcript = 111
  ∧ count_images_in_message <$> prune_old_images image_heavy_transcript IMAGE_PRUNE_TARGET
    = [0; 0; 0; 1].
Proof. split; vm_compute; reflexivity. Qed.

(** * Cache-breakpoint selector *)

Section IndicesWhere.
Context (p : Message → bool).

Lemma indices_where_from_app start l1 l2 :
  indices_where_from p start (l1 ++ l2)
  = indices_where_from p start l1
    ++ indices_where_from p (start + length l1) l2.
Proof.
  revert start. induction l1 as [|m l1 IH]; intros start; simpl.
  - by rewrite Nat.add_0_r.
  - rewrite IH, <- (assoc_L (++)). do 3 f_equal. lia.
Qed.

Lemma indices_where_from_length start l :
  length (indices_where_from p start l) = length (filter (λ m, p m = true) l).
Proof.
  revert start. induction l as [|m l IH]; intros start; [done|]. simpl.
  rewrite length_app, IH.
  destruct (p m) eqn:Hp; simpl.
  - by rewrite filter_cons_True.
  - rewrite filter_cons_False; [done|]. by rewrite Hp.
Qed.

Lemma indices_where_from_bounds start l i :
  i ∈ indices_where_from p start l → (start ≤ i < start + length l)%nat.
Proof.
  revert start. induction l as [|m l IH]; intros start; simpl.
  - by intros ?%elem_of_nil.
  - intros [Hi|Hi%IH]%elem_of_app; [|lia].
    destruct (p m); [|by apply elem_of_nil in Hi].
    apply list_elem_of_singleton in Hi. lia.
Qed.

Lemma indices_where_from_lookup start l i :
  i ∈ indices_where_from p start l →
  ∃ m, l !! (i - start)%nat = Some m ∧ p m = true.
Proof.
  revert start. induction l as [|m l IH]; intros start; simpl.
  - by intros ?%elem_of_nil.
  - intros [Hi|Hi]%elem_of_app.
    + destruct (p m) eqn:Hp; [|by apply elem_of_nil in Hi].
      apply list_elem_of_singleton in Hi as ->. exists m.
      by rewrite Nat.sub_diag.
    + pose proof (indices_where_from_bounds _ _ _ Hi).
      destruct (IH _ Hi) as (m' & Hm' & Hp). exists m'. split; [|done].
      by replace (i - start)%nat with (S (i - S start)) by lia.
Qed.

(** The positions split around a position [i] that satisfies [p]. *)
Lemma indices_where_split l i m :
  l !! i = Some m → p m = true →
  indices_where p l
  = indices_where p (take i l) ++ [i] ++ indices_where_from p (S i) (drop (S i) l).
Proof.
  intros Hm Hp. unfold indices_where.
  rewrite <- (take_drop_middle l i m Hm) at 1.
  rewrite indices_where_from_app. simpl. rewrite Hp.
  apply lookup_lt_Some in Hm.
  by rewrite length_take_le by lia.
Qed.

(** One of the first two positions has fewer than two before it. *)
Lemma indices_where_take_2 l i :
  i ∈ take 2 (indices_where p l) →
  ∃ m, l !! i = Some m ∧ p m = true
       ∧ (length (filter (λ m, p m = true) (take i l)) < 2)%nat.
Proof.
  intros Hi. pose proof (subseteq_take _ _ _ Hi) as Hi'.
  destruct (indices_where_from_lookup _ _ _ Hi') as (m & Hm & Hp).
  rewrite Nat.sub_0_r in Hm. exists m. do 2 (split; [done|]).
  rewrite <- (indices_where_from_length 0).
  destruct (decide (length (indices_where_from p 0 (take i l)) < 2)%nat)
    as [|Hge]; [done|]. exfalso.
  rewrite (indices_where_split l i m Hm Hp) in Hi.
  rewrite take_app_le in Hi by (unfold indices_where; lia).
  apply subseteq_take, indices_where_from_bounds in Hi.
  apply lookup_lt_Some in Hm. rewrite length_take_le in Hi by lia. lia.
Qed.

(** One of the last two positions has fewer than two after it. *)
Lemma indices_where_last_two l i :
  i ∈ last_two (indices_where p l) →
  ∃ m, l !! i = Some m ∧ p m = true
       ∧ (length (filter (λ m, p m = true) (drop (S i) l)) < 2)%nat.
Proof.
  unfold last_two. intros Hi. pose proof (subseteq_drop _ _ _ Hi) as Hi'.
  destruct (indices_where_from_lookup _ _ _ Hi') as (m & Hm & Hp).
  rewrite Nat.sub_0_r in Hm. exists m. do 2 (split; [done|]).
  rewrite <- (indices_where_from_length (S i)).
  destruct (decide (length (indices_where_from p (S i) (drop (S i) l)) < 2)%nat)
    as [|Hge]; [done|]. exfalso.
  rewrite (indices_where_split l i m Hm Hp) in Hi.
  rewrite !length_app in Hi. simpl in Hi.
  rewrite drop_app_ge in Hi by lia.
  match type of Hi with
  | _ ∈ drop ?n _ =>
      replace n with (S (length (indices_where_from p (S i) (drop (S i) l)) - 2))
        in Hi by lia
  end.
  simpl in Hi.
  apply subseteq_drop, indices_where_from_bounds in Hi. lia.
Qed.

(** Conversely, a position that satisfies [p] with fewer than two such
    positions before it is one of the first two. *)
Lemma indices_where_take_2_intro l i m :
  l !! i = Some m → p m = true →
  (length (filter (λ m, p m = true) (take i l)) < 2)%nat →
  i ∈ take 2 (indices_where p l).
Proof.
  intros Hm Hp Hlen. rewrite <- (indices_where_from_length 0) in Hlen.
  rewrite (indices_where_split l i m Hm Hp).
  apply (list_elem_of_lookup_2 _ (length (indices_where p (take i l)))).
  rewrite lookup_take_lt by (unfold indices_where; lia).
  by rewrite lookup_app_r, Nat.sub_diag by lia.
Qed.

(** And one with fewer than two such positions after it is one of the
    last two. *)
Lemma indices_where_last_two_intro l i m :
  l !! i = Some m → p m = true →
  (length (filter (λ m, p m = true) (drop (S i) l)) < 2)%nat →
  i ∈ last_two (indices_where p l).
Proof.
  intros Hm Hp Hlen. rewrite <- (indices_where_from_length (S i)) in Hlen.
  unfold last_two. rewrite (indices_where_split l i m Hm Hp).
  set (before := indices_where p (take i l)) in *.
  set (after := indices_where_from p (S i) (drop (S i) l)) in *.
  rewrite !length_app. simpl.
  apply (list_elem_of_lookup_2
           _ (length before - (length before + S (length after) - 2))).
  rewrite lookup_drop.
  replace (length before + S (length after) - 2
           + (length before - (length before + S (length after) - 2)))%nat
    with (length before) by lia.
  by rewrite lookup_app_r, Nat.sub_diag by lia.
Qed.

End IndicesWhere.

Lemma last_two_length {A} (l : list A) : (length (last_two l) ≤ 2)%nat.
Proof. unfold last_two. rewrite length_drop. lia. Qed.

Lemma size_list_to_set_le (l : list nat) : (size (list_to_set (C := gset nat) l) ≤ length l)%nat.
Proof.
  induction l as [|x l IH]; simpl.
  - done.
  - rewrite size_union_alt, size_singleton.
    assert (size (list_to_set (C := gset nat) l ∖ {[x]}) ≤ size (list_to_set (C := gset nat) l))%nat
      as Hs.
    { apply subseteq_size. intros y. rewrite elem_of_difference. tauto. }
    lia.
Qed.

(** At most four positions are selected. *)
Lemma indices_to_cache_size messages : (size (indices_to_cache messages) ≤ 4)%nat.
Proof.
  unfold indices_to_cache.
  pose proof (size_list_to_set_le (take 2 (system_indices messages))) as H1.
  pose proof (size_list_to_set_le (last_two (non_system_indices messages))) as H2.
  rewrite length_take in H1. pose proof (last_two_length (non_system_indices messages)).
  rewrite size_union_alt.
  assert (size (list_to_set (C := gset nat) (last_two (non_system_indices messages))
                 ∖ list_to_set (take 2 (system_indices messages)))
          ≤ size (list_to_set (C := gset nat) (last_two (non_system_indices messages))))%nat
    as Hs.
  { apply subseteq_size. intros y. rewrite elem_of_difference. tauto. }
  lia.
Qed.

(** The selected positions are those of the first two system messages and
    of the last two other messages. *)
Lemma indices_to_cache_spec messages i :
  i ∈ indices_to_cache messages →
  ∃ msg, messages !! i = Some msg
    ∧ ((role msg = "system"
        ∧ (length (filter (λ m, role m = "system") (take i messages)) < 2)%nat)
       ∨ (role msg ≠ "system"
          ∧ (length (filter (λ m, role m ≠ "system") (drop (S i) messages)) < 2)%nat)).
Proof.
  unfold indices_to_cache.
  intros [Hi|Hi]%elem_of_union; apply elem_of_list_to_set in Hi.
  - apply indices_where_take_2 in Hi as (msg & Hmsg & Hp & Hlen).
    exists msg. split; [done|]. left.
    apply bool_decide_eq_true in Hp. split; [done|].
    erewrite list_filter_iff; [exact Hlen|].
    intros m. unfold is_system. by rewrite bool_decide_eq_true.
  - apply indices_where_last_two in Hi as (msg & Hmsg & Hp & Hlen).
    exists msg. split; [done|]. right.
    apply negb_true_iff, bool_decide_eq_false in Hp. split; [done|].
    erewrite list_filter_iff; [exact Hlen|].
    intros m. unfold is_system. by rewrite negb_true_iff, bool_decide_eq_false.
Qed.

(** Conversely, every cache breakpoint is selected. *)
Lemma indices_to_cache_intro messages i msg :
  messages !! i = Some msg → breakpoint_position messages i msg →
  i ∈ indices_to_cache messages.
Proof.
  intros Hmsg [[Hrole Hlen]|[Hrole Hlen]]; unfold indices_to_cache;
    apply elem_of_union; [left|right]; apply elem_of_list_to_set.
  - apply (indices_where_take_2_intro _ _ _ msg Hmsg).
    + unfold is_system. by apply bool_decide_eq_true.
    + erewrite list_filter_iff; [exact Hlen|].
      intros m. unfold is_system. by rewrite bool_decide_eq_true.
  - apply (indices_where_last_two_intro _ _ _ msg Hmsg).
    + unfold is_system. by apply negb_true_iff, bool_decide_eq_false.
    + erewrite list_filter_iff; [exact Hlen|].
      intros m. unfold is_system. by rewrite negb_true_iff, bool_decide_eq_false.
Qed.

Lemma indices_where_from_ext p start l l' :
  Forall2 (λ a b, p a = p b) l l' →
  indices_where_from p start l = indices_where_from p start l'.
Proof.
  intros Hll. revert start. induction Hll as [|a b l l' Hab _ IH]; intros start; [done|].
  simpl. by rewrite Hab, IH.
Qed.

(** ** One message *)

Lemma _add_cache_control_to_message_role msg cc :
  role (_add_cache_control_to_message msg cc) = role msg.
Proof.
  unfold _add_cache_control_to_message.
  destruct (content msg); repeat case_match; done.
Qed.

(** A message whose content is the empty string is returned as it is. *)
Lemma _add_cache_control_to_message_empty msg cc :
  content msg = CStr "" → _add_cache_control_to_message msg cc = msg.
Proof. intros Hc. unfold _add_cache_control_to_message. by rewrite Hc. Qed.

Lemma existsb_lookup {A} (f : A → bool) (l : list A) i x :
  l !! i = Some x → f x = true → existsb f l = true.
Proof.
  intros Hx Hf. apply existsb_exists. exists x. split; [|done].
  apply list_elem_of_In. by eapply list_elem_of_lookup_2.
Qed.

(** The backward scan either changes nothing or leaves an annotated part. *)
Lemma mark_last_text_part_cases parts cc n :
  mark_last_text_part parts cc n = parts
  ∨ existsb part_has_cache (mark_last_text_part parts cc n) = true.
Proof.
  induction n as [|n IH]; simpl; [by left|].
  destruct (parts !! n) as [[d|raw]|] eqn:Hn; [|done..].
  destruct (is_nonempty_text_part (PDict d)); [|done].
  right. apply (existsb_lookup _ _ n (PDict (with_cache_control d cc))).
  - apply list_lookup_insert_eq. by eapply lookup_lt_Some.
  - done.
Qed.

Lemma with_content_same msg : with_content msg (content msg) = msg.
Proof. by destruct msg. Qed.

(** Annotating an annotated message changes nothing. *)
Lemma _add_cache_control_to_message_idempotent msg cc :
  _add_cache_control_to_message (_add_cache_control_to_message msg cc) cc
  = _add_cache_control_to_message msg cc.
Proof.
  assert (∃ msg', _add_cache_control_to_message msg cc = msg'
                  ∧ _add_cache_control_to_message msg' cc = msg') as (msg' & -> & ->);
    [|done].
  unfold _add_cache_control_to_message at 1.
  destruct (content msg) as [|s|parts] eqn:Hc.
  - exists msg. split; [done|].
    unfold _add_cache_control_to_message. by rewrite Hc.
  - case_decide as Hs; eexists; (split; [done|]).
    + unfold _add_cache_control_to_message. rewrite Hc. by rewrite decide_True.
    + done.
  - destruct (existsb part_has_cache parts) eqn:Hex; eexists; (split; [done|]).
    + unfold _add_cache_control_to_message. by rewrite Hc, Hex.
    + destruct (mark_last_text_part_cases parts cc (length parts)) as [Heq|Hmarked].
      * rewrite Heq, <- Hc, with_content_same.
        unfold _add_cache_control_to_message. rewrite Hc, Hex, Heq.
        by rewrite <- Hc, with_content_same.
      * unfold _add_cache_control_to_message. simpl. by rewrite Hmarked.
Qed.

(** The backward scan annotates a part as soon as a non-empty text part
    lies below its start. *)
Lemma mark_last_text_part_annotates parts cc n k part :
  (k < n)%nat → parts !! k = Some part → is_nonempty_text_part part = true →
  existsb part_has_cache (mark_last_text_part parts cc n) = true.
Proof.
  induction n as [|n IH]; [lia|]. intros Hk Hpart Htext. simpl.
  destruct (decide (k = n)) as [->|Hne].
  - rewrite Hpart. destruct part as [d|raw]; [|done]. rewrite Htext.
    apply (existsb_lookup _ _ n (PDict (with_cache_control d cc))); [|done].
    apply list_lookup_insert_eq. by eapply lookup_lt_Some.
  - destruct (parts !! n) as [[d|raw]|] eqn:Hn; [|apply IH; (done || lia)..].
    destruct (is_nonempty_text_part (PDict d)); [|apply IH; (done || lia)].
    apply (existsb_lookup _ _ n (PDict (with_cache_control d cc))); [|done].
    apply list_lookup_insert_eq. by eapply lookup_lt_Some.
Qed.

(** A message that can be annotated is annotated. *)
Lemma _add_cache_control_to_message_annotates msg cc :
  can_annotate msg = true →
  has_cache_annotation (_add_cache_control_to_message msg cc) = true.
Proof.
  unfold can_annotate, has_cache_annotation, _add_cache_control_to_message.
  destruct (content msg) as [|s|parts] eqn:Hc; [done| |].
  - intros Hs%bool_decide_eq_true. by rewrite decide_False.
  - intros (part & Hin & Htext)%existsb_exists.
    apply list_elem_of_In, list_elem_of_lookup_1 in Hin as [k Hk].
    destruct (existsb part_has_cache parts) eqn:Hex; [by rewrite Hc|]. simpl.
    apply (mark_last_text_part_annotates _ _ _ k part); [|done..].
    by eapply lookup_lt_Some.
Qed.

(** The backward scan annotates one part at most, with the annotation it
    is given. *)
Lemma mark_last_text_part_one parts cc n :
  existsb part_has_cache parts = false →
  mark_last_text_part parts cc n = parts
  ∨ ∃ k d, parts !! k = Some (PDict d)
      ∧ is_nonempty_text_part (PDict d) = true
      ∧ mark_last_text_part parts cc n = <[k := PDict (with_cache_control d cc)]> parts.
Proof.
  intros _. induction n as [|n IH]; simpl; [by left|].
  destruct (parts !! n) as [[d|raw]|] eqn:Hn; [|done..].
  destruct (is_nonempty_text_part (PDict d)) eqn:Htext; [|done].
  right. by exists n, d.
Qed.

(** ** The transcript *)

Lemma _apply_caching_unfold messages :
  _apply_caching messages true
  = imap (λ i msg, if decide (i ∈ indices_to_cache messages)
                   then _add_cache_control_to_message msg ephemeral
                   else msg) messages.
Proof. unfold _apply_caching. simpl. case_bool_decide as Hnil; [by subst|done]. Qed.

Lemma _apply_caching_lookup messages i :
  _apply_caching messages true !! i
  = (λ msg, if decide (i ∈ indices_to_cache messages)
            then _add_cache_control_to_message msg ephemeral
            else msg) <$> messages !! i.
Proof. by rewrite _apply_caching_unfold, list_lookup_imap. Qed.

Lemma _apply_caching_length messages enabled :
  length (_apply_caching messages enabled) = length messages.
Proof. unfold _apply_caching. case_match; [done|]. by rewrite length_imap. Qed.

(** Annotation keeps the roles, hence the selected positions. *)
Lemma indices_to_cache_apply_caching messages :
  indices_to_cache (_apply_caching messages true) = indices_to_cache messages.
Proof.
  assert (∀ p : Message → bool,
            (∀ msg, p (_add_cache_control_to_message msg ephemeral) = p msg) →
            indices_where p (_apply_caching messages true) = indices_where p messages)
    as Hsame.
  { intros p Hp. symmetry. apply indices_where_from_ext.
    apply Forall2_same_length_lookup_2; [by rewrite _apply_caching_length|].
    intros i a b Ha. rewrite _apply_caching_lookup, Ha. simpl.
    intros [= <-]. by case_decide. }
  unfold indices_to_cache, system_indices, non_system_indices.
  rewrite !Hsame; [done|..]; intros msg; unfold is_system;
    by rewrite _add_cache_control_to_message_role.
Qed.

Lemma _apply_caching_idempotent messages :
  _apply_caching (_apply_caching messages true) true = _apply_caching messages true.
Proof.
  apply list_eq. intros i.
  rewrite _apply_caching_lookup, indices_to_cache_apply_caching.
  rewrite _apply_caching_lookup.
  destruct (messages !! i) as [msg|]; [|done]. simpl.
  case_decide; [|done]. by rewrite _add_cache_control_to_message_idempotent.
Qed.

Lemma existsb_false_Forall {A} (f : A → bool) (l : list A) :
  existsb f l = false → Forall (λ x, ¬ f x = true) l.
Proof.
  induction l as [|x l IH]; [done|]. simpl.
  intros [Hx Hl]%orb_false_iff. constructor; [congruence|by apply IH].
Qed.

Lemma filter_unannotated (l : list Part) :
  Forall (λ part, ¬ part_has_cache part = true) l →
  filter (λ part, part_has_cache part = true) l = [].
Proof.
  induction 1 as [|x l Hx _ IH]; [done|]. by rewrite filter_cons_False, IH.
Qed.

(** A message without annotation has no annotated part; after the
    annotation it has one at most, annotated with what was given. *)
Lemma _add_cache_control_to_message_one msg cc :
  has_cache_annotation msg = false →
  annotated_parts msg = []
  ∧ (annotated_parts (_add_cache_control_to_message msg cc) = []
     ∨ ∃ d, annotated_parts (_add_cache_control_to_message msg cc)
            = [PDict (with_cache_control d cc)]).
Proof.
  unfold has_cache_annotation, annotated_parts, _add_cache_control_to_message.
  destruct (content msg) as [|s|parts] eqn:Hc; rewrite ?Hc.
  - intros _. split; [done|]. left. by rewrite ?Hc.
  - intros _. split; [done|]. case_decide; [left; by rewrite ?Hc|].
    right. by exists (text_part s).
  - intros Hnone. rewrite Hnone. simpl.
    pose proof (existsb_false_Forall _ _ Hnone) as Hparts.
    split; [by apply filter_unannotated|].
    destruct (mark_last_text_part_one parts cc (length parts) Hnone)
      as [->|(k & d & Hk & _ & ->)]; [left; by apply filter_unannotated|].
    right. exists d.
    rewrite insert_take_drop by (by eapply lookup_lt_Some).
    rewrite filter_app, filter_cons_True by done.
    rewrite !filter_unannotated; [done|by apply Forall_drop|by apply Forall_take].
Qed.

(** C7: with caching enabled the selector attaches its annotation at the
    cache breakpoints of the transcript, which are the first two system
    messages and the last two messages of another role.  It changes at
    most four messages, each of them at a breakpoint; it leaves a message
    whose content is the empty string as it is; and it returns its own
    output unchanged.  Every message at a breakpoint is passed through
    [_add_cache_control_to_message]: if it can be annotated, it carries an
    annotation in the output, and a non-empty string becomes one text part
    with [cache_control] set.  An annotation that the input did not have
    appears at a breakpoint only, on one part of the message, with the
    value [ephemeral]; so at most four messages are newly annotated. *)
Theorem apply_caching_breakpoints (messages : list Message) :
  let out := _apply_caching messages true in
  (length (filter (λ i, out !! i ≠ messages !! i) (seq 0 (length messages))) ≤ 4)%nat
  ∧ (∀ i msg, messages !! i = Some msg → out !! i ≠ Some msg →
       (role msg = "system"
        ∧ (length (filter (λ m, role m = "system") (take i messages)) < 2)%nat)
       ∨ (role msg ≠ "system"
          ∧ (length (filter (λ m, role m ≠ "system") (drop (S i) messages)) < 2)%nat))
  ∧ (∀ i msg, messages !! i = Some msg → content msg = CStr "" →
       out !! i = Some msg)
  ∧ _apply_caching out true = out
  ∧ (∀ i msg, messages !! i = Some msg → breakpoint_position messages i msg →
       out !! i = Some (_add_cache_control_to_message msg ephemeral))
  ∧ (∀ i msg, messages !! i = Some msg → breakpoint_position messages i msg →
       can_annotate msg = true →
       ∃ msg', out !! i = Some msg' ∧ has_cache_annotation msg' = true)
  ∧ (∀ i msg s, messages !! i = Some msg → breakpoint_position messages i msg →
       content msg = CStr s → s ≠ "" →
       out !! i
       = Some (with_content msg
                 (CParts [PDict (with_cache_control (text_part s) ephemeral)])))
  ∧ (∀ i msg msg', messages !! i = Some msg → out !! i = Some msg' →
       has_cache_annotation msg = false → has_cache_annotation msg' = true →
       breakpoint_position messages i msg
       ∧ ∃ d, annotated_parts msg' = [PDict d] ∧ cache_control d = Some ephemeral)
  ∧ (length (filter (λ i, has_cache_annotation <$> out !! i = Some true
                          ∧ has_cache_annotation <$> messages !! i = Some false)
                    (seq 0 (length messages))) ≤ 4)%nat.
Proof.
  intros out.
  assert (∀ i, out !! i ≠ messages !! i → i ∈ indices_to_cache messages) as Hchanged.
  { intros i Hi. unfold out in Hi. rewrite _apply_caching_lookup in Hi.
    destruct (messages !! i); [|done]. simpl in Hi. by case_decide. }
  assert (∀ i msg, messages !! i = Some msg → breakpoint_position messages i msg →
            out !! i = Some (_add_cache_control_to_message msg ephemeral)) as Hselected.
  { intros i msg Hmsg Hbreak. unfold out.
    rewrite _apply_caching_lookup, Hmsg. simpl.
    by rewrite decide_True by (by eapply indices_to_cache_intro). }
  assert (∀ i msg, messages !! i = Some msg → i ∈ indices_to_cache messages →
            breakpoint_position messages i msg) as Hbreak.
  { intros i msg Hmsg Hi.
    destruct (indices_to_cache_spec messages i Hi) as (msg' & Hmsg' & Hsel).
    by simplify_eq. }
  assert (∀ (P : nat → Prop) `{!∀ i, Decision (P i)},
            (∀ i, P i → out !! i ≠ messages !! i) →
            (length (filter P (seq 0 (length messages))) ≤ 4)%nat) as Hfour.
  { intros P ? HP. etrans; [|apply indices_to_cache_size].
    unfold size, set_size. simpl. apply submseteq_length, NoDup_submseteq.
    - apply NoDup_filter, NoDup_seq.
    - intros i [Hi _]%list_elem_of_filter. apply elem_of_elements.
      by apply Hchanged, HP. }
  split_and!.
  - by apply Hfour.
  - intros i msg Hmsg Hout. apply (Hbreak i msg Hmsg), Hchanged. by rewrite Hmsg.
  - intros i msg Hmsg Hempty. unfold out.
    rewrite _apply_caching_lookup, Hmsg. simpl.
    case_decide; [|done]. by rewrite _add_cache_control_to_message_empty.
  - apply _apply_caching_idempotent.
  - done.
  - intros i msg Hmsg Hpos Hcan. eexists. split; [by apply Hselected|].
    by apply _add_cache_control_to_message_annotates.
  - intros i msg s Hmsg Hpos Hc Hs. rewrite (Hselected i msg Hmsg Hpos).
    unfold _add_cache_control_to_message. rewrite Hc. by rewrite decide_False.
  - intros i msg msg' Hmsg Hout Hbefore Hafter.
    assert (i ∈ indices_to_cache messages) as Hi.
    { apply Hchanged. rewrite Hmsg, Hout. intros [= ->]. congruence. }
    split; [by apply Hbreak|].
    unfold out in Hout. rewrite _apply_caching_lookup, Hmsg in Hout.
    simpl in Hout. rewrite decide_True in Hout by done. simplify_eq.
    destruct (_add_cache_control_to_message_one msg ephemeral Hbefore)
      as [_ [Hnone|[d ->]]]; [|by exists (with_cache_control d ephemeral)].
    exfalso. unfold has_cache_annotation, annotated_parts in *.
    destruct (content (_add_cache_control_to_message msg ephemeral)); [done..|].
    apply existsb_exists in Hafter as (part & Hin%list_elem_of_In & Hpart).
    by eapply (filter_nil_not_elem_of (λ part, part_has_cache part = true)
                 parts part Hnone).
  - apply Hfour. intros i [Hout Hin] Heq. rewrite Heq in Hout. congruence.
Qed.

Lemma apply_caching_breakpoints_witness :
  ∃ msg', _apply_caching cached_transcript true !! 0%nat = Some msg'
          ∧ has_cache_annotation msg' = true.
Proof.
  refine (proj1 (proj2 (proj2 (proj2 (proj2 (proj2
            (apply_caching_breakpoints cached_transcript))))))
            0%nat (system_message "You are an agent.") _ _ _).
  - reflexivity.
  - left. split; [reflexivity|]. simpl. lia.
  - reflexivity.
Defined.

(** On that transcript the system message is annotated; of the last two
    messages of another role, both of empty content, none is. *)
Lemma apply_caching_cached_transcript :
  _apply_caching cached_transcript true
  = [ with_content (system_message "You are an agent.")
        (CParts [PDict (with_cache_control (text_part "You are an agent.") ephemeral)]);
      user_message (CStr "Fix the failing test.");
      assistant_message "" [];
      user_message (CStr "") ].
Proof. vm_compute. reflexivity. Qed.

(** * AI compactor: failure of the nested call *)

(** C2: when the summarization call of [run_compaction] raises or returns
    an empty text, the transcript that comes back is the input. *)
Theorem run_compaction_failure_returns_input {W} (env : Env W)
    (messages : list Message) (system_prompt : string)
    (target_tokens : option Z) (w : W) :
  summarization_failed
    (chat env
       (compaction_request env messages
          (_find_messages_to_compact messages
             (default default_target_tokens target_tokens))) w).1 →
  (run_compaction env messages system_prompt target_tokens w).1 = messages.
Proof.
  intros Hfail. unfold run_compaction.
  destruct (_find_messages_to_compact _ _) as [|i ids] eqn:Hids; [done|].
  destruct (chat env _ w) as [[response|e] w'] eqn:Hchat; simpl in *; [|done].
  by rewrite decide_True.
Qed.

Lemma run_compaction_failure_returns_input_witness :
  (run_compaction (failing_env (LLMError "api_error" "boom")) short_transcript
     "system prompt" (Some 10) O).1 = short_transcript.
Proof.
  apply (run_compaction_failure_returns_input
           (failing_env (LLMError "api_error" "boom"))).
  vm_compute. exact I.
Defined.

(** The witness transcript does reach the nested call: one call is made. *)
Lemma short_transcript_calls_transport :
  (run_compaction (failing_env (LLMError "api_error" "boom")) short_transcript
     "system prompt" (Some 10) O).2 = 1%nat.
Proof. vm_compute. reflexivity. Qed.

(** * AI compactor: the boundary of the kept suffix *)

Lemma filter_all {A} (P : A → Prop) `{!∀ x, Decision (P x)} (l : list A) :
  Forall P l → filter P l = l.
Proof.
  induction 1 as [|x l Hx _ IH]; [done|]. by rewrite filter_cons_True, IH.
Qed.

Lemma filter_none {A} (P : A → Prop) `{!∀ x, Decision (P x)} (l : list A) :
  Forall (λ x, ¬ P x) l → filter P l = [].
Proof.
  induction 1 as [|x l Hx _ IH]; [done|]. by rewrite filter_cons_False, IH.
Qed.

(** [[l[i] for i in range(start, len(l))]] is [l[start:]]. *)
Lemma omap_lookup_seq {A} (l : list A) start :
  omap (λ i, l !! i) (seq start (length l - start)) = drop start l.
Proof.
  remember (length l - start)%nat as n eqn:Hn.
  revert start Hn. induction n as [|n IH]; intros start Hn; simpl.
  - by rewrite drop_ge by lia.
  - destruct (lookup_lt_is_Some_2 l start) as [x Hx]; [lia|].
    rewrite Hx, (drop_S _ _ _ Hx), IH; [done|lia].
Qed.

(** What is kept is the suffix that starts at [start]. *)
Lemma messages_to_keep_suffix (messages : list Message) start :
  (PROTECTED_MESSAGE_COUNT ≤ start ≤ length messages)%nat →
  omap (λ i, messages !! i)
       (filter (λ i, i ∉ (list_to_set (range_from_protected start) : gset nat))
               (seq PROTECTED_MESSAGE_COUNT (length messages - PROTECTED_MESSAGE_COUNT)))
  = drop start messages.
Proof.
  intros Hstart. unfold range_from_protected.
  replace (length messages - PROTECTED_MESSAGE_COUNT)%nat
    with ((start - PROTECTED_MESSAGE_COUNT) + (length messages - start))%nat by lia.
  rewrite seq_app, filter_app.
  replace (PROTECTED_MESSAGE_COUNT + (start - PROTECTED_MESSAGE_COUNT))%nat
    with start by lia.
  rewrite filter_none, filter_all; simpl.
  - apply omap_lookup_seq.
  - apply Forall_seq. intros j Hj. rewrite elem_of_list_to_set, elem_of_seq. lia.
  - apply Forall_seq. intros j Hj Hout. apply Hout.
    rewrite elem_of_list_to_set, elem_of_seq. lia.
Qed.

Lemma find_keep_start_elem messages max_kept_tokens candidates start :
  find_keep_start messages max_kept_tokens candidates = Some start →
  start ∈ candidates.
Proof.
  induction candidates as [|c candidates IH]; [done|]. simpl.
  case_decide; [intros [= ->]; by left|]. intros ?%IH. by right.
Qed.

(** The block to compact is empty or ends just before an assistant
    message of the compactable region. *)
Lemma _find_messages_to_compact_boundary messages target_tokens :
  _find_messages_to_compact messages target_tokens = []
  ∨ ∃ start a,
      (PROTECTED_MESSAGE_COUNT ≤ start)%nat
      ∧ messages !! start = Some a ∧ role a = "assistant"
      ∧ _find_messages_to_compact messages target_tokens = range_from_protected start.
Proof.
  unfold _find_messages_to_compact.
  case_decide; [by left|].
  set (assistant_indices := _ <$> indices_where is_assistant _).
  case_decide; [by left|].
  assert (∀ start, start ∈ assistant_indices →
            ∃ a, (PROTECTED_MESSAGE_COUNT ≤ start)%nat
                 ∧ messages !! start = Some a ∧ role a = "assistant") as Hassistant.
  { intros start (i & -> & Hi)%list_elem_of_fmap.
    apply indices_where_from_lookup in Hi as (a & Ha & Hrole).
    rewrite Nat.sub_0_r, lookup_drop in Ha.
    exists a. split; [lia|]. split; [done|].
    by apply bool_decide_eq_true in Hrole. }
  destruct (find_keep_start _ _ _) as [start|] eqn:Hfind.
  - apply find_keep_start_elem, subseteq_take, Hassistant in Hfind as (a & ? & ? & ?).
    right. by exists start, a.
  - destruct (assistant_indices !! _) as [start|] eqn:Hlast; [|by left].
    apply list_elem_of_lookup_2, Hassistant in Hlast as (a & ? & ? & ?).
    right. by exists start, a.
Qed.

Section Repair.
Context {W : Type} (env : Env W).

Lemma repair_message_not_tool valid_ids msg :
  role msg ≠ "tool" → repair_message env valid_ids msg = [msg].
Proof. intros Hrole. unfold repair_message. by rewrite decide_False. Qed.

Lemma repair_message_length valid_ids messages :
  (length (messages ≫= repair_message env valid_ids) ≤ length messages)%nat.
Proof.
  induction messages as [|msg messages IH]; [done|].
  rewrite bind_cons, length_app. simpl.
  assert (length (repair_message env valid_ids msg) ≤ 1)%nat; [|lia].
  unfold repair_message. repeat case_match; simpl; lia.
Qed.

(** C1: when [run_compaction] returns a transcript other than its input,
    the output is a prefix of at most [PROTECTED_MESSAGE_COUNT] messages,
    the user message that wraps the summary, and then a message of role
    [assistant], which is the message of the input at the start of the
    kept suffix. *)
Theorem run_compaction_boundary (messages : list Message) (system_prompt : string)
    (target_tokens : option Z) (w : W) :
  (run_compaction env messages system_prompt target_tokens w).1 ≠ messages →
  ∃ prefix summary a rest start,
    (run_compaction env messages system_prompt target_tokens w).1
      = prefix ++ summary_message summary :: a :: rest
    ∧ (length prefix ≤ PROTECTED_MESSAGE_COUNT)%nat
    ∧ role a = "assistant"
    ∧ (PROTECTED_MESSAGE_COUNT < start)%nat
    ∧ messages !! start = Some a.
Proof.
  unfold run_compaction.
  set (target := default default_target_tokens target_tokens).
  destruct (_find_messages_to_compact_boundary messages target)
    as [->|(start & a & Hstart & Ha & Hrole & ->)]; [done|].
  destruct (range_from_protected start) as [|i ids] eqn:Hrange; [done|].
  rewrite <- Hrange.
  assert (PROTECTED_MESSAGE_COUNT < start)%nat as Hlt.
  { unfold range_from_protected in Hrange.
    destruct (start - PROTECTED_MESSAGE_COUNT)%nat eqn:?; [done|lia]. }
  destruct (chat env _ w) as [[response|e] w']; simpl; [|done].
  case_decide as Hsummary; [done|]. intros _.
  pose proof (lookup_lt_Some _ _ _ Ha) as Hlen.
  rewrite messages_to_keep_suffix by lia.
  rewrite (drop_S _ _ _ Ha).
  unfold _remove_orphaned_tool_messages.
  set (valid_ids := valid_tool_call_ids _).
  rewrite bind_app, !bind_cons.
  rewrite (repair_message_not_tool _ (summary_message _)) by done.
  rewrite (repair_message_not_tool _ a) by (by rewrite Hrole).
  eexists _, (text response), a, _, start. split; [done|].
  split; [|done].
  etrans; [apply repair_message_length|]. rewrite length_take. lia.
Qed.

End Repair.

Lemma run_compaction_boundary_witness :
  ∃ prefix summary a rest start,
    (run_compaction summarizing_env short_transcript "system prompt" (Some 10) O).1
      = prefix ++ summary_message summary :: a :: rest
    ∧ (length prefix ≤ PROTECTED_MESSAGE_COUNT)%nat
    ∧ role a = "assistant"
    ∧ (PROTECTED_MESSAGE_COUNT < start)%nat
    ∧ short_transcript !! start = Some a.
Proof.
  apply (run_compaction_boundary summarizing_env short_transcript
           "system prompt" (Some 10) O).
  vm_compute. discriminate.
Defined.

(** What compaction makes of the short transcript: the third message is
    replaced by the summary, and the first assistant message follows it. *)
Lemma run_compaction_short_transcript :
  (run_compaction summarizing_env short_transcript "system prompt" (Some 10) O).1
  = [ system_message "You are an agent.";
      user_message (CStr "Fix the failing test.");
      summary_message "Progress so far: the test was fixed.";
      assistant_message "I will look at the tests." [];
      assistant_message "The test passes now." [] ].
Proof. vm_compute. reflexivity. Qed.

(** * Turn-control loop *)

(** ** Tool results *)

(** When no tool result is flagged invalid, the tool messages are appended
    in call order with nothing in between. *)
Lemma append_tool_results_all_valid messages tool_results :
  Forall (λ tool_result, tr_invalid tool_result = false) tool_results →
  append_tool_results messages tool_results
  = messages ++ (tool_message <$> tool_results).
Proof.
  unfold append_tool_results. intros Hvalid. revert messages.
  induction Hvalid as [|tool_result tool_results Hv _ IH]; intros messages; simpl.
  - by rewrite app_nil_r.
  - by rewrite Hv, IH, <- (assoc_L (++)).
Qed.

(** A result flagged invalid is followed at once by a user message. *)
Lemma append_tool_results_invalid messages tool_result tool_results :
  tr_invalid tool_result = true →
  append_tool_results messages (tool_result :: tool_results)
  = append_tool_results
      (messages ++ [tool_message tool_result; invalid_parameters_message tool_result])
      tool_results.
Proof.
  intros Hinvalid. unfold append_tool_results. simpl.
  by rewrite Hinvalid, <- (assoc_L (++)).
Qed.

(** C3, at the input where the code departs from it: the response asks
    for two tools and the first call has invalid parameters.  After the
    turn the transcript ends with the assistant message, the first tool
    message, a user message, and only then the second tool message. *)
Theorem tool_messages_interleaved :
  role <$> messages (run_agent_loop two_calls_env (small_config 1) O).1
    = ["system"; "user"; "user"; "assistant"; "tool"; "user"; "tool"]
  ∧ tool_call_id <$> messages (run_agent_loop two_calls_env (small_config 1) O).1
    = [None; None; None; None; Some "call_1"; None; Some "call_2"].
Proof. split; vm_compute; reflexivity. Qed.

(** ** Verification workflow *)

(** A model that answers every turn with text and no tool call is asked to
    verify, then to confirm, and the loop ends at the third turn. *)
Lemma verification_workflow_three_turns :
  (run_agent_loop summarizing_env (small_config 9) O).2 = 3%nat
  ∧ iteration (run_agent_loop summarizing_env (small_config 9) O).1 = 3
  ∧ verification_phase (run_agent_loop summarizing_env (small_config 9) O).1
    = PhaseConfirmation
  ∧ role <$> messages (run_agent_loop summarizing_env (small_config 9) O).1
    = ["system"; "user"; "user"; "assistant"; "user"; "assistant"; "user"].
Proof. repeat split; vm_compute; reflexivity. Qed.

(** ** Retries *)

Section Retry.
Context {W : Type} (env : Env W) (config : Config).

(** The retry loop leaves the iteration counter alone. *)
Lemma call_with_retry_iteration remaining cached_messages st w :
  iteration (call_with_retry env config remaining cached_messages st w).1.2
  = iteration st.
Proof.
  revert cached_messages st w.
  induction remaining as [|remaining IH]; intros cached_messages st w; simpl;
    destruct (chat env cached_messages w) as [[response|[m|c m|m]] w']; simpl;
    repeat case_match; simplify_eq/=; rewrite ?IH; try done.
  all: unfold account; by destruct (default _ _) as [[? ?] ?].
Qed.

Context (code message : string).
Hypothesis chat_raises : always_raises env code message.

(** When every attempt raises, the retry loop ends with that error. *)
Lemma call_with_retry_exhausted remaining cached_messages st w :
  (call_with_retry env config remaining cached_messages st w).1.1
  = Failed (LLMError code message).
Proof.
  revert cached_messages st w.
  induction remaining as [|remaining IH]; intros cached_messages st w; simpl;
    pose proof (chat_raises cached_messages w) as Hchat;
    destruct (chat env cached_messages w) as [outcome w']; simpl in Hchat; subst;
    repeat case_match; simplify_eq/=; try done; apply IH.
Qed.

(** After the last attempt has raised, the body of the loop emits
    [turn.failed] and goes on to the next iteration. *)
Lemma loop_body_continues_after_failure st w :
  ∃ st' w',
    loop_body env config st w = (Continue, st', w')
    ∧ iteration st' = iteration st + 1
    ∧ last (trace st') = Some (Emit (TurnFailedEvent message)).
Proof.
  unfold loop_body.
  destruct (manage_context env _ _ _ w) as [context_messages w1].
  set (st1 := if decide _ then _ else _).
  assert (iteration st1 = iteration st + 1) as <- by (unfold st1; by case_decide).
  pose proof (call_with_retry_exhausted (Z.to_nat max_retries - 1)
                (_apply_caching context_messages (cache_enabled config)) st1 w1)
    as Hretry.
  pose proof (call_with_retry_iteration (Z.to_nat max_retries - 1)
                (_apply_caching context_messages (cache_enabled config)) st1 w1)
    as Hiter.
  destruct (call_with_retry _ _ _ _ _ _) as [[attempted st2] w2].
  simpl in Hretry, Hiter. subst attempted.
  eexists _, _. split; [done|]. split; [done|]. simpl. apply last_snoc.
Qed.

(** So the loop is not left before its last iteration. *)
Lemma iterate_runs_every_iteration remaining st w :
  (iterate env config remaining st w).1.1 = false
  ∧ iteration (iterate env config remaining st w).1.2
    = iteration st + Z.of_nat remaining.
Proof.
  revert st w. induction remaining as [|remaining IH]; intros st w.
  - simpl. split; [done|lia].
  - cbn [iterate].
    destruct (loop_body_continues_after_failure st w) as (st' & w' & -> & Hiter & _).
    destruct (IH st' w') as [-> ->]. split; [done|lia].
Qed.

End Retry.

(** The rate-limited transport is one that always raises. *)
Lemma rate_limited_env_always_raises :
  always_raises rate_limited_env "rate_limit" "Too many requests".
Proof. by intros messages w. Qed.

(** C9, at the input where the code departs from it: the transport answers
    every call with a rate-limit error and three iterations are allowed.
    After the fifth failed attempt of the first turn the loop emits
    [turn.failed] and starts the next iteration: it makes fifteen calls,
    counts three iterations and emits [turn.failed] three times. *)
Theorem retries_exhausted_loop_goes_on :
  (run_agent_loop rate_limited_env (small_config 3) O).2 = 15%nat
  ∧ iteration (run_agent_loop rate_limited_env (small_config 3) O).1 = 3
  ∧ trace (run_agent_loop rate_limited_env (small_config 3) O).1
    = [ Emit ThreadStartedEvent; Emit TurnStartedEvent;
        Sleep 2; Sleep 4; Sleep 6; Sleep 8;
        Emit (TurnFailedEvent "Too many requests");
        Sleep 2; Sleep 4; Sleep 6; Sleep 8;
        Emit (TurnFailedEvent "Too many requests");
        Sleep 2; Sleep 4; Sleep 6; Sleep 8;
        Emit (TurnFailedEvent "Too many requests");
        Emit (TurnCompletedEvent 0 0 0); Done ].
Proof. repeat split; vm_compute; reflexivity. Qed.

(** * Further properties of the token estimator *)

Lemma string_length_app (s t : string) :
  String.length (s +:+ t) = (String.length s + String.length t)%nat.
Proof. induction s as [|c s IH]; simpl; [done|]. by rewrite IH. Qed.

Lemma sum_list_Z_nonneg l : Forall (λ x, 0 <= x) l → 0 <= sum_list_Z l.
Proof. unfold sum_list_Z. induction 1; simpl; lia. Qed.

Lemma estimate_part_tokens_nonneg part : 0 <= estimate_part_tokens part.
Proof.
  destruct part as [d|raw]; simpl; [|done].
  pose proof (estimate_tokens_nonneg (or_empty (ptext d))). case_decide; lia.
Qed.

Lemma estimate_content_tokens_nonneg c : 0 <= estimate_content_tokens c.
Proof.
  destruct c as [|s|parts]; simpl; [done|apply estimate_tokens_nonneg|].
  apply sum_list_Z_nonneg, Forall_fmap, Forall_forall.
  intros part _. apply estimate_part_tokens_nonneg.
Qed.

Lemma estimate_message_tokens_lower_bound msg : 4 <= estimate_message_tokens msg.
Proof.
  unfold estimate_message_tokens.
  pose proof (estimate_content_tokens_nonneg (content msg)).
  assert (0 <= sum_list_Z (estimate_tool_call_tokens <$> tool_calls msg)); [|lia].
  apply sum_list_Z_nonneg, Forall_fmap, Forall_forall. intros tc _.
  unfold estimate_tool_call_tokens.
  pose proof (estimate_tokens_nonneg (tc_name tc)).
  pose proof (estimate_tokens_nonneg (tc_arguments tc)). simpl. lia.
Qed.

Lemma estimate_total_tokens_app l1 l2 :
  estimate_total_tokens (l1 ++ l2)
  = estimate_total_tokens l1 + estimate_total_tokens l2.
Proof. unfold estimate_total_tokens. by rewrite fmap_app, sum_list_Z_app. Qed.

(** X1: the estimate never decreases when content is added: a longer
    string is not estimated lower, a message with one more part is not
    estimated lower, and a transcript with more messages is not estimated
    lower. *)
Theorem estimate_monotone (s t : string) (msg : Message) (parts : list Part)
    (part : Part) (messages more : list Message) :
  estimate_tokens s <= estimate_tokens (s +:+ t)
  ∧ estimate_message_tokens (with_content msg (CParts parts))
    <= estimate_message_tokens (with_content msg (CParts (parts ++ [part])))
  ∧ estimate_total_tokens messages <= estimate_total_tokens (messages ++ more).
Proof.
  split; [|split].
  - unfold estimate_tokens, APPROX_CHARS_PER_TOKEN.
    assert (String.length s ≤ String.length (s +:+ t))%nat as Hlen.
    { rewrite string_length_app. lia. }
    apply Z.max_le_compat_l, Z.div_le_mono; lia.
  - unfold estimate_message_tokens. simpl.
    rewrite fmap_app, sum_list_Z_app. simpl.
    pose proof (estimate_part_tokens_nonneg part). lia.
  - rewrite estimate_total_tokens_app.
    assert (0 <= estimate_total_tokens more); [|lia].
    apply sum_list_Z_nonneg, Forall_fmap, Forall_forall. intros m _. simpl.
    pose proof (estimate_message_tokens_lower_bound m). lia.
Qed.

(** X2: every message costs at least the role overhead, so a transcript of
    [n] messages is estimated at [4 * n] tokens or more. *)
Theorem estimate_total_tokens_lower_bound (messages : list Message) :
  4 * Z.of_nat (length messages) <= estimate_total_tokens messages.
Proof.
  induction messages as [|msg messages IH]; [done|].
  change (msg :: messages) with ([msg] ++ messages).
  rewrite estimate_total_tokens_app, length_app. simpl length.
  assert (estimate_total_tokens [msg] = estimate_message_tokens msg) as ->.
  { unfold estimate_total_tokens. simpl. lia. }
  pose proof (estimate_message_tokens_lower_bound msg). lia.
Qed.

(** * Further properties of the tool-output pruner *)

(** The user turns met so far, when the backward scan stands at [i]. *)
Lemma user_turns_snoc (messages : list Message) i n msg :
  (i ≤ n)%nat → messages !! n = Some msg →
  length (filter (λ m, role m = "user") (drop i (take (S n) messages)))
  = (length (filter (λ m, role m = "user") (drop i (take n messages)))
     + if decide (role msg = "user") then 1 else 0)%nat.
Proof.
  intros Hi Hmsg. pose proof (lookup_lt_Some _ _ _ Hmsg) as Hn.
  rewrite (take_S_r _ _ _ Hmsg), drop_app_le by (rewrite length_take; lia).
  rewrite filter_app, length_app. f_equal.
  case_decide.
  - by rewrite filter_cons_True.
  - by rewrite filter_cons_False.
Qed.

(** A position is selected only once the scan has counted
    [protect_last_turns] user messages from the end down to it. *)
Lemma prune_scan_to_prune_turns messages protect_last_turns n st i :
  i ∈ to_prune (prune_scan messages protect_last_turns n st) →
  i ∈ to_prune st
  ∨ ((i < n)%nat
     ∧ protect_last_turns
       <= turns st
          + Z.of_nat (length (filter (λ m, role m = "user")
                                (drop i (take n messages))))).
Proof.
  revert st. induction n as [|n IH]; intros st; [by left|].
  cbn [prune_scan]. destruct (messages !! n) as [msg|] eqn:Hmsg; [|by left].
  set (turns' := if decide (role msg = "user") then turns st + 1 else turns st).
  assert (∀ st', turns st' = turns' →
            (i ∈ to_prune st' →
             i ∈ to_prune st ∨ (i = n ∧ protect_last_turns <= turns')) →
            i ∈ to_prune (prune_scan messages protect_last_turns n st') →
            i ∈ to_prune st
            ∨ ((i < S n)%nat
               ∧ protect_last_turns
                 <= turns st
                    + Z.of_nat (length (filter (λ m, role m = "user")
                                          (drop i (take (S n) messages))))))
    as Hstep.
  { intros st' Hturns Hst' [Hi|[Hlt Hle]]%IH.
    - destruct (Hst' Hi) as [?|[-> Hle]]; [by left|]. right. split; [lia|].
      rewrite (user_turns_snoc _ n n msg) by done.
      unfold turns' in Hle. case_decide; lia.
    - right. split; [lia|].
      rewrite (user_turns_snoc _ i n msg) by (done || lia).
      rewrite Hturns in Hle. unfold turns' in Hle. case_decide; lia. }
  destruct (decide (turns' < protect_last_turns)) as [Hprot|Hprot].
  { apply Hstep; [done|]. simpl. by left. }
  destruct (decide (role msg = "tool")); [|apply Hstep; [done|]; simpl; by left].
  destruct (decide (content msg = CStr PRUNE_MARKER)); [simpl; by left|].
  apply Hstep; [by case_decide|].
  case_decide; simpl; [|by left].
  intros [?|Hi]%elem_of_app; [by left|].
  apply list_elem_of_singleton in Hi as ->. right. split; [done|lia].
Qed.

(** X3: the pruner leaves alone every message that has fewer than
    [protect_last_turns] user messages from its position to the end of the
    transcript: the most recent turns keep their tool outputs. *)
Theorem prune_old_tool_outputs_protects_recent_turns (messages : list Message)
    (protect_last_turns : Z) (i : nat) :
  Z.of_nat (length (filter (λ m, role m = "user") (drop i messages)))
    < protect_last_turns →
  prune_old_tool_outputs messages protect_last_turns !! i = messages !! i.
Proof.
  intros Hrecent. unfold prune_old_tool_outputs.
  destruct messages as [|m ms] eqn:Hms; [done|]. rewrite <- Hms in *.
  case_decide; [done|].
  rewrite list_lookup_imap. destruct (messages !! i) as [msg|]; [|done]. simpl.
  rewrite decide_False; [done|].
  intros [Hi|[_ Hturns]]%elem_of_list_to_set%prune_scan_to_prune_turns.
  - by apply elem_of_nil in Hi.
  - rewrite firstn_all in Hturns. simpl in Hturns. lia.
Qed.

Lemma prune_old_tool_outputs_protects_recent_turns_witness :
  prune_old_tool_outputs tool_heavy_transcript 3 !! 3%nat
  = tool_heavy_transcript !! 3%nat.
Proof.
  apply (prune_old_tool_outputs_protects_recent_turns tool_heavy_transcript 3 3).
  vm_compute. reflexivity.
Defined.

(** * Further properties of the image evictor *)

Lemma selected_images_nonneg selected entries :
  Forall (λ e : ImageEntry, 0 <= e.2) entries →
  0 <= selected_images selected entries.
Proof.
  induction 1 as [|[[i a] c] entries Hc _ IH]; [done|].
  rewrite selected_images_cons. simpl in Hc. case_decide; lia.
Qed.

Lemma image_msg_indices_counts_nonneg messages :
  Forall (λ e : ImageEntry, 0 <= e.2) (image_msg_indices messages).
Proof.
  apply Forall_forall. intros [[i a] c] He.
  apply image_entries_from_elem in He as (_ & _ & Hc & _). simpl. lia.
Qed.

Lemma count_total_images_app l1 l2 :
  count_total_images (l1 ++ l2) = count_total_images l1 + count_total_images l2.
Proof. unfold count_total_images. by rewrite fmap_app, sum_list_Z_app. Qed.

Lemma count_total_images_nonneg l : 0 <= count_total_images l.
Proof.
  unfold count_total_images. apply sum_list_Z_nonneg, Forall_fmap, Forall_forall.
  intros msg _. apply count_images_in_message_nonneg.
Qed.

(** A transcript whose messages hold, position by position, no more images
    than those of another holds no more images in all. *)
Lemma count_total_images_pointwise l l' :
  Forall2 (λ msg msg', count_images_in_message msg' <= count_images_in_message msg) l l' →
  count_total_images l' <= count_total_images l.
Proof.
  unfold count_total_images, sum_list_Z.
  induction 1 as [|msg msg' l l' Hle _ IH]; csimpl; [done|lia].
Qed.

Lemma count_total_images_drop n l :
  count_total_images (drop n l) <= count_total_images l.
Proof.
  rewrite <- (take_drop n l) at 2. rewrite count_total_images_app.
  pose proof (count_total_images_nonneg (take n l)). lia.
Qed.

(** A message without images is not touched by the evictor. *)
Lemma clear_images_no_images msg :
  count_images_in_message msg = 0 → clear_images msg = msg.
Proof.
  unfold count_images_in_message, clear_images.
  destruct (content msg) as [|s|parts] eqn:Hc; [done..|].
  intros Hcount. rewrite <- (with_content_same msg) at 2. rewrite Hc.
  do 2 f_equal. revert Hcount. clear Hc.
  unfold count_images_in_parts, sum_list_Z.
  induction parts as [|part parts IH]; csimpl; [done|]. intros Hcount.
  pose proof (count_images_in_parts_nonneg parts) as Hrest.
  unfold count_images_in_parts, sum_list_Z in Hrest.
  unfold clear_image_part at 1.
  destruct (is_image_part part); [lia|]. rewrite IH by lia. done.
Qed.

Lemma prune_old_images_length messages max_images :
  length (prune_old_images messages max_images) = length messages.
Proof.
  unfold prune_old_images. repeat case_decide; try done. by rewrite length_imap.
Qed.

Lemma prune_old_images_no_more_images messages max_images :
  count_total_images (prune_old_images messages max_images)
  <= count_total_images messages.
Proof.
  apply count_total_images_pointwise, Forall2_same_length_lookup_2;
    [by rewrite prune_old_images_length|].
  intros i msg msg' Hmsg Hmsg'.
  destruct (prune_old_images_lookup messages max_images i) as [Hsame|[_ Hcleared]].
  - rewrite Hsame in Hmsg'. by simplify_eq.
  - rewrite Hcleared, Hmsg in Hmsg'. simplify_eq/=.
    rewrite count_images_clear_images. apply count_images_in_message_nonneg.
Qed.

(** The messages keep their role, their tool calls and their tool-call
    id. *)
Lemma clear_images_fields msg :
  role (clear_images msg) = role msg
  ∧ tool_calls (clear_images msg) = tool_calls msg
  ∧ tool_call_id (clear_images msg) = tool_call_id msg.
Proof. unfold clear_images. by destruct (content msg). Qed.

(** X4: the evictor keeps the number of messages and, at every position,
    the role, the tool calls and the tool-call id; and its output never
    holds more images than its input. *)
Theorem prune_old_images_shape (messages : list Message) (max_images : Z) :
  let out := prune_old_images messages max_images in
  length out = length messages
  ∧ (∀ i msg, messages !! i = Some msg →
       ∃ msg', out !! i = Some msg'
         ∧ role msg' = role msg
         ∧ tool_calls msg' = tool_calls msg
         ∧ tool_call_id msg' = tool_call_id msg)
  ∧ count_total_images out <= count_total_images messages.
Proof.
  intros out. split; [|split].
  - unfold out, prune_old_images. repeat case_decide; try done.
    by rewrite length_imap.
  - intros i msg Hmsg.
    destruct (prune_old_images_lookup messages max_images i) as [Hsame|[_ Hcleared]].
    + exists msg. by rewrite <- Hmsg.
    + exists (clear_images msg). unfold out. rewrite Hcleared, Hmsg.
      split; [done|]. apply clear_images_fields.
  - destruct (decide (count_total_images messages <= max_images)) as [Hle|Hgt].
    + unfold out, prune_old_images. by rewrite decide_True.
    + unfold out. rewrite prune_old_images_count by lia.
      rewrite (select_images_to_prune_consistent messages max_images).
      pose proof (selected_images_nonneg
                    (indices_to_prune (select_images_to_prune messages max_images))
                    _ (image_msg_indices_counts_nonneg messages)).
      lia.
Qed.

(** Under the hard limit only the first pass runs. *)
Lemma select_images_to_prune_analyzed_only messages max_images j :
  count_total_images messages <= MAX_IMAGES_PER_REQUEST →
  j ∈ indices_to_prune (select_images_to_prune messages max_images) →
  is_image_analyzed messages j = true.
Proof.
  intros Hunder. unfold select_images_to_prune.
  rewrite !(bool_decide_eq_false_2 (count_total_images messages > MAX_IMAGES_PER_REQUEST))
    by lia.
  rewrite andb_false_r.
  destruct (remove_analyzed_spec (image_msg_indices messages)
              (count_total_images messages - max_images)
              (image_msg_indices_NoDup messages) (image_msg_indices messages)
              {| indices_to_prune := ∅; removed := 0 |})
    as (_ & _ & Honly & _); [done|apply image_msg_indices_NoDup|done| |].
  { unfold removal_consistent. simpl. by rewrite selected_images_empty. }
  intros [Hj|(c & Hc)]%Honly; [done|].
  by apply image_entries_from_elem in Hc as (_ & <- & _).
Qed.

(** X5: at or under the hard limit of 100 images, a message that no
    assistant message follows is never changed: images the model has not
    answered yet are only evicted to get under the hard limit. *)
Theorem prune_old_images_keeps_unanalyzed (messages : list Message)
    (max_images : Z) (j : nat) :
  count_total_images messages <= MAX_IMAGES_PER_REQUEST →
  is_image_analyzed messages j = false →
  prune_old_images messages max_images !! j = messages !! j.
Proof.
  intros Hunder Hunanalyzed.
  destruct (prune_old_images_lookup messages max_images j) as [Hsame|[Hsel _]];
    [done|].
  apply select_images_to_prune_analyzed_only in Hsel; [congruence|done].
Qed.

Lemma prune_old_images_keeps_unanalyzed_witness :
  prune_old_images image_light_transcript IMAGE_PRUNE_TARGET !! 2%nat
  = image_light_transcript !! 2%nat.
Proof.
  apply (prune_old_images_keeps_unanalyzed image_light_transcript IMAGE_PRUNE_TARGET 2).
  - vm_compute. discriminate.
  - vm_compute. reflexivity.
Defined.

(** On that transcript the first message loses its images and the last
    keeps them: 8 are left under a target of 10. *)
Lemma prune_old_images_image_light_transcript :
  count_images_in_message
    <$> prune_old_images image_light_transcript IMAGE_PRUNE_TARGET
  = [0; 0; 8].
Proof. vm_compute. reflexivity. Qed.

(** Selecting every analyzed entry selects [analyzed_count] images. *)
Lemma selected_images_analyzed selected entries :
  (∀ i c, (i, true, c) ∈ entries → i ∈ selected) →
  Forall (λ e : ImageEntry, 0 <= e.2) entries →
  sum_list_Z ((λ '(_, analyzed, count), if analyzed : bool then count else 0)
                <$> entries)
  <= selected_images selected entries.
Proof.
  intros Hall Hcounts.
  induction Hcounts as [|[[i a] c] entries Hc _ IH]; [done|].
  rewrite selected_images_cons. csimpl. simpl in Hc.
  assert (sum_list_Z ((λ '(_, analyzed, count), if analyzed : bool then count else 0)
                        <$> entries)
          <= selected_images selected entries) as IH'.
  { apply IH. intros j c' Hj. eapply Hall. by right. }
  destruct a.
  - rewrite decide_True by (eapply Hall; by left). lia.
  - case_decide; lia.
Qed.

Lemma image_entries_from_total analyzed start messages :
  sum_list_Z ((λ e : ImageEntry, e.2) <$> image_entries_from analyzed start messages)
  = count_total_images messages.
Proof.
  unfold count_total_images.
  revert start. induction messages as [|msg messages IH]; intros start; [done|].
  csimpl. rewrite fmap_app, sum_list_Z_app, IH.
  pose proof (count_images_in_message_nonneg msg).
  case_decide; csimpl; lia.
Qed.

(** Every image is either analyzed or not. *)
Lemma analyzed_unanalyzed_total messages :
  analyzed_count messages + unanalyzed_count messages = count_total_images messages.
Proof.
  unfold analyzed_count, unanalyzed_count, image_msg_indices.
  rewrite <- (image_entries_from_total (is_image_analyzed messages) 0 messages).
  induction (image_entries_from _ _ _) as [|[[i a] c] entries IH]; [done|].
  csimpl. destruct a; lia.
Qed.

(** After the first pass, enough images for the soft target are selected
    or every analyzed message is. *)
Lemma select_images_to_prune_soft messages max_images :
  removed (select_images_to_prune messages max_images)
    >= count_total_images messages - max_images
  ∨ ∀ i c, (i, true, c) ∈ image_msg_indices messages →
      i ∈ indices_to_prune (select_images_to_prune messages max_images).
Proof.
  unfold select_images_to_prune.
  set (R := if bool_decide _ then _ else _).
  assert (R >= count_total_images messages - max_images) as HR.
  { unfold R. case_bool_decide; lia. }
  destruct (remove_analyzed_spec (image_msg_indices messages) R
              (image_msg_indices_NoDup messages) (image_msg_indices messages)
              {| indices_to_prune := ∅; removed := 0 |})
    as (_ & _ & _ & Hdone1); [done|apply image_msg_indices_NoDup|done| |].
  { unfold removal_consistent. simpl. by rewrite selected_images_empty. }
  set (st1 := remove_analyzed _ R _) in *.
  destruct (decide (removed st1 < R)) as [Hless|Hdone].
  - right. intros i c Hi.
    case_match.
    + destruct (remove_unanalyzed_spec (image_msg_indices messages) R
                  (image_msg_indices_NoDup messages) (image_msg_indices messages) st1)
        as (_ & Hsub & _); [done| |].
      { destruct (remove_analyzed_spec (image_msg_indices messages) R
                    (image_msg_indices_NoDup messages) (image_msg_indices messages)
                    {| indices_to_prune := ∅; removed := 0 |})
          as (Hinv & _); [done|apply image_msg_indices_NoDup|done| |done].
        unfold removal_consistent. simpl. by rewrite selected_images_empty. }
      apply Hsub. by eapply Hdone1.
    + by eapply Hdone1.
  - left. rewrite bool_decide_eq_false_2 by done. simpl. lia.
Qed.

(** X6: when the images that no assistant message follows are at most
    [max_images], the output holds at most [max_images] images: the soft
    target is reached whenever evicting answered images suffices. *)
Theorem prune_old_images_reaches_target (messages : list Message) (max_images : Z) :
  unanalyzed_count messages <= max_images →
  count_total_images (prune_old_images messages max_images) <= max_images.
Proof.
  intros Hunanalyzed.
  destruct (decide (count_total_images messages <= max_images)) as [Hle|Hgt].
  { unfold prune_old_images. by rewrite decide_True. }
  rewrite prune_old_images_count by lia.
  destruct (select_images_to_prune_soft messages max_images) as [Henough|Hall];
    [lia|].
  rewrite (select_images_to_prune_consistent messages max_images).
  pose proof (selected_images_analyzed _ _ Hall
                (image_msg_indices_counts_nonneg messages)) as Hsel.
  pose proof (analyzed_unanalyzed_total messages) as Htotal.
  unfold analyzed_count in Htotal. lia.
Qed.

Lemma prune_old_images_reaches_target_witness :
  count_total_images (prune_old_images image_light_transcript IMAGE_PRUNE_TARGET)
  <= IMAGE_PRUNE_TARGET.
Proof.
  apply (prune_old_images_reaches_target image_light_transcript IMAGE_PRUNE_TARGET).
  vm_compute. discriminate.
Defined.

(** ** Evicting twice *)

Lemma is_image_analyzed_roles messages messages' i :
  role <$> messages = role <$> messages' →
  is_image_analyzed messages i = is_image_analyzed messages' i.
Proof.
  intros Hroles. unfold is_image_analyzed.
  assert (role <$> drop (S i) messages = role <$> drop (S i) messages') as Hdrop.
  { by rewrite !fmap_drop, Hroles. }
  revert Hdrop. generalize (drop (S i) messages) (drop (S i) messages').
  induction l as [|m l IH]; intros [|m' l'] Heq; simplify_eq/=; [done|].
  rewrite (IH l') by done. by rewrite H.
Qed.

Lemma prune_old_images_roles messages max_images :
  role <$> prune_old_images messages max_images = role <$> messages.
Proof.
  apply list_eq. intros i. rewrite !list_lookup_fmap.
  destruct (prune_old_images_lookup messages max_images i) as [->|[_ ->]]; [done|].
  destruct (messages !! i) as [msg|]; [|done]. simpl.
  by destruct (clear_images_fields msg) as (-> & _).
Qed.

(** With no analyzed entry the first pass selects nothing. *)
Lemma remove_analyzed_no_analyzed entries images_to_remove st :
  (∀ i c, (i, true, c) ∉ entries) →
  remove_analyzed entries images_to_remove st = st.
Proof.
  revert st. induction entries as [|[[i a] c] entries IH]; intros st Hnone; [done|].
  simpl. case_decide; [done|]. destruct a.
  - exfalso. apply (Hnone i c). by left.
  - apply IH. intros j c' Hj. apply (Hnone j c'). by right.
Qed.

(** X7: evicting images from the output of the evictor changes nothing:
    what a second pass could select has been cleared by the first. *)
Theorem prune_old_images_idempotent (messages : list Message) (max_images : Z) :
  prune_old_images (prune_old_images messages max_images) max_images
  = prune_old_images messages max_images.
Proof.
  set (out := prune_old_images messages max_images).
  destruct (decide (out = messages)) as [Hsame|Hchanged].
  { rewrite Hsame. exact Hsame. }
  assert (count_total_images messages > max_images) as Hover.
  { destruct (decide (count_total_images messages <= max_images)) as [Hle|]; [|lia].
    exfalso. apply Hchanged. unfold out, prune_old_images. by rewrite decide_True. }
  pose proof (prune_old_images_count messages max_images Hover) as Hcount.
  fold out in Hcount.
  destruct (decide (count_total_images out <= max_images)) as [Hle|Hgt].
  { unfold prune_old_images at 1. by rewrite decide_True. }
  (* the output is still over the target: the first pass has selected every
     analyzed message *)
  unfold prune_old_images at 1. rewrite decide_False by done.
  rewrite decide_True; [done|].
  set (P := indices_to_prune (select_images_to_prune messages max_images)) in *.
  assert (∀ i c, (i, true, c) ∈ image_msg_indices messages → i ∈ P) as Hanalyzed.
  { destruct (select_images_to_prune_soft messages max_images) as [Henough|Hall];
      [lia|done]. }
  assert (∀ i c, (i, true, c) ∉ image_msg_indices out) as Hnone.
  { intros i c He.
    apply image_entries_from_elem in He as (_ & Ha & Hc & msg' & Hmsg' & ->).
    rewrite Nat.sub_0_r in Hmsg'.
    rewrite (is_image_analyzed_roles out messages) in Ha
      by apply prune_old_images_roles.
    destruct (prune_old_images_lookup messages max_images i) as [Hsame|[_ Hcleared]];
      [fold out in Hsame|fold out in Hcleared].
    - rewrite Hmsg' in Hsame. symmetry in Hsame.
      pose proof (image_entries_from_intro (is_image_analyzed messages) 0
                    messages i msg' Hsame Hc) as Hentry.
      simpl in Hentry. rewrite <- Ha in Hentry.
      apply Hanalyzed in Hentry.
      (* a selected message was cleared *)
      assert (out !! i = clear_images <$> messages !! i) as Hout.
      { unfold out, prune_old_images. rewrite decide_False by lia.
        unfold P in Hentry.
        case_decide as Hempty; [by rewrite Hempty in Hentry|].
        rewrite list_lookup_imap. destruct (messages !! i); [|done]. simpl.
        by rewrite decide_True. }
      rewrite Hsame in Hout. simpl in Hout. rewrite Hmsg' in Hout.
      injection Hout as Hout. rewrite Hout, count_images_clear_images in Hc. lia.
    - rewrite Hmsg' in Hcleared. destruct (messages !! i); simplify_eq/=.
      rewrite count_images_clear_images in Hc. lia. }
  unfold select_images_to_prune.
  rewrite remove_analyzed_no_analyzed by done. simpl.
  destruct (bool_decide (count_total_images out > MAX_IMAGES_PER_REQUEST)) eqn:Hhard;
    [|by rewrite andb_false_r].
  (* over the hard limit after a first pass: that pass took everything *)
  exfalso. apply bool_decide_eq_true in Hhard.
  assert (count_total_images messages > MAX_IMAGES_PER_REQUEST) as Hhard0.
  { pose proof (prune_old_images_no_more_images messages max_images) as Hmono.
    fold out in Hmono. lia. }
  destruct (select_images_to_prune_enough messages max_images Hhard0)
    as [Henough|Hall].
  - unfold MAX_IMAGES_PER_REQUEST in *. lia.
  - rewrite (select_images_to_prune_consistent messages max_images) in Hcount.
    unfold image_msg_indices in Hcount, Hall.
    rewrite (selected_images_all _ _ 0) in Hcount by done.
    unfold MAX_IMAGES_PER_REQUEST in *. lia.
Qed.

(** * Orphan repair *)

Section OrphanRepair.
Context {W : Type} (env : Env W).

(** What the filtering pass returns for a message carries the ids of
    that message. *)
Lemma repair_message_ids valid_ids msg :
  repair_message env valid_ids msg ≫= tool_call_ids_of = tool_call_ids_of msg.
Proof.
  unfold repair_message.
  destruct (decide (role msg = "tool")) as [Htool|Hother].
  - assert (tool_call_ids_of msg = []) as ->.
    { unfold tool_call_ids_of. rewrite decide_False; [done|]. by rewrite Htool. }
    repeat case_match; try done; simpl; unfold tool_call_ids_of;
      rewrite ?decide_False; try done; by rewrite Htool.
  - by rewrite bind_singleton.
Qed.

(** The repair keeps the set of valid ids. *)
Lemma valid_tool_call_ids_repair valid_ids messages :
  valid_tool_call_ids (messages ≫= repair_message env valid_ids)
  = valid_tool_call_ids messages.
Proof.
  unfold valid_tool_call_ids. f_equal.
  induction messages as [|msg messages IH]; [done|].
  rewrite !bind_cons, bind_app, IH. f_equal. apply repair_message_ids.
Qed.

(** What the pass returns for a message, it returns unchanged. *)
Lemma repair_message_stable valid_ids msg :
  repair_message env valid_ids msg ≫= repair_message env valid_ids
  = repair_message env valid_ids msg.
Proof.
  unfold repair_message at 2 3.
  destruct (decide (role msg = "tool")) as [Htool|Hother].
  - destruct (tool_call_id msg) as [id|] eqn:Hid.
    + destruct (decide (id ≠ "" ∧ id ∉ valid_ids)) as [Horphan|Hvalid].
      * case_match; [|done]. rewrite bind_singleton.
        by apply repair_message_not_tool.
      * rewrite bind_singleton. unfold repair_message.
        rewrite decide_True by done. rewrite Hid. by rewrite decide_False.
    + rewrite bind_singleton. unfold repair_message.
      rewrite decide_True by done. by rewrite Hid.
  - rewrite bind_singleton. by apply repair_message_not_tool.
Qed.

(** X8: orphan repair is idempotent. *)
Theorem _remove_orphaned_tool_messages_idempotent (messages : list Message) :
  _remove_orphaned_tool_messages env (_remove_orphaned_tool_messages env messages)
  = _remove_orphaned_tool_messages env messages.
Proof.
  unfold _remove_orphaned_tool_messages.
  rewrite valid_tool_call_ids_repair.
  generalize (valid_tool_call_ids messages). intros valid_ids.
  induction messages as [|msg messages IH]; [done|].
  rewrite !bind_cons, bind_app, IH. f_equal. apply repair_message_stable.
Qed.

(** X9: after the repair no tool message is orphaned: a tool message of
    the output that carries a non-empty tool-call id answers a tool call
    of an assistant message of the output. *)
Theorem _remove_orphaned_tool_messages_no_orphan (messages : list Message)
    (msg : Message) (id : string) :
  msg ∈ _remove_orphaned_tool_messages env messages →
  role msg = "tool" →
  tool_call_id msg = Some id →
  id ≠ "" →
  ∃ assistant_msg tc,
    assistant_msg ∈ _remove_orphaned_tool_messages env messages
    ∧ role assistant_msg = "assistant"
    ∧ tc ∈ tool_calls assistant_msg
    ∧ tc_id tc = id.
Proof.
  intros Hmsg Hrole Hid Hne.
  assert (id ∈ valid_tool_call_ids (_remove_orphaned_tool_messages env messages))
    as Hvalid.
  { unfold _remove_orphaned_tool_messages at 1. rewrite valid_tool_call_ids_repair.
    unfold _remove_orphaned_tool_messages in Hmsg.
    apply list_elem_of_bind in Hmsg as (msg0 & Hrepair & _).
    unfold repair_message in Hrepair.
    destruct (decide (role msg0 = "tool")) as [Htool|Hother].
    - destruct (tool_call_id msg0) as [id0|] eqn:Hid0.
      + destruct (decide (id0 ≠ "" ∧ id0 ∉ valid_tool_call_ids messages))
          as [Horphan|Hkept].
        * case_match; [|by apply elem_of_nil in Hrepair].
          apply list_elem_of_singleton in Hrepair. by subst.
        * apply list_elem_of_singleton in Hrepair. subst msg0.
          rewrite Hid in Hid0. injection Hid0 as <-.
          destruct (decide (id ∈ valid_tool_call_ids messages)) as [|Hout];
            [done|]. by destruct Hkept.
      + apply list_elem_of_singleton in Hrepair. subst msg0. congruence.
    - apply list_elem_of_singleton in Hrepair. by subst. }
  unfold valid_tool_call_ids in Hvalid.
  apply elem_of_list_to_set, list_elem_of_bind in Hvalid
    as (assistant_msg & Hids & Hin).
  case_decide as Hassistant; [|by apply elem_of_nil in Hids].
  apply list_elem_of_filter in Hids as [_ Hids].
  apply list_elem_of_fmap in Hids as (tc & -> & Htc).
  by exists assistant_msg, tc.
Qed.

End OrphanRepair.

Lemma _remove_orphaned_tool_messages_no_orphan_witness :
  ∃ assistant_msg tc,
    assistant_msg ∈ _remove_orphaned_tool_messages summarizing_env orphan_transcript
    ∧ role assistant_msg = "assistant"
    ∧ tc ∈ tool_calls assistant_msg
    ∧ tc_id tc = "call_1".
Proof.
  apply (_remove_orphaned_tool_messages_no_orphan summarizing_env orphan_transcript
           {| role := "tool"; content := CStr "2 passed";
              tool_calls := []; tool_call_id := Some "call_1" |} "call_1").
  - apply (list_elem_of_lookup_2 _ 3). vm_compute. reflexivity.
  - reflexivity.
  - reflexivity.
  - discriminate.
Defined.

(** On that transcript the answered tool message stays, the orphan with
    content becomes a user message and the cleared orphan is dropped. *)
Lemma _remove_orphaned_tool_messages_orphan_transcript :
  _remove_orphaned_tool_messages summarizing_env orphan_transcript
  = take 4 orphan_transcript
    ++ [user_message (CStr ("[Previous tool output]" +:+ newline +:+ "lost output"))].
Proof. vm_compute. reflexivity. Qed.
(** * Further properties of the AI compactor *)

(** The positions that [indices_where_from] collects increase. *)
Lemma indices_where_from_increasing p start l k i j :
  indices_where_from p start l !! k = Some i →
  indices_where_from p start l !! S k = Some j →
  (i < j)%nat.
Proof.
  revert start k. induction l as [|m l IH]; intros start k; [done|]. simpl.
  destruct (p m); simpl; [|by apply IH].
  destruct k as [|k]; simpl; [|by apply IH].
  intros [= <-] Hj%list_elem_of_lookup_2%indices_where_from_bounds. lia.
Qed.

(** A start of the kept suffix that [_find_messages_to_compact] chooses
    is an assistant message that another assistant message follows. *)
Lemma _find_messages_to_compact_two_assistants messages target_tokens :
  _find_messages_to_compact messages target_tokens = []
  ∨ ∃ start later a a',
      (PROTECTED_MESSAGE_COUNT ≤ start < later)%nat
      ∧ messages !! start = Some a ∧ role a = "assistant"
      ∧ messages !! later = Some a' ∧ role a' = "assistant"
      ∧ _find_messages_to_compact messages target_tokens = range_from_protected start.
Proof.
  unfold _find_messages_to_compact.
  case_decide; [by left|].
  set (compactable_assistants := indices_where is_assistant _).
  set (assistant_indices := _ <$> compactable_assistants).
  case_decide as Hfew; [by left|].
  assert (∀ k start, (S k < length assistant_indices)%nat →
            assistant_indices !! k = Some start →
            ∃ later a a',
              (PROTECTED_MESSAGE_COUNT ≤ start < later)%nat
              ∧ messages !! start = Some a ∧ role a = "assistant"
              ∧ messages !! later = Some a' ∧ role a' = "assistant") as Hpair.
  { intros k start Hk Hstart.
    destruct (lookup_lt_is_Some_2 assistant_indices (S k) Hk) as [later Hlater].
    unfold assistant_indices in Hstart, Hlater.
    rewrite list_lookup_fmap in Hstart, Hlater.
    destruct (compactable_assistants !! k) as [i|] eqn:Hi; [|done].
    destruct (compactable_assistants !! S k) as [j|] eqn:Hj; [|done].
    simplify_eq/=.
    pose proof (indices_where_from_increasing _ _ _ _ _ _ Hi Hj) as Hlt.
    apply list_elem_of_lookup_2, indices_where_from_lookup in Hi as (a & Ha & Hra).
    apply list_elem_of_lookup_2, indices_where_from_lookup in Hj as (a' & Ha' & Hra').
    rewrite Nat.sub_0_r, lookup_drop in Ha, Ha'.
    exists (PROTECTED_MESSAGE_COUNT + j)%nat, a, a'.
    apply bool_decide_eq_true in Hra, Hra'.
    change (S (S i)) with (PROTECTED_MESSAGE_COUNT + i)%nat.
    repeat split; (done || lia). }
  destruct (find_keep_start _ _ _) as [start|] eqn:Hfind.
  - apply find_keep_start_elem, elem_of_take in Hfind as (k & Hk & Hlt).
    destruct (Hpair k start) as (later & a & a' & ? & ? & ? & ? & ?); [lia|done|].
    right. by exists start, later, a, a'.
  - destruct (assistant_indices !! _) as [start|] eqn:Hlast; [|by left].
    apply lookup_lt_Some in Hlast as Hbound.
    destruct (length assistant_indices) as [|[|n]] eqn:Hlen; [lia..|].
    replace (S (S n) - 2)%nat with n in Hlast by lia.
    destruct (Hpair n start ltac:(lia) Hlast) as (later & a & a' & ? & ? & ? & ? & ?).
    right. by exists start, later, a, a'.
Qed.

Section Compactor.
Context {W : Type} (env : Env W).

(** The two ways [run_compaction] returns: with its input, or with the
    protected prefix, the summary and the suffix from an assistant message
    on, repaired. *)
Lemma run_compaction_cases messages system_prompt target_tokens w :
  (∃ w', run_compaction env messages system_prompt target_tokens w = (messages, w'))
  ∨ ∃ start later a a' summary w',
      (PROTECTED_MESSAGE_COUNT < start < later)%nat
      ∧ messages !! start = Some a ∧ role a = "assistant"
      ∧ messages !! later = Some a' ∧ role a' = "assistant"
      ∧ summary ≠ ""
      ∧ run_compaction env messages system_prompt target_tokens w
        = (_remove_orphaned_tool_messages env
             (take PROTECTED_MESSAGE_COUNT messages
              ++ [summary_message summary] ++ drop start messages), w').
Proof.
  unfold run_compaction.
  set (target := default default_target_tokens target_tokens).
  destruct (_find_messages_to_compact_two_assistants messages target)
    as [->|(start & later & a & a' & Hstart & Ha & Hrole & Ha' & Hrole' & ->)];
    [left; by eexists|].
  destruct (range_from_protected start) as [|i ids] eqn:Hrange;
    [left; by eexists|].
  rewrite <- Hrange.
  assert (PROTECTED_MESSAGE_COUNT < start)%nat as Hlt.
  { unfold range_from_protected in Hrange.
    destruct (start - PROTECTED_MESSAGE_COUNT)%nat eqn:?; [done|lia]. }
  destruct (chat env _ w) as [[response|e] w']; [|left; by eexists].
  case_decide as Hsummary; [left; by eexists|].
  right. exists start, later, a, a', (text response), w'.
  pose proof (lookup_lt_Some _ _ _ Ha) as Hlen.
  rewrite messages_to_keep_suffix by lia.
  repeat split; (done || lia).
Qed.

(** The repair keeps the assistant messages. *)
Lemma repair_message_assistants valid_ids messages :
  filter (λ m, role m = "assistant") (messages ≫= repair_message env valid_ids)
  = filter (λ m, role m = "assistant") messages.
Proof.
  induction messages as [|msg messages IH]; [done|].
  rewrite bind_cons, filter_app, IH. unfold repair_message.
  destruct (decide (role msg = "tool")) as [Htool|Hother].
  - rewrite (filter_cons_False _ msg) by (by rewrite Htool).
    repeat case_match; try done; rewrite filter_cons_False; try done;
      by rewrite Htool.
  - by destruct (decide (role msg = "assistant"));
      rewrite ?filter_cons_True, ?filter_cons_False by done.
Qed.

(** X10: a transcript that [run_compaction] has changed still holds two
    assistant messages or more: the cut is never made at the last
    assistant message. *)
Theorem run_compaction_keeps_two_assistants (messages : list Message)
    (system_prompt : string) (target_tokens : option Z) (w : W) :
  (run_compaction env messages system_prompt target_tokens w).1 ≠ messages →
  (2 ≤ length (filter (λ m, role m = "assistant")
                 (run_compaction env messages system_prompt target_tokens w).1))%nat.
Proof.
  destruct (run_compaction_cases messages system_prompt target_tokens w)
    as [[w' ->]|(start & later & a & a' & summary & w'
                 & Hstart & Ha & Hrole & Ha' & Hrole' & _ & ->)]; [done|].
  intros _. simpl. unfold _remove_orphaned_tool_messages.
  rewrite repair_message_assistants, !filter_app, !length_app.
  rewrite (filter_cons_False _ (summary_message summary)) by done.
  rewrite (drop_S _ _ _ Ha), filter_cons_True by done. simpl.
  assert (a' ∈ filter (λ m, role m = "assistant") (drop (S start) messages)) as Hin.
  { apply list_elem_of_filter. split; [done|].
    apply (list_elem_of_lookup_2 _ (later - S start)).
    rewrite lookup_drop. by replace (S start + (later - S start))%nat with later by lia. }
  destruct (filter _ (drop (S start) messages)); [by apply elem_of_nil in Hin|].
  simpl. lia.
Qed.

(** X11: [run_compaction] returns its input and makes no call to the
    transport when the transcript is within the target, and when fewer
    than two assistant messages follow the protected prefix. *)
Theorem run_compaction_refused (messages : list Message)
    (system_prompt : string) (target_tokens : option Z) (w : W) :
  estimate_total_tokens messages <= default default_target_tokens target_tokens
  ∨ (length (filter (λ m, role m = "assistant")
               (drop PROTECTED_MESSAGE_COUNT messages)) < 2)%nat →
  run_compaction env messages system_prompt target_tokens w = (messages, w).
Proof.
  intros Hrefuse. unfold run_compaction.
  assert (_find_messages_to_compact messages
            (default default_target_tokens target_tokens) = []) as ->; [|done].
  unfold _find_messages_to_compact.
  rewrite <- estimate_total_tokens_app, take_drop.
  case_decide as Hfits; [done|].
  rewrite decide_True; [done|].
  destruct Hrefuse as [?|Hfew]; [lia|].
  rewrite length_fmap. unfold indices_where.
  rewrite indices_where_from_length.
  erewrite list_filter_iff; [exact Hfew|].
  intros m. unfold is_assistant. by rewrite bool_decide_eq_true.
Qed.

End Compactor.

Lemma run_compaction_keeps_two_assistants_witness :
  (2 ≤ length (filter (λ m, role m = "assistant")
                 (run_compaction summarizing_env short_transcript
                    "system prompt" (Some 10%Z) O).1))%nat.
Proof.
  apply (run_compaction_keeps_two_assistants summarizing_env short_transcript
           "system prompt" (Some 10) O).
  vm_compute. discriminate.
Defined.

Lemma run_compaction_refused_witness :
  run_compaction summarizing_env short_transcript "system prompt" (Some 1000000) O
  = (short_transcript, O).
Proof.
  apply (run_compaction_refused summarizing_env short_transcript
           "system prompt" (Some 1000000) O).
  left. vm_compute. discriminate.
Defined.

(** * The context manager as a whole *)

Lemma prune_old_tool_outputs_no_more_images messages protect_last_turns :
  count_total_images (prune_old_tool_outputs messages protect_last_turns)
  <= count_total_images messages.
Proof.
  apply count_total_images_pointwise, Forall2_same_length_lookup_2;
    [by rewrite prune_old_tool_outputs_length|].
  intros i msg msg' Hmsg Hmsg'.
  destruct (prune_old_tool_outputs_lookup messages protect_last_turns i msg Hmsg)
    as [Hsame|[_ Hmarked]].
  - rewrite Hsame in Hmsg'. by simplify_eq.
  - rewrite Hmarked in Hmsg'. simplify_eq.
    apply count_images_in_message_nonneg.
Qed.

Section Manager.
Context {W : Type} (env : Env W).

Lemma repair_message_no_more_images valid_ids messages :
  count_total_images (messages ≫= repair_message env valid_ids)
  <= count_total_images messages.
Proof.
  induction messages as [|msg messages IH]; [done|].
  rewrite bind_cons, count_total_images_app.
  change (msg :: messages) with ([msg] ++ messages).
  rewrite (count_total_images_app [msg]).
  assert (count_total_images (repair_message env valid_ids msg)
          <= count_total_images [msg]); [|lia].
  pose proof (count_images_in_message_nonneg msg).
  unfold repair_message, count_total_images.
  repeat case_match; csimpl; unfold count_images_in_message in *; simpl; lia.
Qed.

(** The repair leaves a prefix without tool messages as it is. *)
Lemma repair_message_prefix valid_ids n messages :
  Forall (λ m, role m ≠ "tool") (take n messages) →
  take n (messages ≫= repair_message env valid_ids) = take n messages.
Proof.
  revert messages. induction n as [|n IH]; intros [|msg messages]; try done.
  rewrite firstn_cons. intros [Hrole Hrest]%Forall_cons.
  rewrite bind_cons, repair_message_not_tool by done. simpl.
  by rewrite IH.
Qed.

Lemma run_compaction_no_more_images messages system_prompt target_tokens w :
  count_total_images (run_compaction env messages system_prompt target_tokens w).1
  <= count_total_images messages.
Proof.
  destruct (run_compaction_cases env messages system_prompt target_tokens w)
    as [[w' ->]|(start & later & a & a' & summary & w'
                 & Hstart & Ha & _ & _ & _ & _ & ->)]; [done|].
  simpl. etrans; [apply repair_message_no_more_images|].
  rewrite (count_total_images_app _ (_ :: _)).
  change (?m :: drop start messages) with ([m] ++ drop start messages).
  rewrite (count_total_images_app [_]).
  rewrite <- (take_drop PROTECTED_MESSAGE_COUNT messages) at 3.
  rewrite count_total_images_app.
  replace (drop start messages)
    with (drop (start - PROTECTED_MESSAGE_COUNT) (drop PROTECTED_MESSAGE_COUNT messages)).
  2:{ rewrite drop_drop. f_equal. lia. }
  pose proof (count_total_images_drop (start - PROTECTED_MESSAGE_COUNT)
                (drop PROTECTED_MESSAGE_COUNT messages)).
  change (count_total_images [summary_message summary]) with 0. lia.
Qed.

Lemma run_compaction_no_longer messages system_prompt target_tokens w :
  (length (run_compaction env messages system_prompt target_tokens w).1
   ≤ length messages)%nat.
Proof.
  destruct (run_compaction_cases env messages system_prompt target_tokens w)
    as [[w' ->]|(start & later & a & a' & summary & w'
                 & Hstart & Ha & _ & _ & _ & _ & ->)]; [done|].
  simpl. etrans; [apply repair_message_length|].
  apply lookup_lt_Some in Ha.
  rewrite !length_app, length_take, length_cons, length_drop.
  unfold PROTECTED_MESSAGE_COUNT in *. lia.
Qed.

Lemma run_compaction_prefix messages system_prompt target_tokens w :
  Forall (λ m, role m ≠ "tool") (take PROTECTED_MESSAGE_COUNT messages) →
  take PROTECTED_MESSAGE_COUNT
    (run_compaction env messages system_prompt target_tokens w).1
  = take PROTECTED_MESSAGE_COUNT messages.
Proof.
  intros Hprefix.
  destruct (run_compaction_cases env messages system_prompt target_tokens w)
    as [[w' ->]|(start & later & a & a' & summary & w'
                 & Hstart & Ha & _ & _ & _ & _ & ->)]; [done|].
  simpl. unfold _remove_orphaned_tool_messages.
  apply lookup_lt_Some in Ha.
  assert (take PROTECTED_MESSAGE_COUNT
            (take PROTECTED_MESSAGE_COUNT messages
             ++ summary_message summary :: drop start messages)
          = take PROTECTED_MESSAGE_COUNT messages) as Htake.
  { apply take_app_length'. rewrite length_take.
    unfold PROTECTED_MESSAGE_COUNT in *. lia. }
  rewrite repair_message_prefix; rewrite Htake; done.
Qed.

(** What [manage_context] returns is the transcript after the image
    step, that transcript with its old tool outputs pruned, or the result
    of a compaction of the latter. *)
Lemma manage_context_cases messages system_prompt force_compaction w :
  let imaged := after_image_step messages in
  let pruned := prune_old_tool_outputs imaged 2 in
  (manage_context env messages system_prompt force_compaction w).1 = imaged
  ∨ (manage_context env messages system_prompt force_compaction w).1 = pruned
  ∨ (manage_context env messages system_prompt force_compaction w).1
    = (run_compaction env pruned system_prompt None w).1.
Proof.
  intros imaged pruned. unfold manage_context.
  fold (after_image_step messages). fold imaged. fold pruned.
  repeat case_match; auto.
Qed.

Lemma after_image_step_prefix messages :
  Forall (λ m, count_images_in_message m = 0) (take PROTECTED_MESSAGE_COUNT messages) →
  take PROTECTED_MESSAGE_COUNT (after_image_step messages)
  = take PROTECTED_MESSAGE_COUNT messages.
Proof.
  intros Hprefix. unfold after_image_step. case_decide; [|done].
  apply list_eq. intros i. rewrite !lookup_take.
  case_decide; [|done].
  destruct (prune_old_images_lookup messages IMAGE_PRUNE_TARGET i)
    as [Hsame|[_ Hcleared]]; [done|].
  rewrite Hcleared. destruct (messages !! i) as [msg|] eqn:Hmsg; [|done]. simpl.
  rewrite clear_images_no_images; [done|].
  eapply (Forall_lookup_1 _ _ i msg) in Hprefix; [done|].
  by rewrite lookup_take, decide_True.
Qed.

Lemma prune_old_tool_outputs_prefix messages protect_last_turns n :
  Forall (λ m, role m ≠ "tool") (take n messages) →
  take n (prune_old_tool_outputs messages protect_last_turns) = take n messages.
Proof.
  intros Hprefix. apply list_eq. intros i. rewrite !lookup_take.
  case_decide; [|done].
  destruct (messages !! i) as [msg|] eqn:Hmsg.
  - destruct (prune_old_tool_outputs_lookup messages protect_last_turns i msg Hmsg)
      as [Hsame|[Htool _]]; [done|].
    eapply (Forall_lookup_1 _ _ i msg) in Hprefix; [done|].
    by rewrite lookup_take, decide_True.
  - apply lookup_ge_None. rewrite prune_old_tool_outputs_length.
    by apply lookup_ge_None.
Qed.

(** X12: [manage_context] never returns a longer transcript than it was
    given. *)
Theorem manage_context_length (messages : list Message) (system_prompt : string)
    (force_compaction : bool) (w : W) :
  (length (manage_context env messages system_prompt force_compaction w).1
   ≤ length messages)%nat.
Proof.
  assert (length (after_image_step messages) = length messages) as Himaged.
  { unfold after_image_step. case_decide; [|done]. apply prune_old_images_length. }
  destruct (manage_context_cases messages system_prompt force_compaction w)
    as [->|[->| ->]].
  - by rewrite Himaged.
  - by rewrite prune_old_tool_outputs_length, Himaged.
  - etrans; [apply run_compaction_no_longer|].
    by rewrite prune_old_tool_outputs_length, Himaged.
Qed.

(** X13: the first two messages (the system prompt and the instruction of
    a run) come back from [manage_context] as they were, when they are no
    tool messages and hold no image, whichever of the three strategies is
    applied. *)
Theorem manage_context_protected_prefix (messages : list Message)
    (system_prompt : string) (force_compaction : bool) (w : W) :
  Forall (λ m, role m ≠ "tool" ∧ count_images_in_message m = 0)
         (take PROTECTED_MESSAGE_COUNT messages) →
  take PROTECTED_MESSAGE_COUNT
    (manage_context env messages system_prompt force_compaction w).1
  = take PROTECTED_MESSAGE_COUNT messages.
Proof.
  intros [Hrole Himages]%Forall_and.
  pose proof (after_image_step_prefix messages Himages) as Himaged.
  assert (take PROTECTED_MESSAGE_COUNT
            (prune_old_tool_outputs (after_image_step messages) 2)
          = take PROTECTED_MESSAGE_COUNT messages) as Hpruned.
  { rewrite prune_old_tool_outputs_prefix; by rewrite Himaged. }
  destruct (manage_context_cases messages system_prompt force_compaction w)
    as [->|[->| ->]]; [done..|].
  rewrite run_compaction_prefix; by rewrite Hpruned.
Qed.

(** X14: [manage_context] adds no image, and what it returns holds at
    most [MAX_IMAGES_PER_REQUEST] images whatever it was given. *)
Theorem manage_context_image_limit (messages : list Message)
    (system_prompt : string) (force_compaction : bool) (w : W) :
  let out := (manage_context env messages system_prompt force_compaction w).1 in
  count_total_images out <= count_total_images messages
  ∧ count_total_images out <= MAX_IMAGES_PER_REQUEST.
Proof.
  intros out.
  assert (count_total_images (after_image_step messages) <= count_total_images messages
          ∧ count_total_images (after_image_step messages) <= MAX_IMAGES_PER_REQUEST)
    as [Hle Hlimit].
  { unfold after_image_step. case_decide as Hover.
    - split; [apply prune_old_images_no_more_images|].
      destruct (decide (count_total_images messages > MAX_IMAGES_PER_REQUEST))
        as [Hhard|Hsoft].
      + rewrite prune_old_images_count by done.
        destruct (select_images_to_prune_enough messages IMAGE_PRUNE_TARGET Hhard)
          as [Henough|Hall].
        * unfold MAX_IMAGES_PER_REQUEST in *. lia.
        * rewrite (select_images_to_prune_consistent messages IMAGE_PRUNE_TARGET).
          unfold image_msg_indices in *.
          rewrite (selected_images_all _ _ 0) by done.
          unfold MAX_IMAGES_PER_REQUEST. lia.
      + pose proof (prune_old_images_no_more_images messages IMAGE_PRUNE_TARGET). lia.
    - unfold IMAGE_PRUNE_TARGET, MAX_IMAGES_PER_REQUEST in *. lia. }
  pose proof (prune_old_tool_outputs_no_more_images (after_image_step messages) 2)
    as Hpruned.
  pose proof (run_compaction_no_more_images
                (prune_old_tool_outputs (after_image_step messages) 2)
                system_prompt None w) as Hcompacted.
  unfold out.
  destruct (manage_context_cases messages system_prompt force_compaction w)
    as [->|[->| ->]]; lia.
Qed.

End Manager.

Lemma manage_context_protected_prefix_witness :
  take PROTECTED_MESSAGE_COUNT
    (manage_context summarizing_env tool_heavy_transcript "system prompt" true O).1
  = take PROTECTED_MESSAGE_COUNT tool_heavy_transcript.
Proof.
  apply (manage_context_protected_prefix summarizing_env tool_heavy_transcript
           "system prompt" true O).
  repeat constructor; vm_compute; discriminate.
Defined.

(** On that transcript the forced management prunes the old tool output. *)
Lemma manage_context_tool_heavy_transcript :
  (manage_context summarizing_env tool_heavy_transcript "system prompt" true O).1
  = prune_old_tool_outputs tool_heavy_transcript 2.
Proof. vm_compute. reflexivity. Qed.

(** * Cache breakpoints and the estimates *)

Lemma estimate_part_tokens_with_cache_control d cc :
  estimate_part_tokens (PDict (with_cache_control d cc)) = estimate_part_tokens (PDict d).
Proof. done. Qed.

Lemma is_image_part_with_cache_control d cc :
  is_image_part (PDict (with_cache_control d cc)) = is_image_part (PDict d).
Proof. done. Qed.

(** Whatever is read off a part and is the same with and without the
    annotation is the same, part by part, after [mark_last_text_part]. *)
Lemma mark_last_text_part_fmap {A} (f : Part → A) parts cc n :
  (∀ d, f (PDict (with_cache_control d cc)) = f (PDict d)) →
  f <$> mark_last_text_part parts cc n = f <$> parts.
Proof.
  intros Hf. induction n as [|n IH]; simpl; [done|].
  destruct (parts !! n) as [[d|raw]|] eqn:Hn; [|done..].
  destruct (is_nonempty_text_part (PDict d)); [|done].
  rewrite list_fmap_insert, Hf. apply list_insert_id.
  by rewrite list_lookup_fmap, Hn.
Qed.

Lemma _add_cache_control_to_message_estimate msg cc :
  estimate_message_tokens (_add_cache_control_to_message msg cc)
  = estimate_message_tokens msg.
Proof.
  unfold _add_cache_control_to_message, estimate_message_tokens.
  destruct (content msg) as [|s|parts] eqn:Hc; rewrite ?Hc; [done| |].
  - case_decide; [by rewrite Hc|]. simpl. lia.
  - destruct (existsb part_has_cache parts); [by rewrite Hc|]. simpl.
    by rewrite (mark_last_text_part_fmap estimate_part_tokens).
Qed.

Lemma _add_cache_control_to_message_images msg cc :
  count_images_in_message (_add_cache_control_to_message msg cc)
  = count_images_in_message msg.
Proof.
  unfold _add_cache_control_to_message, count_images_in_message.
  destruct (content msg) as [|s|parts] eqn:Hc; rewrite ?Hc; [done| |].
  - case_decide; by rewrite ?Hc.
  - destruct (existsb part_has_cache parts); [by rewrite Hc|]. simpl.
    unfold count_images_in_parts.
    by rewrite (mark_last_text_part_fmap (λ part, if is_image_part part then 1 else 0)).
Qed.

(** X15: the cache breakpoints change neither the token estimate of a
    transcript nor its number of images: what [manage_context] has
    measured is what is sent. *)
Theorem _apply_caching_keeps_estimates (messages : list Message) (enabled : bool) :
  estimate_total_tokens (_apply_caching messages enabled) = estimate_total_tokens messages
  ∧ count_total_images (_apply_caching messages enabled) = count_total_images messages.
Proof.
  assert (∀ f : Message → Z,
            (∀ msg, f (_add_cache_control_to_message msg ephemeral) = f msg) →
            f <$> _apply_caching messages enabled = f <$> messages) as Hsame.
  { intros f Hf. unfold _apply_caching. case_match; [done|].
    apply list_eq. intros i. rewrite !list_lookup_fmap, list_lookup_imap.
    destruct (messages !! i) as [msg|]; [|done]. simpl.
    case_decide; by rewrite ?Hf. }
  unfold estimate_total_tokens, count_total_images.
  rewrite (Hsame estimate_message_tokens), (Hsame count_images_in_message); [done|..].
  - intros msg. apply _add_cache_control_to_message_images.
  - intros msg. apply _add_cache_control_to_message_estimate.
Qed.

(** * The turn-control loop: retries, events and tool answers *)

Lemma answered_ids_app l1 l2 :
  answered_ids (l1 ++ l2) = answered_ids l1 ++ answered_ids l2.
Proof. unfold answered_ids. by rewrite filter_app, fmap_app. Qed.

Lemma answered_ids_frame l l' :
  frame <$> l = frame <$> l' → answered_ids l = answered_ids l'.
Proof.
  unfold answered_ids. revert l'.
  induction l as [|m l IH]; intros [|m' l'] Heq; simplify_eq/=; [done|].
  unfold frame in *. simplify_eq.
  destruct (decide (role m = "tool")) as [Htool|Hother].
  - rewrite !filter_cons_True by congruence. csimpl. f_equal; [done|]. by apply IH.
  - rewrite !filter_cons_False by congruence. by apply IH.
Qed.

Lemma prune_old_images_frame messages max_images :
  frame <$> prune_old_images messages max_images = frame <$> messages.
Proof.
  apply list_eq. intros i. rewrite !list_lookup_fmap.
  destruct (prune_old_images_lookup messages max_images i) as [->|[_ ->]]; [done|].
  destruct (messages !! i) as [msg|]; [|done]. simpl. unfold frame.
  by destruct (clear_images_fields msg) as (-> & -> & ->).
Qed.

Section Turns.
Context {W : Type} (env : Env W) (config : Config).

(** The retry loop only sleeps: after the attempt number [a] it waits
    [2 * a] seconds, and it makes no attempt after the fifth. *)
Lemma call_with_retry_trace remaining cached_messages st w :
  ∃ k, (k ≤ remaining)%nat
    ∧ trace (call_with_retry env config remaining cached_messages st w).1.2
      = trace st ++ ((λ i, Sleep (2 * (max_retries - Z.of_nat remaining + Z.of_nat i)))
                       <$> seq 0 k).
Proof.
  revert cached_messages st w.
  induction remaining as [|remaining IH]; intros cached_messages st w.
  - exists O. split; [done|]. simpl. rewrite app_nil_r.
    destruct (chat env cached_messages w) as [[response|[m|c m|m]] w']; simpl;
      repeat case_match; simplify_eq/=; try done.
    unfold account. by destruct (default _ _) as [[? ?] ?].
  - assert (∀ cached_messages' st' w',
              trace st' = trace st →
              ∃ k, (k ≤ S remaining)%nat
                ∧ trace (call_with_retry env config remaining cached_messages'
                           (record st' [Sleep (2 * (max_retries - Z.of_nat (S remaining)))])
                           w').1.2
                  = trace st ++ ((λ i, Sleep (2 * (max_retries - Z.of_nat (S remaining)
                                                   + Z.of_nat i))) <$> seq 0 k))
      as Hretry.
    { intros cached_messages' st' w' Htrace.
      destruct (IH cached_messages'
                  (record st' [Sleep (2 * (max_retries - Z.of_nat (S remaining)))]) w')
        as (k & Hk & ->).
      exists (S k). split; [lia|]. simpl trace. rewrite Htrace, <- app_assoc.
      f_equal. cbn [seq fmap list_fmap]. rewrite <- fmap_S_seq, <- list_fmap_compose.
      change ([?e] ++ ?l) with (e :: l). f_equal; [f_equal; lia|].
      apply list_fmap_ext. intros i x _. simpl. f_equal. lia. }
    cbn [call_with_retry].
    destruct (chat env cached_messages w) as [[response|[m|c m|m]] w'].
    + exists O. split; [lia|]. simpl. rewrite app_nil_r.
      unfold account. by destruct (default _ _) as [[? ?] ?].
    + exists O. split; [lia|]. simpl. by rewrite app_nil_r.
    + destruct (bool_decide (c = "authentication_error")
                || bool_decide (c = "invalid_api_key")).
      * exists O. split; [lia|]. simpl. by rewrite app_nil_r.
      * destruct (contains "BadRequestError" m); by apply Hretry.
    + by apply Hretry.
Qed.

(** X16: within one turn the retry loop sleeps 2, 4, 6 and 8 seconds, in
    this order, and nothing else is recorded: a turn waits at most 20
    seconds between its attempts. *)
Theorem call_with_retry_backoff (cached_messages : list Message)
    (st : LoopState) (w : W) :
  ∃ k, trace (call_with_retry env config (Z.to_nat max_retries - 1)
                cached_messages st w).1.2
       = trace st ++ take k backoff_schedule.
Proof.
  destruct (call_with_retry_trace (Z.to_nat max_retries - 1) cached_messages st w)
    as (k & Hk & ->).
  exists k. f_equal.
  change (Z.to_nat max_retries - 1)%nat with 4%nat in Hk.
  by do 5 (destruct k as [|k]; [done|]); lia.
Qed.

Lemma call_with_retry_no_done remaining cached_messages st w :
  ∃ t, Forall (λ e, e ≠ Done) t
    ∧ trace (call_with_retry env config remaining cached_messages st w).1.2
      = trace st ++ t.
Proof.
  destruct (call_with_retry_trace remaining cached_messages st w) as (k & _ & ->).
  eexists. split; [|done]. by apply Forall_fmap, Forall_forall.
Qed.

(** One pass over the calls of a response: an entry for every call, in
    call order, each with the id of its call; the transcript is not
    touched, and the events are those of the items. *)
Lemma execute_calls_spec calls tool_results pending_images st w :
  ∃ entries t,
    (execute_calls env config calls tool_results pending_images st w).1.1.1
      = tool_results ++ entries
    ∧ tr_tool_call_id <$> entries = fc_id <$> calls
    ∧ Forall (λ entry, tr_role entry = "tool") entries
    ∧ messages (execute_calls env config calls tool_results pending_images st w).1.2
      = messages st
    ∧ Forall (λ e, e ≠ Done) t
    ∧ trace (execute_calls env config calls tool_results pending_images st w).1.2
      = trace st ++ t.
Proof.
  revert tool_results pending_images st w.
  induction calls as [|call calls IH]; intros tool_results pending_images st w.
  - exists [], []. simpl. by rewrite !app_nil_r.
  - cbn [execute_calls]. unfold next_item_id. cbn zeta.
    destruct (execute env (fc_name call) (fc_arguments call) w) as [result w1].
    match goal with
    | |- context [execute_calls env config calls ?a ?b ?c ?d] =>
        destruct (IH a b c d) as (entries & t & -> & Hids & Hroles & -> & Ht & ->)
    end.
    eexists (_ :: entries), (_ :: _ :: t).
    split; [rewrite <- app_assoc; reflexivity|].
    split; [csimpl; by f_equal|].
    split; [by constructor|].
    split; [done|].
    apply and_comm. split; [simpl; rewrite <- !app_assoc; reflexivity|].
    by repeat constructor.
Qed.

(** The appending loop adds a tool message for every entry, in order, and
    no other tool message. *)
Lemma append_tool_results_spec messages tool_results :
  Forall (λ entry, tr_role entry = "tool") tool_results →
  ∃ appended,
    append_tool_results messages tool_results = messages ++ appended
    ∧ answered_ids appended = Some ∘ tr_tool_call_id <$> tool_results.
Proof.
  unfold append_tool_results. intros Hroles. revert messages.
  induction Hroles as [|entry tool_results Hrole _ IH]; intros messages.
  - exists []. by rewrite app_nil_r.
  - cbn [foldl].
    match goal with
    | |- context [foldl ?f ?a tool_results] =>
        destruct (IH a) as (appended & -> & Hids)
    end.
    destruct (tr_invalid entry).
    + exists (tool_message entry :: invalid_parameters_message entry :: appended).
      split; [by rewrite <- !app_assoc|].
      unfold answered_ids in *. rewrite filter_cons_True by done.
      rewrite filter_cons_False by done. csimpl. by rewrite Hids.
    + exists (tool_message entry :: appended).
      split; [by rewrite <- !app_assoc|].
      unfold answered_ids in *. rewrite filter_cons_True by done.
      csimpl. by rewrite Hids.
Qed.

(** X17: every call of a response is answered: the branch extends the
    transcript by the assistant message that carries the calls and then,
    for every call and in call order, one tool message with the id of the
    call; no other tool message follows, whether results are invalid,
    images are attached or old images are evicted. *)
Theorem with_tool_calls_answers_every_call (response_text : string)
    (calls : list FunctionCall) (st : LoopState) (w : W) :
  let st' := (with_tool_calls env config response_text calls st w).1.2 in
  ∃ assistant_msg rest,
    drop (length (messages st)) (messages st') = assistant_msg :: rest
    ∧ role assistant_msg = "assistant"
    ∧ tc_id <$> tool_calls assistant_msg = fc_id <$> calls
    ∧ answered_ids rest = Some <$> (fc_id <$> calls).
Proof.
  intros st'.
  assert (∃ rest,
            frame <$> messages st'
            = frame <$> (messages st ++ assistant_message response_text calls :: rest)
            ∧ answered_ids rest = Some <$> (fc_id <$> calls))
    as (rest & Hframe & Hids).
  { unfold st', with_tool_calls.
    destruct (execute_calls_spec calls [] []
                (set_messages st (messages st ++ [assistant_message response_text calls])) w)
      as (entries & t & Hentries & Hcalls & Hroles & Hmessages & _ & _).
    destruct (execute_calls _ _ _ _ _ _ _) as [[[tool_results pending_images] st1] w1].
    simpl in Hentries, Hmessages. subst tool_results.
    destruct (append_tool_results_spec (messages st1) entries Hroles)
      as (appended & Happended & Hids).
    rewrite list_fmap_compose, Hcalls in Hids.
    rewrite Hmessages in Happended. simpl in Happended.
    rewrite <- app_assoc in Happended. simpl in Happended.
    cbn [messages set_messages]. rewrite !Hmessages.
    destruct (cost_limit_reached _ _); [exists appended; by rewrite Happended|].
    destruct pending_images as [|img imgs]; [exists appended; by rewrite Happended|].
    cbn [messages set_messages]. rewrite Happended.
    set (image_message := user_message _).
    exists (appended ++ [image_message]). split.
    - case_decide; cbn [fst snd messages set_messages];
        rewrite ?prune_old_images_frame, <- ?app_assoc; done.
    - rewrite answered_ids_app, Hids. unfold answered_ids.
      rewrite filter_cons_False by done. by rewrite app_nil_r. }
  assert (length (messages st')
          = length (messages st ++ assistant_message response_text calls :: rest))
    as Hlen by (by rewrite <- (length_fmap frame), Hframe, length_fmap).
  apply (f_equal (drop (length (messages st)))) in Hframe.
  rewrite <- !fmap_drop, drop_app_length in Hframe.
  destruct (drop (length (messages st)) (messages st')) as [|m rest'];
    [done|]. simplify_eq/=. unfold frame in *. simplify_eq.
  exists m, rest'. split; [done|]. split; [congruence|].
  split.
  - replace (tool_calls m) with (tool_call_of <$> calls) by congruence.
    rewrite <- list_fmap_compose. done.
  - rewrite <- Hids. by apply answered_ids_frame.
Qed.

Lemma with_tool_calls_trace response_text calls st w :
  ∃ t, Forall (λ e, e ≠ Done) t
    ∧ (with_tool_calls env config response_text calls st w).1.1 ≠ Return
    ∧ trace (with_tool_calls env config response_text calls st w).1.2
      = trace st ++ t.
Proof.
  unfold with_tool_calls.
  destruct (execute_calls_spec calls [] []
              (set_messages st (messages st ++ [assistant_message response_text calls])) w)
    as (entries & t & _ & _ & _ & _ & Ht & Htrace).
  destruct (execute_calls _ _ _ _ _ _ _) as [[[tool_results pending_images] st1] w1].
  simpl in Htrace. exists t. split; [done|].
  repeat case_match; simplify_eq/=; done.
Qed.

Lemma no_tool_calls_trace response_text st :
  (no_tool_calls env config response_text st).1 ≠ Return
  ∧ trace (no_tool_calls env config response_text st).2 = trace st.
Proof. unfold no_tool_calls. repeat case_match; simplify_eq/=; done. Qed.

(** One iteration records no [Done], unless it returns from the function,
    and then [Done] is the last thing it records. *)
Lemma loop_body_trace st w :
  ∃ t, Forall (λ e, e ≠ Done) t
    ∧ trace (loop_body env config st w).1.2
      = trace st ++ t
        ++ (if (loop_body env config st w).1.1 is Return then [Done] else []).
Proof.
  unfold loop_body.
  destruct (manage_context env _ _ _ w) as [context_messages w1].
  set (st1 := if decide _ then _ else _).
  assert (trace st1 = trace st) as <- by (unfold st1; by case_decide).
  clearbody st1.
  destruct (call_with_retry_no_done (Z.to_nat max_retries - 1)
              (_apply_caching context_messages (cache_enabled config)) st1 w1)
    as (t1 & Ht1 & Htrace1).
  destruct (call_with_retry _ _ _ _ _ _) as [[attempted st2] w2].
  simpl in Htrace1.
  destruct attempted as [response|[m|c m|m]].
  - set (st3 := if decide (text response = "") then _ else _).
    assert (∃ t3, Forall (λ e, e ≠ Done) t3 ∧ trace st3 = trace st2 ++ t3)
      as (t3 & Ht3 & Htrace3).
    { unfold st3. case_decide.
      - exists []. by rewrite app_nil_r.
      - unfold next_item_id. simpl. eexists. split; [|reflexivity].
        by repeat constructor. }
    clearbody st3.
    destruct (function_calls response) as [|call calls].
    + destruct (no_tool_calls_trace (text response) st3) as [Hcontrol Htrace].
      destruct (no_tool_calls _ _ _ _) as [control st4]. cbn [fst snd] in *.
      exists (t1 ++ t3). split; [by apply Forall_app|].
      destruct control; try done;
        by rewrite Htrace, Htrace3, Htrace1, app_nil_r, app_assoc.
    + destruct (with_tool_calls_trace (text response) (call :: calls) st3 w2)
        as (t4 & Ht4 & Hcontrol & Htrace).
      destruct (with_tool_calls _ _ _ _ _ _) as [[control st4] w4]. cbn [fst snd] in *.
      exists (t1 ++ t3 ++ t4). split; [apply Forall_app; split; [done|by apply Forall_app]|].
      destruct control; try done;
        by rewrite Htrace, Htrace3, Htrace1, app_nil_r, !app_assoc.
  - eexists (t1 ++ [_]).
    split; [|simpl; rewrite Htrace1, <- !app_assoc; reflexivity].
    apply Forall_app. by repeat constructor.
  - eexists (t1 ++ [_]).
    split; [|simpl; rewrite Htrace1, app_nil_r, <- !app_assoc; reflexivity].
    apply Forall_app. by repeat constructor.
  - eexists (t1 ++ [_]).
    split; [|simpl; rewrite Htrace1, app_nil_r, <- !app_assoc; reflexivity].
    apply Forall_app. by repeat constructor.
Qed.

Lemma iterate_trace remaining st w :
  ∃ t, Forall (λ e, e ≠ Done) t
    ∧ trace (iterate env config remaining st w).1.2
      = trace st ++ t
        ++ (if (iterate env config remaining st w).1.1 then [Done] else []).
Proof.
  revert st w. induction remaining as [|remaining IH]; intros st w.
  - exists []. simpl. by rewrite app_nil_r.
  - cbn [iterate]. destruct (loop_body_trace st w) as (t & Ht & Htrace).
    destruct (loop_body env config st w) as [[[| |] st1] w1]; simpl in *.
    + destruct (IH st1 w1) as (t' & Ht' & ->).
      exists (t ++ t'). split; [by apply Forall_app|].
      by rewrite Htrace, app_nil_r, <- !app_assoc.
    + exists t. split; [done|]. by rewrite Htrace.
    + exists t. split; [done|]. by rewrite Htrace.
Qed.

(** X18: every run records [thread.started] and [turn.started] first and
    calls [ctx.done()] exactly once, as the last thing it does, whether it
    ends by completion, by the iteration limit or by the cost limit. *)
Theorem run_agent_loop_done_once (w : W) :
  ∃ t, trace (run_agent_loop env config w).1
       = [Emit ThreadStartedEvent; Emit TurnStartedEvent] ++ t ++ [Done]
    ∧ Done ∉ t.
Proof.
  unfold run_agent_loop, initial_state.
  destruct (shell env _ w) as [initial_output w0].
  set (st0 := {| messages := _ |}).
  destruct (iterate_trace (Z.to_nat (max_iterations config)) st0 w0)
    as (t & Ht & Htrace).
  destruct (iterate _ _ _ _ _) as [[returned st1] w1]. simpl in Htrace.
  destruct returned.
  - exists t. split; [simpl; by rewrite Htrace|].
    intros Hin. by eapply Forall_forall in Ht.
  - eexists (t ++ [_]). split.
    + simpl. rewrite Htrace, app_nil_r, <- !app_assoc. reflexivity.
    + intros [Hin|Hin]%elem_of_app.
      * by eapply Forall_forall in Ht.
      * by apply list_elem_of_singleton in Hin.
Qed.


End Turns.


(** * The tool registry: statistics and cache *)

Lemma sum_by_tool_insert f (m : gmap string ToolStats) k v :
  sum_by_tool f (<[k := v]> m) = sum_by_tool f m - from_option f 0 (m !! k) + f v.
Proof.
  unfold sum_by_tool. destruct (m !! k) as [old|] eqn:Hk; simpl.
  - rewrite <- insert_delete_eq.
    rewrite map_fold_insert_L; [|intros; lia|by rewrite lookup_delete_eq].
    rewrite (map_fold_delete_L _ _ k old m); [lia|intros; lia|done].
  - rewrite map_fold_insert_L; [lia|intros; lia|done].
Qed.

Lemma _record_execution_consistent s tool_name duration_ms success cached :
  (cached = true → success = true) →
  stats_consistent s →
  stats_consistent (_record_execution s tool_name duration_ms success cached).
Proof.
  intros Hcached (Htotal & Hfailed & Hhits & Hexecutions & Hsuccesses & Hms & Htools).
  unfold stats_consistent, _record_execution. cbn [total_executions
    successful_executions failed_executions cache_hits total_duration_ms by_tool].
  rewrite !sum_by_tool_insert. cbn [executions successes total_ms].
  assert (0 <= from_option successes 0 (by_tool s !! tool_name)
          <= from_option executions 0 (by_tool s !! tool_name)) as Hold.
  { destruct (by_tool s !! tool_name) as [ts|] eqn:Hts; cbn [from_option]; [|lia].
    exact (Htools _ _ Hts). }
  destruct (by_tool s !! tool_name) as [ts|] eqn:Hts;
    cbn [from_option default id executions successes total_ms] in *.
  all: split_and!;
    try (destruct success, cached; try (specialize (Hcached eq_refl)); lia).
  all: apply map_Forall_insert_2; [|done].
  all: cbn [executions successes]; destruct success; lia.
Qed.

Lemma cache_get_set cache key cached :
  cache_get (cache_set cache key cached) key = Some cached.
Proof.
  induction cache as [|[k c] cache IH]; simpl.
  - by rewrite decide_True.
  - case_decide; simpl; [by rewrite decide_True|by rewrite decide_False].
Qed.

Lemma cache_set_length cache key cached :
  (length (cache_set cache key cached) ≤ S (length cache))%nat.
Proof.
  induction cache as [|[k c] cache IH]; simpl; [done|].
  case_decide; simpl; lia.
Qed.

Lemma cache_set_Forall (P : CachedResult → Prop) cache key cached :
  P cached → Forall (λ entry, P entry.2) cache →
  Forall (λ entry, P entry.2) (cache_set cache key cached).
Proof.
  intros Hcached. induction 1 as [|[k c] cache Hc Hrest IH]; simpl.
  - by repeat constructor.
  - case_decide; by constructor.
Qed.

Lemma cache_get_Forall (P : CachedResult → Prop) cache key cached :
  Forall (λ entry, P entry.2) cache → cache_get cache key = Some cached → P cached.
Proof.
  induction 1 as [|[k c] cache Hc _ IH]; simpl; [done|].
  case_decide; [by intros [= <-]|done].
Qed.

Section Registry.
Context {W : Type} (host : Host W).

(** X20: the counters of the registry stay consistent through [execute]:
    every execution is counted once, as a success or as a failure; the
    cache hits are among the successes; and the per-tool counters add up
    to the totals. *)
Theorem ToolRegistry_execute_stats (r : Registry) (name arguments : string) (w : W) :
  stats_consistent (_stats r) →
  let r' := (ToolRegistry_execute host r name arguments w).1.2 in
  stats_consistent (_stats r')
  ∧ total_executions (_stats r') = total_executions (_stats r) + 1.
Proof.
  intros Hstats. unfold ToolRegistry_execute.
  destruct (time host w) as [start_time w0].
  destruct (if ec_cache_enabled (_config r) then _ else _) as [[cached|] w1].
  - destruct (elapsed_ms host start_time w1) as [duration_ms w2]. simpl.
    split; [by apply _record_execution_consistent|done].
  - destruct (dispatch host name arguments w1) as [result w2].
    destruct (elapsed_ms host start_time w2) as [duration_ms w3].
    destruct (ec_cache_enabled (_config r) && success result);
      [destruct (_cache_result _ _ _ _ _ _) as [cache w4]|]; simpl;
      (split; [by apply _record_execution_consistent|done]).
Qed.

(** X21: a second call with the same tool and arguments is served from the
    cache: when the cache is enabled and not full, the first result was a
    success and its entry is still valid at the lookup, the tool is not
    run again, whatever the tool does; the same result is returned, the
    cache is left as it is, and only the clock is read. *)
Theorem ToolRegistry_execute_twice (r : Registry) (name arguments : string) (w : W) :
  let first := ToolRegistry_execute host r name arguments w in
  let result := first.1.1 in
  let r1 := first.1.2 in
  let w1 := first.2 in
  ec_cache_enabled (_config r) = true →
  (length (_cache r) < 1000)%nat →
  success result = true →
  (∀ cached, cache_get (_cache r1) (_cache_key host name arguments) = Some cached →
     (is_valid host cached (cache_ttl (_config r1)) (time host w1).2).1 = true) →
  let second := ToolRegistry_execute host r1 name arguments w1 in
  second.1.1 = result
  ∧ _cache second.1.2 = _cache r1
  ∧ second.2 = (time host (time host (time host w1).2).2).2
  ∧ cache_hits (_stats second.1.2) = cache_hits (_stats r1) + 1.
Proof.
  intros first result r1 w1 Henabled Hroom Hsuccess Hvalid.
  assert (_config r1 = _config r
          ∧ ∃ cached, cache_get (_cache r1) (_cache_key host name arguments) = Some cached
                      ∧ cr_result cached = result) as (Hconfig & cached & Hcached & Hresult).
  { unfold result, r1, first, ToolRegistry_execute in *. rewrite Henabled in *.
    destruct (time host w) as [start_time w0].
    unfold _get_cached in *.
    destruct (cache_get (_cache r) _) as [cached|] eqn:Hget.
    - destruct (is_valid host cached _ w0) as [[|] w0'].
      + destruct (elapsed_ms host start_time w0') as [duration_ms w2]. simpl.
        split; [done|]. by exists cached.
      + destruct (dispatch host name arguments w0') as [result' w2].
        destruct (elapsed_ms host start_time w2) as [duration_ms w3].
        destruct (success result') eqn:Hresult'; cbn [andb fst snd] in *;
          [|congruence].
        unfold _cache_result in *.
        destruct (time host w3) as [now w4].
        rewrite decide_False.
        2:{ pose proof (cache_set_length (_cache r) (_cache_key host name arguments)
                          {| cr_result := result'; cached_at := now |}). lia. }
        simpl. split; [done|]. eexists. by rewrite cache_get_set.
    - destruct (dispatch host name arguments w0) as [result' w2].
      destruct (elapsed_ms host start_time w2) as [duration_ms w3].
      destruct (success result') eqn:Hresult'; cbn [andb fst snd] in *;
        [|congruence].
      unfold _cache_result in *.
      destruct (time host w3) as [now w4].
      rewrite decide_False.
      2:{ pose proof (cache_set_length (_cache r) (_cache_key host name arguments)
                        {| cr_result := result'; cached_at := now |}). lia. }
      simpl. split; [done|]. eexists. by rewrite cache_get_set. }
  specialize (Hvalid cached Hcached).
  intros second. unfold second, ToolRegistry_execute.
  rewrite Hconfig, Henabled. unfold _get_cached. rewrite Hcached, Hconfig.
  rewrite Hconfig in Hvalid.
  destruct (time host w1) as [start_time w2]. cbn [fst snd] in *.
  unfold is_valid in *. destruct (time host w2) as [now w3]. cbn [fst snd] in *.
  rewrite Hvalid. unfold elapsed_ms. destruct (time host w3) as [now' w4].
  by cbn [fst snd _cache _stats _record_execution cache_hits].
Qed.

(** X22: only successes are cached: if every cached result is a success
    before [execute], so it is after, and a call that fails leaves the
    cache as it was. *)
Theorem ToolRegistry_execute_caches_successes (r : Registry)
    (name arguments : string) (w : W) :
  Forall (λ entry, success (cr_result entry.2) = true) (_cache r) →
  let out := ToolRegistry_execute host r name arguments w in
  Forall (λ entry, success (cr_result entry.2) = true) (_cache out.1.2)
  ∧ (success out.1.1 = false → _cache out.1.2 = _cache r).
Proof.
  intros Hcache. unfold ToolRegistry_execute.
  destruct (time host w) as [start_time w0].
  destruct (if ec_cache_enabled (_config r) then _ else _) as [[cached|] w1] eqn:Hget.
  - destruct (elapsed_ms host start_time w1) as [duration_ms w2]. simpl.
    split; [done|]. intros Hfailed.
    destruct (ec_cache_enabled (_config r)); [|done].
    unfold _get_cached in Hget.
    destruct (cache_get (_cache r) _) as [entry|] eqn:Hentry; [|done].
    destruct (is_valid host entry _ w0) as [[|] ?]; simplify_eq.
    pose proof (cache_get_Forall (λ c, success (cr_result c) = true) _ _ _
                  Hcache Hentry) as Hok.
    simpl in Hok. congruence.
  - destruct (dispatch host name arguments w1) as [result w2].
    destruct (elapsed_ms host start_time w2) as [duration_ms w3].
    destruct (ec_cache_enabled (_config r)); simpl; [|done].
    destruct (success result) eqn:Hsuccess; simpl; [|done].
    unfold _cache_result. destruct (time host w3) as [now w4].
    pose proof (cache_set_Forall (λ c, success (cr_result c) = true) (_cache r)
                  (_cache_key host name arguments)
                  {| cr_result := result; cached_at := now |} Hsuccess Hcache)
      as Hset.
    case_decide; [|cbn [fst snd _cache]; split; [done|congruence]].
    unfold _evict_expired_cache. destruct (time host w4) as [now' w5].
    destruct (expired_keys host _ _ w5) as [keys w6]. cbn [fst snd _cache].
    split; [|congruence].
    apply Forall_forall. intros entry [_ Hentry]%list_elem_of_filter.
    revert entry Hentry. by apply Forall_forall.
Qed.

End Registry.

Lemma ToolRegistry_execute_stats_witness :
  stats_consistent
    (_stats (ToolRegistry_execute (ticking_host (λ _, ok_result))
               (ToolRegistry_init ExecutorConfig_default) "read_file" "{}" 0).1.2).
Proof.
  refine (proj1 (ToolRegistry_execute_stats (ticking_host (λ _, ok_result))
                   (ToolRegistry_init ExecutorConfig_default) "read_file" "{}" 0 _)).
  unfold stats_consistent. simpl. repeat split; try done.
Defined.

Lemma ToolRegistry_execute_twice_witness :
  let host := ticking_host (λ _, ok_result) in
  let first :=
    ToolRegistry_execute host (ToolRegistry_init ExecutorConfig_default)
      "read_file" "{}" 0 in
  let second := ToolRegistry_execute host first.1.2 "read_file" "{}" first.2 in
  second.1.1 = first.1.1
  ∧ _cache second.1.2 = _cache first.1.2
  ∧ second.2 = (time host (time host (time host first.2).2).2).2
  ∧ cache_hits (_stats second.1.2) = cache_hits (_stats first.1.2) + 1.
Proof.
  refine (ToolRegistry_execute_twice (ticking_host (λ _, ok_result))
            (ToolRegistry_init ExecutorConfig_default) "read_file" "{}" 0 _ _ _ _).
  - reflexivity.
  - simpl. lia.
  - reflexivity.
  - intros cached Hcached. vm_compute in Hcached.
    injection Hcached as <-. vm_compute. reflexivity.
Defined.

(** With that host the first call runs the tool, which moves the world
    by 1000, and the second does not. *)
Lemma ToolRegistry_execute_ticking_host :
  let host := ticking_host (λ _, ok_result) in
  let first :=
    ToolRegistry_execute host (ToolRegistry_init ExecutorConfig_default)
      "read_file" "{}" 0 in
  first.2 = 1003 ∧ (ToolRegistry_execute host first.1.2 "read_file" "{}" first.2).2 = 1006.
Proof. vm_compute. done. Qed.

Lemma ToolRegistry_execute_caches_successes_witness :
  let out :=
    ToolRegistry_execute (ticking_host (λ _, failed_result))
      (ToolRegistry_init ExecutorConfig_default) "read_file" "{}" 0 in
  Forall (λ entry, success (cr_result entry.2) = true) (_cache out.1.2)
  ∧ (success out.1.1 = false → _cache out.1.2 = []).
Proof.
  refine (ToolRegistry_execute_caches_successes (ticking_host (λ _, failed_result))
            (ToolRegistry_init ExecutorConfig_default) "read_file" "{}" 0 _).
  simpl. constructor.
Defined.

(** ** Rates *)

Lemma rate_le p q whole :
  0 < whole → p <= q → (rate p whole <= rate q whole)%Q.
Proof.
  intros Hwhole Hle. unfold rate. destruct (decide (whole = 0)); [lia|].
  apply Qmult_le_compat_r.
  - by rewrite <- Zle_Qle.
  - apply Qinv_le_0_compat. change 0%Q with (inject_Z 0). rewrite <- Zle_Qle. lia.
Qed.

Lemma rate_all whole : 0 < whole → (rate whole whole == 1)%Q.
Proof.
  intros Hwhole. unfold rate. destruct (decide (whole = 0)); [lia|].
  apply Qmult_inv_r. change 0%Q with (inject_Z 0). rewrite inject_Z_injective. lia.
Qed.

Lemma rate_none whole : (rate 0 whole == 0)%Q.
Proof.
  unfold rate. case_decide; [done|]. unfold Qdiv. by rewrite Qmult_0_l.
Qed.

(** X23: the rates of consistent statistics are fractions: the rate of
    cache hits is at most the rate of successes, and both lie between 0
    and 1; before the first execution they are 0 (no division by zero). *)
Theorem rates_bounded (s : ExecutorStats) :
  stats_consistent s →
  (0 <= cache_hit_rate s)%Q
  ∧ (cache_hit_rate s <= success_rate s)%Q
  ∧ (success_rate s <= 1)%Q
  ∧ (total_executions s = 0 → success_rate s = 0%Q ∧ cache_hit_rate s = 0%Q).
Proof.
  intros (Htotal & Hfailed & Hhits & _).
  unfold cache_hit_rate, success_rate.
  destruct (decide (total_executions s = 0)) as [Hnone|Hsome].
  - unfold rate. rewrite Hnone. by rewrite !decide_True by done.
  - assert (0 < total_executions s) as Hpos by lia.
    split; [|split; [|split; [|done]]].
    + rewrite <- (rate_none (total_executions s)). apply rate_le; lia.
    + apply rate_le; lia.
    + rewrite <- (rate_all (total_executions s)) by done. apply rate_le; lia.
Qed.

Lemma rates_bounded_witness :
  let s := _record_execution
             (_record_execution ExecutorStats_init "read_file" 3 true false)
             "read_file" 1 true true in
  (0 <= cache_hit_rate s)%Q
  ∧ (cache_hit_rate s <= success_rate s)%Q
  ∧ (success_rate s <= 1)%Q
  ∧ (total_executions s = 0 → success_rate s = 0%Q ∧ cache_hit_rate s = 0%Q).
Proof.
  refine (rates_bounded _ _).
  do 2 (apply _record_execution_consistent; [done|]).
  unfold stats_consistent. simpl. repeat split; done.
Defined.

(** After a miss and a hit, half of the executions are cache hits. *)
Lemma rates_after_miss_and_hit :
  let s := _record_execution
             (_record_execution ExecutorStats_init "read_file" 3 true false)
             "read_file" 1 true true in
  (cache_hit_rate s == 1 # 2)%Q ∧ (success_rate s == 1)%Q.
Proof. by vm_compute. Qed.

(** * The protected budget of the tool-output pruner *)

Lemma tool_output_tokens_snoc (messages : list Message) i n msg :
  (i ≤ n)%nat → messages !! n = Some msg →
  tool_output_tokens (drop i (take (S n) messages))
  = tool_output_tokens (drop i (take n messages))
    + (if decide (role msg = "tool") then estimate_content_len (content msg) else 0).
Proof.
  intros Hi Hmsg. pose proof (lookup_lt_Some _ _ _ Hmsg) as Hn.
  rewrite (take_S_r _ _ _ Hmsg), drop_app_le by (rewrite length_take; lia).
  unfold tool_output_tokens. rewrite fmap_app, sum_list_Z_app. simpl. lia.
Qed.

(** A position is selected only once the outputs counted from the end
    down to it exceed [PRUNE_PROTECT]. *)
Lemma prune_scan_to_prune_budget messages protect_last_turns n st i :
  i ∈ to_prune (prune_scan messages protect_last_turns n st) →
  i ∈ to_prune st
  ∨ ((i < n)%nat
     ∧ PRUNE_PROTECT < total st + tool_output_tokens (drop i (take n messages))).
Proof.
  revert st. induction n as [|n IH]; intros st; [by left|].
  cbn [prune_scan]. destruct (messages !! n) as [msg|] eqn:Hmsg; [|by left].
  set (counted := if decide (role msg = "tool")
                  then estimate_content_len (content msg) else 0).
  assert (0 <= counted) as Hcounted.
  { unfold counted. case_decide; [apply estimate_content_len_nonneg|done]. }
  assert (∀ st', total st' <= total st + counted →
            (i ∈ to_prune st' →
             i ∈ to_prune st ∨ (i = n ∧ PRUNE_PROTECT < total st + counted)) →
            i ∈ to_prune (prune_scan messages protect_last_turns n st') →
            i ∈ to_prune st
            ∨ ((i < S n)%nat
               ∧ PRUNE_PROTECT
                 < total st + tool_output_tokens (drop i (take (S n) messages))))
    as Hstep.
  { intros st' Htotal Hst' [Hi|[Hlt Hover]]%IH.
    - destruct (Hst' Hi) as [?|[-> Hover]]; [by left|]. right. split; [lia|].
      rewrite (tool_output_tokens_snoc _ n n msg) by done.
      rewrite drop_ge by (rewrite length_take; lia). fold counted.
      change (tool_output_tokens []) with 0. lia.
    - right. split; [lia|].
      rewrite (tool_output_tokens_snoc _ i n msg) by (done || lia).
      fold counted. lia. }
  destruct (decide (_ < protect_last_turns)) as [Hprot|Hprot].
  { apply Hstep; simpl; [lia|by left]. }
  destruct (decide (role msg = "tool")) as [Htool|Hother];
    [|apply Hstep; simpl; [lia|by left]].
  destruct (decide (content msg = CStr PRUNE_MARKER)); [simpl; by left|].
  assert (counted = estimate_content_len (content msg)) as Hest
    by reflexivity.
  destruct (decide (_ > PRUNE_PROTECT)) as [Hover|Hunder];
    (apply Hstep; simpl; [lia|]); [|by left].
  intros [?|Hi]%elem_of_app; [by left|].
  apply list_elem_of_singleton in Hi as ->. right. split; [done|].
  simpl in Hover. lia.
Qed.

(** X24: the pruner leaves a message alone as long as the tool outputs
    from its position to the end of the transcript are estimated at no
    more than [PRUNE_PROTECT] tokens: the most recent 40000 tokens of tool
    output are never cleared. *)
Theorem prune_old_tool_outputs_protects_budget (messages : list Message)
    (protect_last_turns : Z) (i : nat) :
  tool_output_tokens (drop i messages) <= PRUNE_PROTECT →
  prune_old_tool_outputs messages protect_last_turns !! i = messages !! i.
Proof.
  intros Hrecent. unfold prune_old_tool_outputs.
  destruct messages as [|m ms] eqn:Hms; [done|]. rewrite <- Hms in *.
  case_decide; [done|].
  rewrite list_lookup_imap. destruct (messages !! i) as [msg|]; [|done]. simpl.
  rewrite decide_False; [done|].
  intros [Hi|[_ Hover]]%elem_of_list_to_set%prune_scan_to_prune_budget.
  - by apply elem_of_nil in Hi.
  - rewrite firstn_all in Hover. simpl in Hover. lia.
Qed.

Lemma prune_old_tool_outputs_protects_budget_witness :
  prune_old_tool_outputs budget_transcript 2 !! 7%nat
  = budget_transcript !! 7%nat.
Proof.
  apply (prune_old_tool_outputs_protects_budget budget_transcript 2 7).
  vm_compute. discriminate.
Defined.

(** On that transcript the pruner acts: the two large outputs, which lie
    beyond the budget, are cleared, and the small one, a tool message
    behind the protected turns as they are, is kept. *)
Lemma prune_old_tool_outputs_budget_transcript :
  recoverable_tokens budget_transcript 2 = 80002
  ∧ tool_output_tokens (drop 7 budget_transcript) = 5
  ∧ content <$> prune_old_tool_outputs budget_transcript 2
    = [ CStr "You are an agent."; CStr "List the build logs."; CStr "";
        CStr PRUNE_MARKER; CStr ""; CStr PRUNE_MARKER; CStr "";
        CStr "3 errors, 12 warnings";
        CStr "Now fix the first error."; CStr "And run the tests." ].
Proof. by vm_compute. Qed.

(** * The turn-control loop: how a run can end, and its images *)

Lemma account_fields st response :
  iteration (account st response) = iteration st
  ∧ verification_phase (account st response) = verification_phase st
  ∧ messages (account st response) = messages st.
Proof. unfold account. by destruct (default _ _) as [[? ?] ?]. Qed.

Lemma count_images_image_content (images_to_add : list PendingImage) :
  count_images_in_parts (image_content images_to_add)
  <= Z.of_nat (length images_to_add).
Proof.
  unfold image_content, count_images_in_parts, sum_list_Z.
  induction images_to_add as [|img imgs IH]; [done|].
  rewrite bind_cons. csimpl. destruct (is_image_part (pi_content img)); lia.
Qed.

Lemma append_tool_results_images messages tool_results :
  count_total_images (append_tool_results messages tool_results)
  = count_total_images messages.
Proof.
  unfold append_tool_results. revert messages.
  induction tool_results as [|entry tool_results IH]; intros messages; [done|].
  cbn [foldl]. rewrite IH.
  destruct (tr_invalid entry); rewrite !count_total_images_app.
  all: change (count_total_images [tool_message entry]) with 0.
  all: try change (count_total_images [invalid_parameters_message entry]) with 0.
  all: lia.
Qed.

Section Ending.
Context {W : Type} (env : Env W) (config : Config).




Hypothesis chat_never_cost_limit : never_cost_limit env.





End Ending.


(** With that transport the run takes three iterations: the answer, the
    verification and the confirmation. *)
Lemma run_agent_loop_summarizing_env :
  iteration (run_agent_loop summarizing_env (small_config 10) O).1 = 3
  ∧ (run_agent_loop summarizing_env (small_config 10) O).2 = 3%nat.
Proof. by vm_compute. Qed.

Section Images.
Context {W : Type} (env : Env W) (config : Config).

(** X26: a turn adds at most [MAX_IMAGES_PER_TURN] images to the
    transcript, however many of its tool calls return one. *)
Theorem with_tool_calls_adds_few_images (response_text : string)
    (calls : list FunctionCall) (st : LoopState) (w : W) :
  count_total_images (messages (with_tool_calls env config response_text calls st w).1.2)
  <= count_total_images (messages st) + Z.of_nat MAX_IMAGES_PER_TURN.
Proof.
  unfold with_tool_calls.
  destruct (execute_calls_spec env config calls [] []
              (set_messages st (messages st ++ [assistant_message response_text calls])) w)
    as (entries & t & _ & _ & _ & Hmessages & _ & _).
  destruct (execute_calls _ _ _ _ _ _ _) as [[[tool_results pending_images] st1] w1].
  cbn [fst snd] in Hmessages. simpl in Hmessages.
  assert (count_total_images (append_tool_results (messages st1) tool_results)
          = count_total_images (messages st)) as Hbase.
  { rewrite append_tool_results_images, Hmessages, count_total_images_app.
    change (count_total_images [assistant_message response_text calls]) with 0.
    lia. }
  destruct (cost_limit_reached _ _); [cbn [fst snd messages set_messages]; lia|].
  destruct pending_images as [|img imgs];
    [cbn [fst snd messages set_messages]; lia|].
  set (image_message := user_message _).
  assert (count_total_images
            (append_tool_results (messages st1) tool_results ++ [image_message])
          <= count_total_images (messages st) + Z.of_nat MAX_IMAGES_PER_TURN) as Hturn.
  { rewrite count_total_images_app, Hbase.
    assert (count_total_images [image_message] <= Z.of_nat MAX_IMAGES_PER_TURN); [|lia].
    assert (count_total_images [image_message]
            = count_images_in_parts
                (image_content (take MAX_IMAGES_PER_TURN (img :: imgs))) + 0) as ->
      by reflexivity.
    pose proof (count_images_image_content (take MAX_IMAGES_PER_TURN (img :: imgs))) as Hle.
    rewrite length_take in Hle. lia. }
  cbn [messages set_messages].
  case_decide; cbn [fst snd messages set_messages]; [|done].
  etrans; [apply prune_old_images_no_more_images|done].
Qed.

End Images.

(** * The snapshot of the last good transcript *)

Section Snapshot.
Context {W : Type} (env : Env W) (config : Config).

(** X27: the retry loop only ever rolls the transcript back to the
    snapshot taken at the last successful call: after it the transcript is
    the one it started with or that snapshot; when it ends with a response,
    the snapshot is the transcript the response belongs to; and when it
    fails, the snapshot is kept. *)
Theorem call_with_retry_snapshot (remaining : nat) (cached_messages : list Message)
    (st : LoopState) (w : W) :
  let out := call_with_retry env config remaining cached_messages st w in
  (messages out.1.2 = messages st ∨ messages out.1.2 = prev_messages st)
  ∧ (∀ response, out.1.1 = Responded response →
       prev_messages out.1.2 = messages out.1.2)
  ∧ (∀ e, out.1.1 = Failed e → prev_messages out.1.2 = prev_messages st).
Proof.
  revert cached_messages st w.
  assert (∀ st response,
            messages (account st response) = messages st
            ∧ prev_messages (account st response) = messages st) as Haccount.
  { intros st response. unfold account. by destruct (default _ _) as [[? ?] ?]. }
  induction remaining as [|remaining IH]; intros cached_messages st w;
    cbn [call_with_retry];
    destruct (chat env cached_messages w) as [[response|[m|c m|m]] w'].
  1, 5: destruct (Haccount st response) as [Hm Hp]; cbn [fst snd];
    rewrite Hm, Hp; split; [by left|]; by split.
  1, 4: cbn [fst snd]; split; [by left|]; by split.
  - destruct (_ || _); [cbn [fst snd]; split; [by left|]; by split|].
    destruct (contains "BadRequestError" m); cbn [fst snd];
      (split; [by (left + right)|]; by split).
  - cbn [fst snd]. split; [by left|]. by split.
  - destruct (_ || _); [cbn [fst snd]; split; [by left|]; by split|].
    destruct (contains "BadRequestError" m).
    + match goal with
      | |- context [call_with_retry env config remaining ?a ?b ?c] =>
          destruct (IH a b c) as (Hmessages & Hresponded & Hfailed)
      end.
      cbn [messages prev_messages record set_messages] in *.
      split; [right; by destruct Hmessages|]. by split.
    + match goal with
      | |- context [call_with_retry env config remaining ?a ?b ?c] =>
          destruct (IH a b c) as (Hmessages & Hresponded & Hfailed)
      end.
      cbn [messages prev_messages record] in *. by split.
  - match goal with
    | |- context [call_with_retry env config remaining ?a ?b ?c] =>
        destruct (IH a b c) as (Hmessages & Hresponded & Hfailed)
    end.
    cbn [messages prev_messages record] in *. by split.
Qed.

End Snapshot.
